(** * Verification of the 3-D robust phase unwrapper (b0Lib/robustunwrap.cpp)

    The development embeds the program of [src/b0Lib/robustunwrap.cpp]:
    the growable circular record queue ([InitQueue], [TerminateQueue],
    [Push], [Pop]), the neighbour check ([Check]), the bin-ordered flood
    fill ([unwrap]) and the driver ([robustUnwrapMain]).

    Conventions of the embedding.
    - [long] and [size_t] values, and the [int] coordinates and seeds,
      are integers of [Z]; the program is read on inputs whose
      coordinates and flat indices fit their C types, so no wrap-around
      occurs there.  The [int] [wholepis] of [Check] is a 32-bit
      integer: the conversion of the quotient of line 168 is
      [int_of_double], and the sums of lines 171 and 173 wrap around
      ([wrap_int]).
    - [float] and [double] values are exact rationals of [Q]; the decimal
      literals of the source ([PI], [1.00001], [1e38]) denote the
      rationals they spell, and arithmetic is exact: rounding is not
      modelled.  Where a statement depends on the values a [float] can
      take, they are the rationals satisfying [binary32].
    - A buffer reached through a pointer is a total map from the index
      used in the subscript to the value stored there, so a subscript
      outside the allocated range is still an access of the model; every
      subscript of the source adds an entry to the access [trace], the
      most recent first.  The buffers are taken to be distinct objects
      of [sze] elements each; what a store with a subscript outside
      that range overwrites in the machine is not modelled, so the map
      of a buffer speaks for the memory only while the accesses lie
      inside the buffers ([in_buffer]).
    - A queue stores whole records: slot [k] of the model stands for the
      bytes [k * m_chunk .. (k+1) * m_chunk - 1] of the [char] block.
      The queues are indexed by any natural number; the arrays
      [m_queues] and [thresholds] of the source have [NUMQUEUES]
      entries, so the model describes the source for at most
      [NUMQUEUES] bins.
    - The loops of [unwrap] are bounded by fuel; a run returns its state
      whether it finished, ran out of fuel, or left the threshold array.
      [robustUnwrapMain_terminates] gives the fuel that suffices. *)

From Stdlib Require Import ZArith QArith Qround Qabs Lia Lqa String.
From stdpp Require Import base list relations.

Local Open Scope Z_scope.

(** ** The growable record queue (lines 60-146) *)

Module Queue.

Section Queue.
Context {A : Type}.
(** Content of a slot of a freshly allocated block. *)
Variable junk : A.

(** The per-queue entries of the global arrays [m_bot], [m_top],
    [m_size], [m_chunk], [m_sizeb], [m_q]; [m_q = None] is the null
    pointer. *)
Record queue : Type := mkQueue {
  m_bot : Z;
  m_top : Z;
  m_size : Z;
  m_chunk : Z;
  m_sizeb : Z;
  m_q : option (list A)
}.

Definition NUMQUEUES : Z := 10000.
Definition DEFAULTBLOCK : Z := 100.
Definition BLOCKINCREMENT : Z := 500.

Definition InitQueue (chunk : Z) : queue :=
  {| m_chunk := chunk;
     m_bot := 0;
     m_top := 0;
     m_size := DEFAULTBLOCK;
     m_sizeb := DEFAULTBLOCK * chunk;
     m_q := None |}.

Definition TerminateQueue (q : queue) : queue :=
  {| m_bot := m_bot q; m_top := m_top q; m_size := m_size q;
     m_chunk := m_chunk q; m_sizeb := m_sizeb q;
     m_q := None |}.

(** The block is an array of bytes holding records of [chunk] bytes; the
    model keeps one list element per record, and byte offset [off]
    falls in slot [off / chunk]. *)
Definition slot (chunk off : Z) : nat := Z.to_nat (off / chunk).

(** [new char[nbytes]]. *)
Definition new_block (chunk nbytes : Z) : list A :=
  replicate (slot chunk nbytes) junk.

(** [memcpy (dst + doff, src + soff, n)], all three in bytes. *)
Definition memcpy (chunk : Z) (dst : list A) (doff : Z) (src : list A)
    (soff n : Z) : list A :=
  take (slot chunk doff) dst
    ++ take (slot chunk n) (drop (slot chunk soff) src)
    ++ drop (slot chunk (doff + n)) dst.

(** [memcpy (buf + off, x, chunk)] and [memcpy (x, buf + off, chunk)]:
    one record in, one record out. *)
Definition store (chunk : Z) (buf : list A) (off : Z) (x : A) : list A :=
  <[slot chunk off := x]> buf.

Definition load (chunk : Z) (buf : list A) (off : Z) : A :=
  nth (slot chunk off) buf junk.

(** [Push] (lines 88-135).  [new] does not return null, so the two
    out-of-memory exits are never taken and the result code is 0.  The
    local [stacksize] is computed and never used. *)
Definition Push (q : queue) (x : A) : Z * queue :=
  let chunk := m_chunk q in
  let buf := match m_q q with
             | Some b => b
             | None => new_block chunk (m_sizeb q)
             end in
  let buf := store chunk buf (m_top q * chunk) x in
  let top := m_top q + 1 in
  let top := if top =? m_size q then 0 else top in
  if top =? m_bot q then
    let newsize := m_size q + BLOCKINCREMENT in
    let newsizeb := newsize * chunk in
    let newq := new_block chunk newsizeb in
    let abovebot_b := (m_size q - m_bot q) * chunk in
    let newq := if 0 <? abovebot_b
                then memcpy chunk newq 0 buf (m_bot q * chunk) abovebot_b
                else newq in
    let newq := if negb (top =? 0)
                then memcpy chunk newq abovebot_b buf 0 (top * chunk)
                else newq in
    (0, {| m_bot := 0; m_top := m_size q; m_size := newsize;
           m_chunk := chunk; m_sizeb := newsizeb;
           m_q := Some newq |})
  else
    (0, {| m_bot := m_bot q; m_top := top; m_size := m_size q;
           m_chunk := chunk; m_sizeb := m_sizeb q;
           m_q := Some buf |}).

(** [Pop] (lines 137-146): [None] is the result code 1 (queue empty),
    [Some (x, q')] the result code 0 with the record copied out; a null
    block is read as an empty one. *)
Definition Pop (q : queue) : option (A * queue) :=
  if m_bot q =? m_top q then None
  else
    let buf := match m_q q with Some b => b | None => [] end in
    let x := load (m_chunk q) buf (m_bot q * m_chunk q) in
    let bot := m_bot q + 1 in
    let bot := if bot =? m_size q then 0 else bot in
    Some (x, {| m_bot := bot; m_top := m_top q; m_size := m_size q;
                m_chunk := m_chunk q; m_sizeb := m_sizeb q;
                m_q := m_q q |}).

(** [Push] and [Pop] with the byte counts divided out: what they compute
    on a queue whose record size is positive. *)
Definition Push_slots (q : queue) (x : A) : Z * queue :=
  let buf := match m_q q with
             | Some b => b
             | None => replicate (Z.to_nat (m_size q)) junk
             end in
  let buf := <[Z.to_nat (m_top q) := x]> buf in
  let top := m_top q + 1 in
  let top := if top =? m_size q then 0 else top in
  if top =? m_bot q then
    let newsize := m_size q + BLOCKINCREMENT in
    let abovebot := m_size q - m_bot q in
    let newq := replicate (Z.to_nat newsize) junk in
    let newq := if 0 <? abovebot
                then take (Z.to_nat abovebot) (drop (Z.to_nat (m_bot q)) buf)
                       ++ drop (Z.to_nat abovebot) newq
                else newq in
    let newq := if negb (top =? 0)
                then take (Z.to_nat abovebot) newq ++ take (Z.to_nat top) buf
                       ++ drop (Z.to_nat (abovebot + top)) newq
                else newq in
    (0, {| m_bot := 0; m_top := m_size q; m_size := newsize;
           m_chunk := m_chunk q; m_sizeb := newsize * m_chunk q;
           m_q := Some newq |})
  else
    (0, {| m_bot := m_bot q; m_top := top; m_size := m_size q;
           m_chunk := m_chunk q; m_sizeb := m_sizeb q;
           m_q := Some buf |}).

(** The records waiting in the queue, oldest first. *)
Definition contents (q : queue) : list A :=
  let buf := match m_q q with Some b => b | None => [] end in
  if m_bot q <=? m_top q
  then take (Z.to_nat (m_top q - m_bot q)) (drop (Z.to_nat (m_bot q)) buf)
  else drop (Z.to_nat (m_bot q)) buf ++ take (Z.to_nat (m_top q)) buf.

(** The block [Push] writes to: the allocated one, or the one the
    first push allocates. *)
Definition block (q : queue) : list A :=
  match m_q q with Some b => b | None => replicate (Z.to_nat (m_size q)) junk end.

(** Representation invariant of the circular buffer. *)
Definition wf (q : queue) : Prop :=
  0 < m_chunk q /\ m_sizeb q = m_size q * m_chunk q /\
  0 <= m_bot q < m_size q /\ 0 <= m_top q < m_size q /\
  match m_q q with
  | Some b => length b = Z.to_nat (m_size q)
  | None => m_bot q = m_top q
  end.

(** A sequence of queue operations and its replay on the circular
    buffer: the results of the pops, and the number of growth events
    (pushes that changed the capacity). *)
Inductive op : Type := OpPush (x : A) | OpPop.

Fixpoint run_ops (ops : list op) (q : queue) : list (option A) * queue :=
  match ops with
  | [] => ([], q)
  | OpPush x :: ops' => run_ops ops' (snd (Push q x))
  | OpPop :: ops' =>
      match Pop q with
      | None => let '(r, q') := run_ops ops' q in (None :: r, q')
      | Some (x, q1) => let '(r, q') := run_ops ops' q1 in (Some x :: r, q')
      end
  end.

Fixpoint growth_events (xs : list A) (q : queue) : nat :=
  match xs with
  | [] => 0%nat
  | x :: xs' =>
      let q' := snd (Push q x) in
      ((if (m_size q' =? m_size q)%Z then 0 else 1) + growth_events xs' q')%nat
  end.

(** The reference behaviour the queue is specified by: a FIFO list. *)
Fixpoint fifo_ops (ops : list op) (l : list A) : list (option A) * list A :=
  match ops with
  | [] => ([], l)
  | OpPush x :: ops' => fifo_ops ops' (l ++ [x])
  | OpPop :: ops' =>
      match l with
      | [] => let '(r, l') := fifo_ops ops' [] in (None :: r, l')
      | x :: l1 => let '(r, l') := fifo_ops ops' l1 in (Some x :: r, l')
      end
  end.

End Queue.

End Queue.

(** ** The flood fill (lines 17-58 and 149-320) *)

Module Unwrap.

Import Queue.

Local Open Scope Q_scope.

Definition PI : Q := 3.14159265358979.

(** [struct QUEUEENTRY] (lines 38-43). *)
Record QUEUEENTRY : Type := mkQE {
  qe_x : Z;
  qe_y : Z;
  qe_z : Z;
  qe_p : Z;
  qe_v : Q
}.

(** [sizeof(QUEUEENTRY)]: three [int], one [long], one [double]. *)
Definition sizeof_QUEUEENTRY : Z := 32.

(** Content of a queue slot nobody wrote yet. *)
Definition junk_entry : QUEUEENTRY := mkQE 0 0 0 0 0.

(** The globals set by the driver and only read by [unwrap]: [dim],
    [sze] and the strides [m_bsx], [m_bsy], [m_bsz]. *)
Record globals : Type := mkGlobals {
  dim0 : Z;
  dim1 : Z;
  dim2 : Z;
  sze : Z;
  m_bsx : Z;
  m_bsy : Z;
  m_bsz : Z
}.

(** The buffers the program subscripts, and the accesses it makes. *)
Inductive buffer : Type := Bphase | Bmaginput | Bmag | Bunwrapped | Bflag.

Inductive access : Type :=
| Rd (b : buffer) (i : Z)
| Wr (b : buffer) (i : Z).

(** The mutable state: [errcode], the messages handed to [GERROR], the
    memory behind the pointers [phase], [maginput], [mag], [unwrapped]
    and [flag], the queues by number, and the trace of accesses (most
    recent first). *)
Record state : Type := mkState {
  errcode : Z;
  gerror : list string;
  phase : Z -> Q;
  maginput : Z -> Q;
  mag : Z -> Q;
  unwrapped : Z -> Q;
  flag : Z -> bool;
  queues : nat -> queue (A := QUEUEENTRY);
  trace : list access
}.

Definition upd {V : Type} (f : Z -> V) (i : Z) (v : V) : Z -> V :=
  fun j => if (j =? i)%Z then v else f j.

Definition log (a : access) (s : state) : state :=
  mkState (errcode s) (gerror s) (phase s) (maginput s) (mag s)
          (unwrapped s) (flag s) (queues s) (a :: trace s).

Definition wr_mag (i : Z) (v : Q) (s : state) : state :=
  mkState (errcode s) (gerror s) (phase s) (maginput s) (upd (mag s) i v)
          (unwrapped s) (flag s) (queues s) (Wr Bmag i :: trace s).

Definition wr_unwrapped (i : Z) (v : Q) (s : state) : state :=
  mkState (errcode s) (gerror s) (phase s) (maginput s) (mag s)
          (upd (unwrapped s) i v) (flag s) (queues s)
          (Wr Bunwrapped i :: trace s).

Definition wr_flag (i : Z) (b : bool) (s : state) : state :=
  mkState (errcode s) (gerror s) (phase s) (maginput s) (mag s)
          (unwrapped s) (upd (flag s) i b) (queues s)
          (Wr Bflag i :: trace s).

Definition set_queue (n : nat) (q : queue) (s : state) : state :=
  mkState (errcode s) (gerror s) (phase s) (maginput s) (mag s)
          (unwrapped s) (flag s)
          (fun k => if (k =? n)%nat then q else queues s k) (trace s).

Definition set_errcode (e : Z) (s : state) : state :=
  mkState e (gerror s) (phase s) (maginput s) (mag s)
          (unwrapped s) (flag s) (queues s) (trace s).

(** Modelled from the spec: [GERROR] is the logging macro of [log.h],
    which is not among the sources; the specification describes it as an
    external logging sink that reports the message and lets the function
    continue. *)
Definition GERROR (msg : string) (s : state) : state :=
  mkState (errcode s) (msg :: gerror s) (phase s) (maginput s) (mag s)
          (unwrapped s) (flag s) (queues s) (trace s).

(** [raiseerror] (lines 53-58). *)
Definition raiseerror (msg : string) (s : state) : state :=
  set_errcode 1 (GERROR msg s).

(** [a > b] on doubles. *)
Definition Qgt_bool (a b : Q) : bool := negb (Qle_bool a b).

(** [int(d)] for a double [d] whose integer part fits an [int]:
    truncation toward zero. *)
Definition Qtrunc (q : Q) : Z := Z.quot (Qnum q) (Zpos (Qden q)).

(** [int] has 32 bits. *)
Definition INT_MIN : Z := -2147483648.
Definition INT_MAX : Z := 2147483647.

(** The result of an [int] addition or subtraction: it wraps around in
    two's complement.  (Signed overflow is undefined in C++; this is what
    the machine instruction leaves.) *)
Definition wrap_int (z : Z) : Z := ((z - INT_MIN) mod 4294967296 + INT_MIN)%Z.

(** The conversion [int(d)] of line 168.  For a double whose integer
    part does not fit an [int] the conversion is undefined in C++; the
    model takes the result of the x86-64 conversion instruction, which is
    [INT_MIN] then. *)
Definition int_of_double (q : Q) : Z :=
  let t := Qtrunc q in
  if ((INT_MIN <=? t) && (t <=? INT_MAX))%Z then t else INT_MIN.

(** A quotient whose truncation [wholepis] fits an [int] together with
    [wholepis + 1] and [1 - wholepis]. *)
Definition fits_int (q : Q) : Prop := Qabs q < 2147483647.

(** [std::round]: to the nearest integer, halves away from zero. *)
Definition Qround_away (q : Q) : Z :=
  if Qle_bool 0 q then Qfloor (q + (1 # 2)) else Qceiling (q - (1 # 2)).

(** Lines 168-174 from the quotient on: the value [Check] stores for a
    neighbour whose wrapped phase is [ph] when the division of line 168
    returned [q].  [wholepis] is an [int]; the two quotients by 2 are C
    integer divisions of [int] sums. *)
Definition unwrap_from (ph q : Q) : Q :=
  let wholepis := int_of_double q in
  if (wholepis >=? 1)%Z
  then ph - 2 * PI * inject_Z (Z.quot (wrap_int (wholepis + 1)) 2)
  else if (wholepis <=? -1)%Z
       then ph + 2 * PI * inject_Z (Z.quot (wrap_int (1 - wholepis)) 2)
       else ph.

(** The value [Check] stores for a neighbour whose wrapped phase is [ph],
    reached from a voxel resolved to [v] (lines 167-174). *)
Definition unwrap_value (ph v : Q) : Q := unwrap_from ph ((ph - v) / PI).

(** [Check] (lines 149-183). *)
Definition Check (g : globals) (primaryqueuenum : nat) (qe : QUEUEENTRY)
    (offp offx offy offz : Z) (s : state) : state :=
  let nx := (qe_x qe + offx)%Z in
  if ((nx <? 0) || (nx >=? dim0 g))%Z then s else
  let ny := (qe_y qe + offy)%Z in
  if ((ny <? 0) || (ny >=? dim1 g))%Z then s else
  let nz := (qe_z qe + offz)%Z in
  if ((nz <? 0) || (nz >=? dim2 g))%Z then s else
  let np := (qe_p qe + offp)%Z in
  let s := log (Rd Bflag np) s in
  if flag s np then s else
  let s := log (Rd Bphase np) s in
  let nv := unwrap_value (phase s np) (qe_v qe) in
  let s := wr_unwrapped np nv s in
  let s := wr_flag np true s in
  let nqe := mkQE nx ny nz np nv in
  let '(rc, q) := Push junk_entry (queues s primaryqueuenum) nqe in
  let s := set_queue primaryqueuenum q s in
  if (rc =? 0)%Z then s else raiseerror "Out of memory!" s.

(** The loop of lines 200-204 over [mag[0 .. sze-1]]. *)
Definition find_min_max (g : globals) (s : state) : Q * Q * state :=
  foldl (fun '(mn, mx, s) i =>
           let s := log (Rd Bmag i) s in
           let m := mag s i in
           (if Qgt_bool mn m then m else mn,
            if Qgt_bool m mx then m else mx, s))
        (1e38, 0, s) (seqZ 0 (sze g)).

(** The loop of lines 215-216. *)
Definition clear_flags (g : globals) (s : state) : state :=
  foldl (fun s i => wr_flag i false s) s (seqZ 0 (sze g)).

(** The loop of lines 219-220.  The array [m_queues] of line 188 has
    [NUMQUEUES] entries; with more bins the source stores past its end,
    which the model, whose queues are indexed by any natural number,
    does not show. *)
Definition init_queues (UNWRAPBINS : Z) (s : state) : state :=
  foldl (fun s i => set_queue i (InitQueue sizeof_QUEUEENTRY) s) s
        (seq 0 (Z.to_nat UNWRAPBINS)).

(** The loop of lines 246-247.  The array [thresholds] of line 189 has
    [NUMQUEUES] entries as well. *)
Definition thresholds (mn diff : Q) (UNWRAPBINS : Z) : list Q :=
  map (fun i => mn + diff * inject_Z i / inject_Z (UNWRAPBINS - 1))
      (seqZ 0 UNWRAPBINS).

(** Lines 191-248 of [unwrap]: everything before the bin loop.  The
    result is the threshold array and the state. *)
Definition unwrap_init (g : globals) (seedx seedy seedz UNWRAPBINS : Z)
    (s : state) : list Q * state :=
  let s := set_errcode 0 s in
  let UNWRAPBINS := if (UNWRAPBINS <? 2)%Z then 2%Z else UNWRAPBINS in
  let '(mn, mx, s) := find_min_max g s in
  let diff := 1.00001 * (mx - mn) in
  let seedp := (seedx + dim0 g * (seedy + dim1 g * seedz))%Z in
  let s := clear_flags g s in
  let s := init_queues UNWRAPBINS s in
  let s := wr_unwrapped 85 (phase s 85) (log (Rd Bphase 85) s) in
  let v := phase s seedp in
  let s := wr_unwrapped seedp v (log (Rd Bphase seedp) s) in
  let qe := mkQE seedx seedy seedz seedp v in
  let s := wr_flag seedp true s in
  let s := set_queue 0 (snd (Push junk_entry (queues s 0%nat) qe)) s in
  (thresholds mn diff UNWRAPBINS, s).

(** The scan of line 258, [while (mag[qe.p] > polefieldthresholds[++ind]);],
    over the thresholds that follow the current one: the first index
    whose threshold is not below [m], or [None] when the scan leaves the
    array. *)
Fixpoint scan (rest : list Q) (m : Q) (ind : nat) : option nat :=
  match rest with
  | [] => None
  | t :: rest' => if Qgt_bool m t then scan rest' m (S ind) else Some ind
  end.

(** How a run stands: the bin loop is over, the fuel ran out, or the scan
    of line 258 left the threshold array. *)
Inductive outcome : Type :=
| Finished (s : state)
| OutOfFuel (s : state)
| PastThresholds (s : state).

Definition state_of (o : outcome) : state :=
  match o with Finished s | OutOfFuel s | PastThresholds s => s end.

(** The six neighbour checks of lines 264-269. *)
Definition expand (g : globals) (i : nat) (qe : QUEUEENTRY) (s : state) : state :=
  let s := Check g i qe (m_bsz g) 0 0 1 s in
  let s := Check g i qe (- m_bsz g) 0 0 (-1) s in
  let s := Check g i qe (m_bsy g) 0 1 0 s in
  let s := Check g i qe (- m_bsy g) 0 (-1) 0 s in
  let s := Check g i qe (m_bsx g) 1 0 0 s in
  Check g i qe (- m_bsx g) (-1) 0 0 s.

(** The body of the [while] loop (lines 255-271) for a popped record;
    [None] when the scan leaves the threshold array. *)
Definition process (g : globals) (ths : list Q) (i : nat) (qe : QUEUEENTRY)
    (s : state) : option state :=
  let s := log (Rd Bmag (qe_p qe)) s in
  if Qgt_bool (mag s (qe_p qe)) (nth i ths 0) then
    match scan (drop (S i) ths) (mag s (qe_p qe)) (S i) with
    | Some ind => Some (set_queue ind (snd (Push junk_entry (queues s ind) qe)) s)
    | None => None
    end
  else Some (expand g i qe s).

(** The [while] loop of line 253 on bin [i]. *)
Fixpoint drain (fuel : nat) (g : globals) (ths : list Q) (i : nat)
    (s : state) : outcome :=
  match fuel with
  | O => OutOfFuel s
  | S fuel' =>
      if negb (errcode s =? 0)%Z then Finished s
      else match Pop junk_entry (queues s i) with
           | None => Finished s
           | Some (qe, q) =>
               let s1 := set_queue i q s in
               match process g ths i qe s1 with
               | Some s2 => drain fuel' g ths i s2
               | None => PastThresholds (log (Rd Bmag (qe_p qe)) s1)
               end
           end
  end.

(** The [for] loop of lines 250-276 over the [n] bins from [i] on. *)
Fixpoint bins (fuel : nat) (g : globals) (ths : list Q) (n : nat) (i : nat)
    (s : state) : outcome :=
  match n with
  | O => Finished s
  | S n' =>
      match drain fuel g ths i s with
      | Finished s1 =>
          let s2 := set_queue i (TerminateQueue (queues s1 i)) s1 in
          if negb (errcode s2 =? 0)%Z then Finished s2
          else bins fuel g ths n' (S i) s2
      | o => o
      end
  end.

(** [unwrap] (lines 186-279). *)
Definition unwrap (fuel : nat) (g : globals) (seedx seedy seedz UNWRAPBINS : Z)
    (s : state) : outcome :=
  let '(ths, s) := unwrap_init g seedx seedy seedz UNWRAPBINS s in
  bins fuel g ths (length ths) 0 s.

(** The loop of lines 308-309. *)
Definition negate_mag (g : globals) (s : state) : state :=
  foldl (fun s i => wr_mag i (- maginput s i) (log (Rd Bmaginput i) s)) s
        (seqZ 0 (sze g)).

(** The seed of lines 291-293 on one axis. *)
Definition default_seed (d : Z) : Z :=
  Qtrunc (inject_Z (Qround_away (inject_Z d / 2)) - 1).

Definition main_globals (d0 d1 d2 : Z) : globals :=
  mkGlobals d0 d1 d2 (d0 * d1 * d2) 1 d0 (d0 * d1).

(** The test of line 301; the comparisons with the unsigned [dims] are
    preceded by the tests [seed < 0], so they compare as integers. *)
Definition seed_outside (d0 d1 d2 seedx seedy seedz : Z) : bool :=
  ((seedx <? 0) || (seedx >=? d0) || (seedy <? 0) || (seedy >=? d1)
   || (seedz <? 0) || (seedz >=? d2))%Z.

(** [robustUnwrapMain] (lines 282-320).  The caller's [phaseIn], [magIn]
    and [output] are the fields [phase], [maginput] and [unwrapped] of
    the state it is started in; [mag] there is the content of the block
    [new float[sze]] returns, [flag] that of [new bool[sze]]. *)
Definition robustUnwrapMain (fuel : nat) (d0 d1 d2 : Z) (numunwrapbins : Z)
    (s : state) : outcome :=
  let seedx := default_seed d0 in
  let seedy := default_seed d1 in
  let seedz := default_seed d2 in
  let g := main_globals d0 d1 d2 in
  let s := if seed_outside d0 d1 d2 seedx seedy seedz
           then GERROR "The seed specified was outside the matrix bounds." s
           else s in
  let s := negate_mag g s in
  unwrap fuel g seedx seedy seedz numunwrapbins s.

(** The state [robustUnwrapMain] hands to [unwrap] (lines 291-315). *)
Definition prepared (d0 d1 d2 : Z) (s : state) : state :=
  negate_mag (main_globals d0 d1 d2)
    (if seed_outside d0 d1 d2 (default_seed d0) (default_seed d1) (default_seed d2)
     then GERROR "The seed specified was outside the matrix bounds." s
     else s).

(** ** The run as a transition system

    The bin loop is also described by single transitions between control
    points, so that invariants are proved one transition at a time.  The
    relation allows the six checks of an expansion in any order and any
    number, which only adds configurations. *)

(** The six calls of lines 264-269: flat offset and coordinate offsets. *)
Definition six (g : globals) : list (Z * Z * Z * Z) :=
  [ (m_bsz g, 0, 0, 1); (- m_bsz g, 0, 0, -1);
    (m_bsy g, 0, 1, 0); (- m_bsy g, 0, -1, 0);
    (m_bsx g, 1, 0, 0); (- m_bsx g, -1, 0, 0) ]%Z.

Definition Check_at (g : globals) (i : nat) (qe : QUEUEENTRY)
    (o : Z * Z * Z * Z) (s : state) : state :=
  let '(offp, offx, offy, offz) := o in Check g i qe offp offx offy offz s.

(** Control points: at the head of the [while] loop of bin [i]; inside
    the expansion of the record [qe] popped from bin [i]; stopped because
    the scan of line 258 left the threshold array. *)
Inductive pc : Type :=
| Loop (i : nat)
| Expanding (i : nat) (qe : QUEUEENTRY)
| Halt.

Inductive step (g : globals) (ths : list Q) : pc * state -> pc * state -> Prop :=
| step_defer i s qe q j :
    (i < length ths)%nat -> errcode s = 0%Z ->
    Pop junk_entry (queues s i) = Some (qe, q) ->
    let s1 := log (Rd Bmag (qe_p qe)) (set_queue i q s) in
    Qgt_bool (mag s1 (qe_p qe)) (nth i ths 0) = true ->
    scan (drop (S i) ths) (mag s1 (qe_p qe)) (S i) = Some j ->
    step g ths (Loop i, s)
         (Loop i, set_queue j (snd (Push junk_entry (queues s1 j) qe)) s1)
| step_stuck i s qe q :
    (i < length ths)%nat -> errcode s = 0%Z ->
    Pop junk_entry (queues s i) = Some (qe, q) ->
    let s1 := log (Rd Bmag (qe_p qe)) (set_queue i q s) in
    Qgt_bool (mag s1 (qe_p qe)) (nth i ths 0) = true ->
    scan (drop (S i) ths) (mag s1 (qe_p qe)) (S i) = None ->
    step g ths (Loop i, s) (Halt, s1)
| step_accept i s qe q :
    (i < length ths)%nat -> errcode s = 0%Z ->
    Pop junk_entry (queues s i) = Some (qe, q) ->
    let s1 := log (Rd Bmag (qe_p qe)) (set_queue i q s) in
    Qgt_bool (mag s1 (qe_p qe)) (nth i ths 0) = false ->
    step g ths (Loop i, s) (Expanding i qe, s1)
| step_check i qe s o :
    In o (six g) ->
    step g ths (Expanding i qe, s) (Expanding i qe, Check_at g i qe o s)
| step_done i qe s :
    step g ths (Expanding i qe, s) (Loop i, s)
| step_next i s :
    (i < length ths)%nat ->
    errcode s <> 0%Z \/ Pop junk_entry (queues s i) = None ->
    step g ths (Loop i, s)
         (Loop (S i), set_queue i (TerminateQueue (queues s i)) s).

(** ** Vocabulary of the properties *)

(** The driver's globals for a grid with positive dimensions. *)
Definition wf_globals (g : globals) : Prop :=
  (0 < dim0 g /\ 0 < dim1 g /\ 0 < dim2 g /\
   sze g = dim0 g * dim1 g * dim2 g /\
   m_bsx g = 1 /\ m_bsy g = dim0 g /\ m_bsz g = dim0 g * dim1 g)%Z.

Definition in_grid (g : globals) (x y z : Z) : Prop :=
  (0 <= x < dim0 g /\ 0 <= y < dim1 g /\ 0 <= z < dim2 g)%Z.

(** Flat index of a voxel (line 210). *)
Definition flat (g : globals) (x y z : Z) : Z :=
  (x + dim0 g * (y + dim1 g * z))%Z.

(** A record whose coordinates lie in the grid and whose flat index is
    the one of its coordinates. *)
Definition entry_geom (g : globals) (qe : QUEUEENTRY) : Prop :=
  in_grid g (qe_x qe) (qe_y qe) (qe_z qe) /\
  qe_p qe = flat g (qe_x qe) (qe_y qe) (qe_z qe).

Definition in_buffer (g : globals) (i : Z) : Prop := (0 <= i < sze g)%Z.

Definition index_of (a : access) : Z :=
  match a with Rd _ i | Wr _ i => i end.

(** The state a check leaves when it reaches a voxel for the first time
    (lines 166-179): the value is stored, the flag set and the record
    pushed on the bin being drained. *)
Definition visit (g : globals) (i : nat) (qe : QUEUEENTRY)
    (o : Z * Z * Z * Z) (s : state) : state :=
  let '(offp, offx, offy, offz) := o in
  let np := (qe_p qe + offp)%Z in
  let nv := unwrap_value (phase s np) (qe_v qe) in
  let nqe := mkQE (qe_x qe + offx) (qe_y qe + offy) (qe_z qe + offz) np nv in
  let s1 := wr_flag np true
              (wr_unwrapped np nv (log (Rd Bphase np) (log (Rd Bflag np) s))) in
  set_queue i (snd (Push junk_entry (queues s1 i) nqe)) s1.

(** A waiting record is sound: its voxel lies in the grid and is marked
    visited. *)
Definition entry_ok (g : globals) (s : state) (qe : QUEUEENTRY) : Prop :=
  entry_geom g qe /\ flag s (qe_p qe) = true.

(** The invariant of the bin loop over [N] bins: no error is pending, the
    queues are well formed and hold sound records, and so is the record
    being expanded. *)
Definition Inv (g : globals) (N : nat) (c : pc * state) : Prop :=
  errcode (snd c) = 0%Z /\
  (forall k, (k < N)%nat -> wf (queues (snd c) k)) /\
  (forall k, (k < N)%nat -> Forall (entry_ok g (snd c)) (contents (queues (snd c) k))) /\
  match fst c with
  | Loop i => True
  | Expanding i qe => (i < N)%nat /\ entry_ok g (snd c) qe
  | Halt => True
  end.




(** Two states with the same memory: they differ at most in the queues
    and in the trace. *)
Definition same_mem (s s' : state) : Prop :=
  errcode s' = errcode s /\ gerror s' = gerror s /\ phase s' = phase s /\
  maginput s' = maginput s /\ mag s' = mag s /\
  unwrapped s' = unwrapped s /\ flag s' = flag s.

(** What one transition does to the memory and the trace: nothing; a read
    of the risk of the record popped; a read of the flag of a neighbour
    already visited; the visit of a new neighbour. *)
Inductive effect (g : globals) : pc * state -> state -> Prop :=
| eff_queue c s' :
    same_mem (snd c) s' -> trace s' = trace (snd c) -> effect g c s'
| eff_pop i s qe q s' :
    Pop junk_entry (queues s i) = Some (qe, q) ->
    same_mem s s' -> trace s' = Rd Bmag (qe_p qe) :: trace s ->
    effect g (Loop i, s) s'
| eff_seen i qe s offp offx offy offz :
    In (offp, offx, offy, offz) (six g) ->
    in_grid g (qe_x qe + offx) (qe_y qe + offy) (qe_z qe + offz) ->
    flag s (qe_p qe + offp) = true ->
    effect g (Expanding i qe, s) (log (Rd Bflag (qe_p qe + offp)) s)
| eff_visit i qe s offp offx offy offz :
    In (offp, offx, offy, offz) (six g) ->
    in_grid g (qe_x qe + offx) (qe_y qe + offy) (qe_z qe + offz) ->
    flag s (qe_p qe + offp) = false ->
    effect g (Expanding i qe, s) (visit g i qe (offp, offx, offy, offz) s).

(** The accesses that do not write through the caller's phase or
    magnitude pointer: every read, and the writes through the pointers
    to the private risk buffer, to the flags and to the output.  The
    subscript is not looked at: a write through [unwrapped] with a
    subscript outside the grid counts, although it leaves the output
    buffer; whether the subscript lies in the buffer is [in_buffer]. *)
Definition spares_inputs (a : access) : Prop :=
  match a with
  | Wr Bphase _ | Wr Bmaginput _ => False
  | _ => True
  end.

(** The accesses made between two states, as an extension of the trace:
    all of them satisfy [ok]. *)
Definition extends (ok : access -> Prop) (s0 s1 : state) : Prop :=
  exists new, trace s1 = new ++ trace s0 /\ Forall ok new.

(** [a] and [b] differ by a whole number of turns [2 PI]. *)
Definition turns_apart (a b : Q) : Prop :=
  exists k : Z, a - b == 2 * PI * inject_Z k.

(** Counting accesses in a trace. *)
Definition buffer_eqb (a b : buffer) : bool :=
  match a, b with
  | Bphase, Bphase | Bmaginput, Bmaginput | Bmag, Bmag
  | Bunwrapped, Bunwrapped | Bflag, Bflag => true
  | _, _ => false
  end.

Definition access_eqb (a b : access) : bool :=
  match a, b with
  | Rd x i, Rd y j | Wr x i, Wr y j => buffer_eqb x y && (i =? j)%Z
  | _, _ => false
  end.

Definition occurrences (a : access) (tr : list access) : nat :=
  length (filter (fun b => access_eqb a b = true) tr).

Definition finished (o : outcome) : bool :=
  match o with Finished _ => true | _ => false end.

(** A start state for concrete runs: the caller's phase, magnitude and
    output, nothing logged, and zeroes in the blocks [new] returns. *)
Definition start (phaseIn magIn output : Z -> Q) : state :=
  mkState 0 [] phaseIn magIn (fun _ => 0) output (fun _ => false)
          (fun _ => InitQueue 0) [].

(** A buffer given by the list of its elements (zero beyond). *)
Definition buffer_of (l : list Q) : Z -> Q :=
  fun i => if (i <? 0)%Z then 0 else nth (Z.to_nat i) l 0.

(** The bin a deferred record goes to, as the code computes it: the
    first index after [i] whose threshold is at least the risk [r]. *)
Definition first_sufficient (ths : list Q) (r : Q) (i j : nat) : Prop :=
  (i < j < length ths)%nat /\ r <= nth j ths 0 /\
  forall k, (i < k < j)%nat -> nth k ths 0 < r.

(** The same bin as the specification words it: the first index after
    [i] whose threshold exceeds the risk [r]. *)
Definition first_exceeding (ths : list Q) (r : Q) (i j : nat) : Prop :=
  (i < j < length ths)%nat /\ r < nth j ths 0 /\
  forall k, (i < k < j)%nat -> ~ r < nth k ths 0.



(** The bin being drained at a control point. *)
Definition bin_of (p : pc) : option nat :=
  match p with
  | Loop i | Expanding i _ => Some i
  | Halt => None
  end.

(** The configurations a call of [unwrap] can be in. *)
Definition reachable (g : globals) (seedx seedy seedz B : Z) (s : state)
    (c : pc * state) : Prop :=
  rtc (step g (fst (unwrap_init g seedx seedy seedz B s)))
      (Loop 0, snd (unwrap_init g seedx seedy seedz B s)) c.

(** The records waiting in the bins after the one being drained are all
    within the threshold of their bin. *)
Definition later_bins_fit (ths : list Q) (c : pc * state) : Prop :=
  forall i k, bin_of (fst c) = Some i -> (i < k < length ths)%nat ->
    Forall (fun qe => mag (snd c) (qe_p qe) <= nth k ths 0)
           (contents (queues (snd c) k)).

(** A rational that is a binary32 number ([float]): [m * 2 ^ (k - 149)]
    with a significand [m] below [2 ^ 24] in absolute value. *)
Definition binary32 (q : Q) : Prop :=
  exists m k : Z, (Z.abs m < 2 ^ 24)%Z /\ (0 <= k <= 253)%Z /\
                  q * inject_Z (2 ^ 149) == inject_Z (m * 2 ^ k).

(** The integers [m * 2 ^ k] of the binary32 numbers scaled by [2 ^ 149]. *)
Definition float_int (X : Z) : Prop :=
  exists m k : Z, (Z.abs m < 2 ^ 24 /\ 0 <= k <= 253 /\ X = m * 2 ^ k)%Z.

(** A rational above pi (3.14159265358979323846...). *)
Definition PI_above : Q := 3.1415926535897932385.

(** Two voxels of the grid that are 6-connected neighbours, by flat
    index. *)
Definition neighbours (g : globals) (p p' : Z) : Prop :=
  exists x y z offp offx offy offz,
    in_grid g x y z /\ In (offp, offx, offy, offz) (six g) /\
    in_grid g (x + offx) (y + offy) (z + offz) /\
    p = flat g x y z /\ p' = flat g (x + offx) (y + offy) (z + offz).

(** No jump between neighbours exceeds pi. *)
Definition continuous (g : globals) (ph : Z -> Q) : Prop :=
  forall p p', neighbours g p p' -> Qabs (ph p' - ph p) <= PI_above.

(** Every waiting record carries the wrapped phase of its voxel, and so
    does the record being expanded. *)
Definition carries_phase (ph : Z -> Q) (N : nat) (c : pc * state) : Prop :=
  (forall k, (k < N)%nat ->
     Forall (fun qe => qe_v qe = ph (qe_p qe)) (contents (queues (snd c) k))) /\
  match fst c with
  | Expanding _ qe => qe_v qe = ph (qe_p qe)
  | _ => True
  end.

(** The measure of the bin loop.  [unvisited]: the voxels of the grid
    whose flag is clear.  [waiting]: the records in the queues of the [N]
    bins, one in bin [k] counted [N - k] times.  A deferral moves a
    record to a later bin; an expansion removes a record and adds one per
    voxel it visits. *)
Fixpoint count_false (f : Z -> bool) (l : list Z) : Z :=
  match l with
  | [] => 0
  | x :: l' => (if f x then 0 else 1) + count_false f l'
  end%Z.

Definition unvisited (g : globals) (s : state) : Z :=
  count_false (flag s) (seqZ 0 (sze g)).

Fixpoint total (h : nat -> Z) (n : nat) : Z :=
  match n with
  | O => 0
  | S n' => total h n' + h n'
  end%Z.

Definition waiting (N : nat) (s : state) : Z :=
  total (fun k => (Z.of_nat N - Z.of_nat k)
                  * Z.of_nat (length (contents (queues s k))))%Z N.

Definition potential (g : globals) (N : nat) (s : state) : Z :=
  ((Z.of_nat N + 1) * unvisited g s + waiting N s)%Z.

(** The indices written to buffer [b], in the order of the trace. *)
Fixpoint writes (b : buffer) (tr : list access) : list Z :=
  match tr with
  | [] => []
  | Wr b' i :: tr' => if buffer_eqb b b' then i :: writes b tr' else writes b tr'
  | Rd _ _ :: tr' => writes b tr'
  end.

(** An access inside the buffers, or one of the two accesses line 227
    makes with the literal subscript 85. *)
Definition in_buffer_or_line_227 (g : globals) (a : access) : Prop :=
  in_buffer g (index_of a) \/ a = Rd Bphase 85 \/ a = Wr Bunwrapped 85.

(** ** Vocabulary of the further properties *)

(** A queue whose block was given back and that holds no record. *)
Definition freed (q : queue (A := QUEUEENTRY)) : Prop :=
  m_q q = None /\ m_bot q = m_top q.

(** The message of line 302. *)
Definition seed_message : string :=
  "The seed specified was outside the matrix bounds.".

(** Every waiting record carries the output value of its voxel, and so
    does the record being expanded. *)
Definition carries_output (N : nat) (c : pc * state) : Prop :=
  (forall k, (k < N)%nat ->
     Forall (fun qe => qe_v qe = unwrapped (snd c) (qe_p qe))
            (contents (queues (snd c) k))) /\
  match fst c with
  | Expanding _ qe => qe_v qe = unwrapped (snd c) (qe_p qe)
  | _ => True
  end.

(** A voxel with a visited 6-connected neighbour whose output value is
    within [PI] of its own. *)
Definition near_a_neighbour (g : globals) (s : state) (p : Z) : Prop :=
  exists p', neighbours g p' p /\ flag s p' = true /\
             Qabs (unwrapped s p - unwrapped s p') <= PI.

(** The output values of the visited voxels of the grid are at most [M]
    in absolute value, plus [PI] for every voxel visited after the
    first. *)
Definition output_bounded (g : globals) (M : Q) (s : state) : Prop :=
  forall p, in_buffer g p -> flag s p = true ->
    Qabs (unwrapped s p) <= M + PI * inject_Z (sze g - unvisited g s - 1).

(** A voxel all of whose 6-connected neighbours are visited. *)
Definition expanded (g : globals) (s : state) (p : Z) : Prop :=
  forall p', neighbours g p p' -> flag s p' = true.

(** A voxel with a record waiting in one of the bins [i .. N-1]. *)
Definition awaited (N i : nat) (s : state) (p : Z) : Prop :=
  exists k qe, (i <= k < N)%nat /\ In qe (contents (queues s k)) /\ qe_p qe = p.

(** Every visited voxel has a record waiting or has been expanded. *)
Definition frontier (g : globals) (N i : nat) (s : state) : Prop :=
  forall p, in_buffer g p -> flag s p = true ->
            awaited N i s p \/ expanded g s p.

(** From [s] to [s'] flags were only set, records only added, and every
    voxel newly flagged has a record in bin [i]. *)
Definition grows (i : nat) (s s' : state) : Prop :=
  (forall p, flag s p = true -> flag s' p = true) /\
  (forall k qe, In qe (contents (queues s k)) -> In qe (contents (queues s' k))) /\
  (forall p, flag s p = false -> flag s' p = true ->
             exists qe, In qe (contents (queues s' i)) /\ qe_p qe = p).

(** Two states that agree on what a run over [N] bins reads: the error
    code, the wrapped phase, the risk and the flags of the grid, the
    output of the visited voxels, and the queues of the bins. *)
Definition agree (g : globals) (N : nat) (s t : state) : Prop :=
  errcode s = errcode t /\
  (forall p, in_buffer g p ->
     phase s p = phase t p /\ mag s p = mag t p /\ flag s p = flag t p /\
     (flag s p = true -> unwrapped s p = unwrapped t p)) /\
  (forall k, (k < N)%nat -> queues s k = queues t k).

End Unwrap.

(** * Properties *)

(** ** The queue is a FIFO *)

Section QueueFacts.
Import Queue.
Context {A : Type} (junk : A).
Implicit Types (q : queue (A := A)) (x : A) (l : list A).

Lemma wf_InitQueue chunk : 0 < chunk -> wf (InitQueue (A := A) chunk).
Proof. unfold wf, InitQueue, DEFAULTBLOCK; simpl; lia. Qed.

Lemma slot_mul chunk a : 0 < chunk -> slot chunk (a * chunk) = Z.to_nat a.
Proof. intros Hc. unfold slot. rewrite Z.div_mul by lia. reflexivity. Qed.

(** On a queue whose record size is positive the byte arithmetic of
    [Push] is the slot arithmetic of [Push_slots]. *)
Lemma Push_bytes q x :
  0 < m_chunk q -> m_sizeb q = m_size q * m_chunk q ->
  Push junk q x = Push_slots junk q x.
Proof.
  intros Hc Hsb. unfold Push, Push_slots, store, new_block, memcpy.
  rewrite Hsb, !slot_mul by exact Hc.
  replace (0 <? (m_size q - m_bot q) * m_chunk q) with (0 <? m_size q - m_bot q)
    by (destruct (Z.ltb_spec 0 (m_size q - m_bot q));
        symmetry; [apply Z.ltb_lt|apply Z.ltb_ge]; nia).
  replace (slot (m_chunk q) 0) with 0%nat by (unfold slot; rewrite Z.div_0_l by lia; reflexivity).
  rewrite !Z.add_0_l, !slot_mul by exact Hc. cbn [take drop app].
  destruct ((if m_top q + 1 =? m_size q then 0 else m_top q + 1) =? m_bot q);
    [|reflexivity].
  set (top := if m_top q + 1 =? m_size q then 0 else m_top q + 1).
  replace ((m_size q - m_bot q) * m_chunk q + top * m_chunk q)
    with ((m_size q - m_bot q + top) * m_chunk q) by ring.
  rewrite !slot_mul by exact Hc. reflexivity.
Qed.

Lemma take_S_insert l (t : nat) x :
  (t < length l)%nat -> take (S t) (<[t:=x]> l) = take t l ++ [x].
Proof.
  intros Ht. rewrite (take_S_r _ _ x).
  - rewrite take_insert_ge by lia. reflexivity.
  - apply list_lookup_insert_eq, Ht.
Qed.

Lemma take_drop_insert l (b t : nat) x :
  (b <= t < length l)%nat ->
  take (S t - b) (drop b (<[t:=x]> l)) = take (t - b) (drop b l) ++ [x].
Proof.
  intros Hbt. rewrite drop_insert_ge by lia.
  replace (S t - b)%nat with (S (t - b)) by lia.
  apply take_S_insert. rewrite length_drop. lia.
Qed.

Lemma drop_nth l (b : nat) :
  (b < length l)%nat -> drop b l = nth b l junk :: drop (S b) l.
Proof.
  intros Hb. destruct (lookup_lt_is_Some_2 l b Hb) as [y Hy].
  rewrite (nth_lookup_Some _ _ _ _ Hy). apply drop_S, Hy.
Qed.

Lemma length_block q : wf q -> length (block junk q) = Z.to_nat (m_size q).
Proof.
  intros (_ & _ & _ & _ & Hq). unfold block. destruct (m_q q); [exact Hq|].
  apply length_replicate.
Qed.

Lemma contents_block q :
  wf q ->
  contents q =
    if m_bot q <=? m_top q
    then take (Z.to_nat (m_top q - m_bot q)) (drop (Z.to_nat (m_bot q)) (block junk q))
    else drop (Z.to_nat (m_bot q)) (block junk q)
           ++ take (Z.to_nat (m_top q)) (block junk q).
Proof.
  intros (_ & _ & Hb & Ht & Hq). unfold contents, block.
  destruct (m_q q); [reflexivity|]. rewrite Hq, Z.leb_refl, Z.sub_diag.
  reflexivity.
Qed.

Lemma Push_spec q x :
  wf q ->
  fst (Push junk q x) = 0 /\ wf (snd (Push junk q x)) /\
  contents (snd (Push junk q x)) = contents q ++ [x].
Proof.
  intros Hwf. pose proof (length_block q Hwf) as Hlen.
  rewrite (contents_block q Hwf).
  destruct Hwf as (Hc & Hsb & Hb & Ht & Hq).
  rewrite (Push_bytes q x Hc Hsb). unfold Push_slots. fold (block junk q).
  set (buf := block junk q) in *.
  assert (Hlen' : length (<[Z.to_nat (m_top q) := x]> buf) = Z.to_nat (m_size q))
    by (rewrite length_insert; exact Hlen).
  destruct (Z.eqb_spec (m_top q + 1) (m_size q)) as [Hwrap|Hwrap].
  - (* the write index wraps to 0 *)
    assert (Hle : (m_bot q <=? m_top q) = true) by (apply Z.leb_le; lia).
    rewrite Hle.
    destruct (Z.eqb_spec 0 (m_bot q)) as [Hfull|Hfull].
    + (* full: grow *)
      simpl. split; [reflexivity|]. split.
      * unfold wf, BLOCKINCREMENT; simpl. split; [lia|]. split; [lia|].
        split; [lia|]. split; [lia|].
        assert (H0 : (0 <? m_size q - m_bot q) = true) by (apply Z.ltb_lt; lia).
        rewrite H0.
        rewrite !length_app, length_take, !length_drop, !length_replicate, Hlen'.
        lia.
      * unfold contents; simpl.
        assert (H0 : (0 <? m_size q - m_bot q) = true) by (apply Z.ltb_lt; lia).
        rewrite H0. assert (H1 : (0 <=? m_size q) = true) by (apply Z.leb_le; lia).
        rewrite H1. simpl. rewrite <- Hfull, !Z.sub_0_r.
        change (Z.to_nat 0) with 0%nat. rewrite !drop_0.
        rewrite (take_ge (<[_:=_]> buf)) by lia.
        rewrite take_app_length' by lia.
        replace (Z.to_nat (m_size q)) with (S (Z.to_nat (m_top q))) in Hlen |- * by lia.
        rewrite <- (take_S_insert buf) by lia.
        rewrite take_ge; [reflexivity|]. rewrite length_insert. lia.
    + (* not full *)
      simpl. split; [reflexivity|]. split.
      * unfold wf; simpl. split; [lia|]. split; [lia|].
        split; [lia|]. split; [lia|]. exact Hlen'.
      * unfold contents; simpl.
        assert (H0 : (m_bot q <=? 0) = false) by (apply Z.leb_gt; lia).
        rewrite H0. simpl. rewrite app_nil_r.
        replace (Z.to_nat (m_top q - m_bot q))
          with (Z.to_nat (m_top q) - Z.to_nat (m_bot q))%nat by lia.
        rewrite <- (take_drop_insert buf) by lia.
        rewrite take_ge; [reflexivity|]. rewrite length_drop, length_insert. lia.
  - destruct (Z.eqb_spec (m_top q + 1) (m_bot q)) as [Hfull|Hfull].
    + (* full: grow, with the write index below the read index *)
      assert (Hle : (m_bot q <=? m_top q) = false) by (apply Z.leb_gt; lia).
      rewrite Hle. simpl. split; [reflexivity|]. split.
      * unfold wf, BLOCKINCREMENT; simpl. split; [lia|]. split; [lia|].
        split; [lia|]. split; [lia|].
        assert (H0 : (0 <? m_size q - m_bot q) = true) by (apply Z.ltb_lt; lia).
        rewrite H0.
        assert (H1 : (m_top q + 1 =? 0) = false) by (apply Z.eqb_neq; lia).
        rewrite H1. simpl.
        rewrite !length_app, !length_take, !length_drop, !length_app, !length_take,
          !length_drop, !length_replicate, Hlen'. lia.
      * unfold contents; simpl.
        assert (H0 : (0 <? m_size q - m_bot q) = true) by (apply Z.ltb_lt; lia).
        rewrite H0.
        assert (H1 : (m_top q + 1 =? 0) = false) by (apply Z.eqb_neq; lia).
        rewrite H1. assert (H2 : (0 <=? m_size q) = true) by (apply Z.leb_le; lia).
        rewrite H2. simpl. rewrite !Z.sub_0_r.
        change (Z.to_nat 0) with 0%nat. rewrite !drop_0.
        set (buf' := <[Z.to_nat (m_top q) := x]> buf) in *.
        set (hi := take (Z.to_nat (m_size q - m_bot q)) (drop (Z.to_nat (m_bot q)) buf')).
        assert (Hhi : hi = drop (Z.to_nat (m_bot q)) buf).
        { unfold hi. rewrite take_ge by (rewrite length_drop; lia).
          unfold buf'. apply drop_insert_lt. lia. }
        assert (Hhilen : length hi = Z.to_nat (m_size q - m_bot q)).
        { rewrite Hhi, length_drop. lia. }
        rewrite (take_app_length' hi) by lia.
        rewrite take_app_ge by lia. rewrite Hhilen.
        rewrite take_app_le by (rewrite length_take; lia).
        rewrite take_ge by (rewrite length_take; lia).
        rewrite Hhi, <- app_assoc. f_equal. unfold buf'.
        replace (Z.to_nat (m_top q + 1)) with (S (Z.to_nat (m_top q))) by lia.
        rewrite take_S_insert by lia. reflexivity.
    + simpl. split; [reflexivity|]. split.
      * unfold wf; simpl. split; [lia|]. split; [lia|].
        split; [lia|]. split; [lia|]. exact Hlen'.
      * unfold contents; simpl.
        destruct (Z.leb_spec (m_bot q) (m_top q)) as [Hle|Hgt].
        -- assert (H0 : (m_bot q <=? m_top q + 1) = true) by (apply Z.leb_le; lia).
           rewrite H0.
           replace (Z.to_nat (m_top q + 1 - m_bot q))
             with (S (Z.to_nat (m_top q)) - Z.to_nat (m_bot q))%nat by lia.
           replace (Z.to_nat (m_top q - m_bot q))
             with (Z.to_nat (m_top q) - Z.to_nat (m_bot q))%nat by lia.
           apply take_drop_insert. lia.
        -- assert (H0 : (m_bot q <=? m_top q + 1) = false) by (apply Z.leb_gt; lia).
           rewrite H0. rewrite drop_insert_lt by lia.
           replace (Z.to_nat (m_top q + 1)) with (S (Z.to_nat (m_top q))) by lia.
           rewrite take_S_insert by lia. rewrite app_assoc. reflexivity.
Qed.

Lemma Pop_spec q :
  wf q ->
  match contents q with
  | [] => Pop junk q = None
  | x :: l => exists q', Pop junk q = Some (x, q') /\ wf q' /\ contents q' = l
                         /\ m_size q' = m_size q
  end.
Proof.
  intros (Hc & Hsb & Hb & Ht & Hq). unfold contents, Pop, load.
  rewrite slot_mul by exact Hc.
  destruct (Z.eqb_spec (m_bot q) (m_top q)) as [Heq|Hne].
  - rewrite Heq, Z.leb_refl, Z.sub_diag. reflexivity.
  - destruct (m_q q) as [buf|] eqn:Hmq; [|contradiction].
    assert (Hnth : drop (Z.to_nat (m_bot q)) buf
                   = nth (Z.to_nat (m_bot q)) buf junk
                       :: drop (S (Z.to_nat (m_bot q))) buf)
      by (apply drop_nth; lia).
    destruct (Z.leb_spec (m_bot q) (m_top q)) as [Hle|Hgt].
    + replace (Z.to_nat (m_top q - m_bot q))
        with (S (Z.to_nat (m_top q - m_bot q - 1))) by lia.
      rewrite Hnth. simpl. eexists. split; [reflexivity|].
      assert (Hw : (m_bot q + 1 =? m_size q) = false) by (apply Z.eqb_neq; lia).
      rewrite Hw. unfold wf, contents; simpl.
      split; [split; [lia|split; [lia|split; [lia|split; [lia|exact Hq]]]]|]. split; [|reflexivity].
      assert (H0 : (m_bot q + 1 <=? m_top q) = true) by (apply Z.leb_le; lia).
      rewrite H0. f_equal; [lia|f_equal; lia].
    + rewrite Hnth. simpl. eexists. split; [reflexivity|].
      destruct (Z.eqb_spec (m_bot q + 1) (m_size q)) as [Hw|Hw];
        unfold wf, contents; simpl;
        (split; [split; [lia|split; [lia|split; [lia|split; [lia|exact Hq]]]]|]); (split; [|reflexivity]).
      * assert (H0 : (0 <=? m_top q) = true) by (apply Z.leb_le; lia).
        rewrite H0, Z.sub_0_r. change (Z.to_nat 0) with 0%nat. rewrite drop_0.
        rewrite drop_ge by lia. reflexivity.
      * assert (H0 : (m_bot q + 1 <=? m_top q) = false) by (apply Z.leb_gt; lia).
        rewrite H0. do 2 f_equal. lia.
Qed.

(** Replaying any sequence of operations on a well-formed queue gives
    the results of the FIFO list holding the same records. *)
Lemma run_ops_fifo (ops : list (op (A := A))) q :
  wf q -> fst (run_ops junk ops q) = fst (fifo_ops ops (contents q)).
Proof.
  revert q. induction ops as [|[x|] ops IH]; intros q Hwf; simpl.
  - reflexivity.
  - destruct (Push_spec q x Hwf) as (_ & Hwf' & Hc). rewrite <- Hc.
    apply IH, Hwf'.
  - pose proof (Pop_spec q Hwf) as HP. destruct (contents q) as [|y l] eqn:Hc.
    + rewrite HP. specialize (IH q Hwf). rewrite Hc in IH.
      destruct (run_ops junk ops q), (fifo_ops ops []). simpl in *. congruence.
    + destruct HP as (q' & -> & Hwf' & Hc' & _). specialize (IH q' Hwf').
      rewrite Hc' in IH.
      destruct (run_ops junk ops q'), (fifo_ops ops l). simpl in *. congruence.
Qed.

End QueueFacts.

(** C8.  The record queue is a FIFO under every interleaving of pushes
    and pops: replayed from [InitQueue] for records of a positive size,
    the pops return what a FIFO list returns.  Pushing 150 records of 4
    bytes into a fresh queue (capacity 100, increment 500) grows it
    exactly once, to capacity 600, and 150 pops then return the records
    in insertion order. *)
Theorem queue_fifo_and_growth :
  (forall (A : Type) (junk : A) (chunk : Z) (ops : list (Queue.op (A := A))),
      0 < chunk ->
      fst (Queue.run_ops junk ops (Queue.InitQueue chunk))
      = fst (Queue.fifo_ops ops []))
  /\ (forall (A : Type) (junk : A) (rec : nat -> A),
        let recs := map rec (seq 0 150) in
        let q := snd (Queue.run_ops junk (map Queue.OpPush recs) (Queue.InitQueue 4)) in
        Queue.m_size (Queue.InitQueue (A := A) 4) = 100 /\
        Queue.growth_events junk recs (Queue.InitQueue 4) = 1%nat /\
        Queue.m_size q = 600 /\
        fst (Queue.run_ops junk (replicate 150 Queue.OpPop) q) = map Some recs).
Proof.
  split.
  - intros A junk chunk ops Hchunk.
    rewrite (run_ops_fifo junk ops _ (wf_InitQueue chunk Hchunk)). reflexivity.
  - intros A junk rec recs q. subst recs q. vm_compute. repeat split.
Qed.

Lemma queue_fifo_and_growth_witness :
  0 < 4 /\
  fst (Queue.run_ops 0%nat
         [Queue.OpPush 1%nat; Queue.OpPush 2%nat; Queue.OpPop; Queue.OpPush 3%nat;
          Queue.OpPop; Queue.OpPop; Queue.OpPop]
         (Queue.InitQueue 4))
  = [Some 1%nat; Some 2%nat; Some 3%nat; None].
Proof.
  split; [lia|].
  rewrite (proj1 queue_fifo_and_growth nat 0%nat 4 _ ltac:(lia)). reflexivity.
Defined.

(** ** The flood fill: control structure *)

Section UnwrapControl.
Import Queue Unwrap.
Variable g : globals.
Variable ths : list Q.

Lemma rtc_app {C : Type} (R : relation C) (x y z : C) :
  rtc R x y -> rtc R y z -> rtc R x z.
Proof. intros Hxy Hyz. etransitivity; eassumption. Qed.

Lemma Push_rc {A : Type} (junk : A) (q : queue (A := A)) (x : A) :
  fst (Push junk q x) = 0.
Proof. unfold Push. destruct (_ =? m_bot q); reflexivity. Qed.

(** The three ways a check ends: the neighbour is outside the grid; it
    was visited before; it is visited now. *)
Lemma Check_at_cases (P : state -> Prop) i qe offp offx offy offz s :
  (~ in_grid g (qe_x qe + offx) (qe_y qe + offy) (qe_z qe + offz) -> P s) ->
  (in_grid g (qe_x qe + offx) (qe_y qe + offy) (qe_z qe + offz) ->
   flag s (qe_p qe + offp) = true -> P (log (Rd Bflag (qe_p qe + offp)) s)) ->
  (in_grid g (qe_x qe + offx) (qe_y qe + offy) (qe_z qe + offz) ->
   flag s (qe_p qe + offp) = false -> P (visit g i qe (offp, offx, offy, offz) s)) ->
  P (Check_at g i qe (offp, offx, offy, offz) s).
Proof.
  intros Hout Hseen Hnew. unfold Check_at, Check.
  destruct (Z.ltb_spec (qe_x qe + offx) 0);
    [apply Hout; unfold in_grid; lia|].
  destruct (Z.geb_spec (qe_x qe + offx) (dim0 g));
    [apply Hout; unfold in_grid; lia|]. simpl.
  destruct (Z.ltb_spec (qe_y qe + offy) 0);
    [apply Hout; unfold in_grid; lia|].
  destruct (Z.geb_spec (qe_y qe + offy) (dim1 g));
    [apply Hout; unfold in_grid; lia|]. simpl.
  destruct (Z.ltb_spec (qe_z qe + offz) 0);
    [apply Hout; unfold in_grid; lia|].
  destruct (Z.geb_spec (qe_z qe + offz) (dim2 g));
    [apply Hout; unfold in_grid; lia|]. simpl.
  assert (Hin : in_grid g (qe_x qe + offx) (qe_y qe + offy) (qe_z qe + offz))
    by (unfold in_grid; lia).
  change (flag (log (Rd Bflag (qe_p qe + offp)) s) (qe_p qe + offp))
    with (flag s (qe_p qe + offp)).
  destruct (flag s (qe_p qe + offp)) eqn:Hf;
    [apply Hseen; [assumption|reflexivity]|].
  specialize (Hnew Hin eq_refl). unfold visit in Hnew.
  match goal with
  | |- context [Push ?j ?q ?x] =>
      pose proof (Push_rc j q x) as Hrc; destruct (Push j q x) as [rc q'] eqn:HP
  end.
  simpl in Hrc. subst rc. simpl in *. rewrite HP in Hnew. exact Hnew.
Qed.

Lemma expand_fold i qe s :
  expand g i qe s = foldl (fun s o => Check_at g i qe o s) s (six g).
Proof. unfold expand, six. cbn [foldl Check_at]. reflexivity. Qed.

Lemma checks_reach i qe (os : list (Z * Z * Z * Z)) s :
  (forall o, In o os -> In o (six g)) ->
  rtc (step g ths) (Expanding i qe, s)
      (Expanding i qe, foldl (fun s o => Check_at g i qe o s) s os).
Proof.
  revert s. induction os as [|o os IH]; intros s Hos; simpl.
  - apply rtc_refl.
  - eapply rtc_l.
    + apply (step_check g ths i qe s o). apply Hos. left. reflexivity.
    + apply IH. intros o' Ho'. apply Hos. right. exact Ho'.
Qed.

(** Every state [drain] returns is reached by transitions. *)
Lemma drain_reach fuel i s :
  (i < length ths)%nat ->
  exists c, rtc (step g ths) (Loop i, s) c /\
    snd c = state_of (drain fuel g ths i s) /\
    match drain fuel g ths i s with
    | Finished s' =>
        fst c = Loop i /\
        (errcode s' <> 0%Z \/ Pop junk_entry (queues s' i) = None)
    | OutOfFuel _ => fst c = Loop i
    | PastThresholds _ => fst c = Halt
    end.
Proof.
  intros Hi. revert s. induction fuel as [|fuel IH]; intros s; simpl.
  - exists (Loop i, s). split; [apply rtc_refl|]. split; reflexivity.
  - destruct (Z.eqb_spec (errcode s) 0) as [He|He]; simpl.
    2:{ exists (Loop i, s). split; [apply rtc_refl|]. split; [reflexivity|].
        split; [reflexivity|]. left. exact He. }
    destruct (Pop junk_entry (queues s i)) as [[qe q]|] eqn:HP.
    2:{ exists (Loop i, s). split; [apply rtc_refl|]. split; [reflexivity|].
        split; [reflexivity|]. right. exact HP. }
    unfold process.
    set (s1 := log (Rd Bmag (qe_p qe)) (set_queue i q s)).
    destruct (Qgt_bool (mag s1 (qe_p qe)) (nth i ths 0%Q)) eqn:Hgt.
    + destruct (scan (drop (S i) ths) (mag s1 (qe_p qe)) (S i)) as [j|] eqn:Hscan.
      * destruct (IH (set_queue j (snd (Push junk_entry (queues s1 j) qe)) s1))
          as (c & Hc & Hrest).
        exists c. split; [|exact Hrest].
        eapply rtc_l; [|exact Hc].
        exact (step_defer g ths i s qe q j Hi He HP Hgt Hscan).
      * exists (Halt, s1). split; [|split; reflexivity].
        apply rtc_once. exact (step_stuck g ths i s qe q Hi He HP Hgt Hscan).
    + destruct (IH (expand g i qe s1)) as (c & Hc & Hrest).
      exists c. split; [|exact Hrest].
      eapply rtc_l; [exact (step_accept g ths i s qe q Hi He HP Hgt)|].
      eapply rtc_app; [|eapply rtc_l; [apply step_done|exact Hc]].
      rewrite expand_fold. apply checks_reach. auto.
Qed.

(** Every state [bins] returns is reached by transitions; a run stopped
    by the scan ends at [Halt]. *)
Lemma bins_reach fuel n i s :
  (i + n = length ths)%nat ->
  exists c, rtc (step g ths) (Loop i, s) c /\
            snd c = state_of (bins fuel g ths n i s) /\
            (forall s', bins fuel g ths n i s = PastThresholds s' -> fst c = Halt).
Proof.
  revert i s. induction n as [|n IH]; intros i s Hn; simpl.
  - exists (Loop i, s). split; [apply rtc_refl|]. split; [reflexivity|discriminate].
  - destruct (drain_reach fuel i s ltac:(lia)) as ([p s'] & Hc & Hs & Hend).
    simpl in Hs. destruct (drain fuel g ths i s) as [s1|s1|s1]; simpl in *.
    + destruct Hend as [Hp Hfin]. subst p s'.
      assert (Hnext : step g ths (Loop i, s1)
                (Loop (S i), set_queue i (TerminateQueue (queues s1 i)) s1))
        by (apply step_next; [lia|exact Hfin]).
      destruct (Z.eqb_spec (errcode s1) 0) as [He|He]; simpl.
      * destruct (IH (S i) (set_queue i (TerminateQueue (queues s1 i)) s1)
                     ltac:(lia)) as (c & Hc' & Hs' & Hh').
        exists c. split; [|split; [exact Hs'|exact Hh']].
        eapply rtc_app; [exact Hc|]. eapply rtc_l; [exact Hnext|exact Hc'].
      * exists (Loop (S i), set_queue i (TerminateQueue (queues s1 i)) s1).
        split; [|split; [reflexivity|discriminate]].
        eapply rtc_app; [exact Hc|]. apply rtc_once. exact Hnext.
    + exists (p, s'). split; [exact Hc|]. split; [exact Hs|discriminate].
    + exists (p, s'). split; [exact Hc|]. split; [exact Hs|]. intros _ _. exact Hend.
Qed.

End UnwrapControl.

(** ** The flood fill: the loop invariant *)

Section UnwrapInvariant.
Import Queue Unwrap.
Variable g : globals.
Variable ths : list Q.
Hypothesis Hg : wf_globals g.

Lemma scan_bounds rest m ind j :
  scan rest m ind = Some j -> (ind <= j < ind + length rest)%nat.
Proof.
  revert ind. induction rest as [|t rest IH]; intros ind; simpl; [discriminate|].
  destruct (Qgt_bool m t).
  - intros H. apply IH in H. lia.
  - intros [= <-]. lia.
Qed.

Lemma scan_target i m j :
  scan (drop (S i) ths) m (S i) = Some j -> (i < j < length ths)%nat.
Proof.
  intros H. apply scan_bounds in H. rewrite length_drop in H. lia.
Qed.

Lemma Pop_Some_inv (q q' : queue (A := QUEUEENTRY)) qe :
  wf q -> Pop junk_entry q = Some (qe, q') ->
  contents q = qe :: contents q' /\ wf q'.
Proof.
  intros Hwf HP. pose proof (Pop_spec junk_entry q Hwf) as H.
  destruct (contents q) as [|x l].
  - congruence.
  - destruct H as (q1 & HP1 & Hwf1 & Hc1 & _). rewrite HP in HP1.
    injection HP1 as -> ->. split; [congruence|exact Hwf1].
Qed.

Lemma Pop_None_inv (q : queue (A := QUEUEENTRY)) :
  Pop junk_entry q = None -> m_bot q = m_top q.
Proof.
  unfold Pop. destruct (Z.eqb_spec (m_bot q) (m_top q)); [trivial|discriminate].
Qed.

Lemma wf_TerminateQueue (q : queue (A := QUEUEENTRY)) :
  wf q -> m_bot q = m_top q ->
  wf (TerminateQueue q) /\ contents (TerminateQueue q) = [].
Proof.
  intros (Hc & Hsb & Hb & Ht & _) Heq. split.
  - unfold wf; simpl. auto.
  - unfold contents; simpl. rewrite Heq, Z.leb_refl, Z.sub_diag. reflexivity.
Qed.

(** A neighbour offset keeps the flat index in step with the
    coordinates. *)
Lemma six_flat offp offx offy offz x y z :
  In (offp, offx, offy, offz) (six g) ->
  flat g (x + offx) (y + offy) (z + offz) = flat g x y z + offp.
Proof.
  destruct Hg as (_ & _ & _ & _ & Hx & Hy & Hz). unfold six, flat.
  rewrite Hx, Hy, Hz. simpl.
  intros [H|[H|[H|[H|[H|[H|[]]]]]]]; injection H as <- <- <- <-; ring.
Qed.

Lemma flat_in_buffer x y z : in_grid g x y z -> in_buffer g (flat g x y z).
Proof.
  destruct Hg as (H0 & H1 & H2 & Hs & _). unfold in_grid, in_buffer, flat.
  rewrite Hs. intros (Hx & Hy & Hz). split; [nia|].
  assert (y + dim1 g * z <= dim1 g * dim2 g - 1) by nia. nia.
Qed.

Lemma entry_in_buffer qe : entry_geom g qe -> in_buffer g (qe_p qe).
Proof. intros [Hin ->]. apply flat_in_buffer, Hin. Qed.

Theorem Inv_step c c' :
  Inv g (length ths) c -> step g ths c c' -> Inv g (length ths) c'.
Proof.
  intros (He & Hwf & Hent & Hpc) Hstep.
  destruct Hstep as [i s qe q j Hi He' HP s1 Hgt Hscan
                    |i s qe q Hi He' HP s1 Hgt Hscan
                    |i s qe q Hi He' HP s1 Hgt
                    |i qe s [[[offp offx] offy] offz] Ho
                    |i qe s
                    |i s Hi Hfin]; try subst s1; unfold Inv;
    simpl in He, Hwf, Hent, Hpc; simpl.
  - (* defer *)
    destruct (Pop_Some_inv _ _ _ (Hwf i Hi) HP) as [Hc Hq].
    pose proof (scan_target _ _ _ Hscan) as Hj.
    assert (Hji : (j =? i)%nat = false) by (apply Nat.eqb_neq; lia).
    rewrite Hji.
    destruct (Push_spec junk_entry (queues s j) qe (Hwf j ltac:(lia)))
      as (_ & Hwf' & Hc').
    pose proof (Hent i Hi) as Hei. rewrite Hc in Hei.
    apply Forall_cons in Hei as [Hqe Hei].
    split; [exact He|]. split; [|split; [|exact I]].
    + intros k Hk; simpl. destruct (Nat.eqb_spec k j) as [->|]; [exact Hwf'|].
      destruct (Nat.eqb_spec k i) as [->|]; [exact Hq|]. apply Hwf, Hk.
    + intros k Hk; simpl. destruct (Nat.eqb_spec k j) as [->|].
      * rewrite Hc'. apply Forall_app. split; [apply Hent; lia|].
        apply Forall_singleton. exact Hqe.
      * destruct (Nat.eqb_spec k i) as [->|]; [exact Hei|]. apply Hent, Hk.
  - (* the scan leaves the array *)
    destruct (Pop_Some_inv _ _ _ (Hwf i Hi) HP) as [Hc Hq].
    pose proof (Hent i Hi) as Hei. rewrite Hc in Hei.
    apply Forall_cons in Hei as [Hqe Hei].
    split; [exact He|]. split; [|split; [|exact I]].
    + intros k Hk; simpl. destruct (Nat.eqb_spec k i) as [->|]; [exact Hq|]. apply Hwf, Hk.
    + intros k Hk; simpl. destruct (Nat.eqb_spec k i) as [->|]; [exact Hei|]. apply Hent, Hk.
  - (* accept *)
    destruct (Pop_Some_inv _ _ _ (Hwf i Hi) HP) as [Hc Hq].
    pose proof (Hent i Hi) as Hei. rewrite Hc in Hei.
    apply Forall_cons in Hei as [Hqe Hei].
    split; [exact He|]. split; [|split; [|split; [exact Hi|exact Hqe]]].
    + intros k Hk; simpl. destruct (Nat.eqb_spec k i) as [->|]; [exact Hq|]. apply Hwf, Hk.
    + intros k Hk; simpl. destruct (Nat.eqb_spec k i) as [->|]; [exact Hei|]. apply Hent, Hk.
  - (* one check *)
    destruct Hpc as [Hi Hqe].
    apply (Check_at_cases g (fun s' => Inv g (length ths) (Expanding i qe, s'))).
    + intros _.
      split; [exact He|split; [exact Hwf|split; [exact Hent|split; assumption]]].
    + intros _ _.
      split; [exact He|split; [exact Hwf|split; [exact Hent|split; assumption]]].
    + intros Hin Hf. unfold visit.
      set (np := qe_p qe + offp).
      set (nv := unwrap_value (phase s np) (qe_v qe)).
      set (nqe := mkQE (qe_x qe + offx) (qe_y qe + offy) (qe_z qe + offz) np nv).
      destruct (Push_spec junk_entry (queues s i) nqe (Hwf i Hi)) as (_ & Hwf' & Hc').
      assert (Hmono : forall p, flag s p = true -> upd (flag s) np true p = true).
      { intros p Hp. unfold upd. destruct (p =? np); [reflexivity|exact Hp]. }
      split; [exact He|]. simpl. split; [|split; [|split; [exact Hi|]]].
      * intros k Hk; simpl. destruct (Nat.eqb_spec k i) as [->|]; [exact Hwf'|]. apply Hwf, Hk.
      * intros k Hk.
        assert (Hold : forall k', (k' < length ths)%nat ->
                  Forall (entry_ok g (visit g i qe (offp, offx, offy, offz) s))
                         (contents (queues s k'))).
        { intros k' Hk'. eapply Forall_impl; [apply Hent, Hk'|].
          intros e [Hgeo Hfe]. split; [exact Hgeo|]. simpl. apply Hmono, Hfe. }
        destruct (Nat.eqb_spec k i) as [->|]; [|apply Hold, Hk].
        rewrite Hc'. apply Forall_app. split; [apply Hold, Hi|].
        apply Forall_singleton. split.
        -- split; [exact Hin|]. simpl. unfold np.
           destruct Hqe as [[_ Hp] _]. rewrite Hp. symmetry.
           apply six_flat, Ho.
        -- simpl. unfold upd. rewrite Z.eqb_refl. reflexivity.
      * destruct Hqe as [Hgeo Hfe]. split; [exact Hgeo|]. simpl. apply Hmono, Hfe.
  - (* the expansion is over *)
    split; [exact He|split; [exact Hwf|split; [exact Hent|exact I]]].
  - (* next bin *)
    destruct Hfin as [Hfin|Hfin]; [contradiction|].
    destruct (wf_TerminateQueue _ (Hwf i Hi) (Pop_None_inv _ Hfin)) as [Hwt Hct].
    split; [exact He|]. split; [|split; [|exact I]].
    + intros k Hk; simpl. destruct (Nat.eqb_spec k i) as [->|]; [exact Hwt|]. apply Hwf, Hk.
    + intros k Hk; simpl. destruct (Nat.eqb_spec k i) as [->|]; [|apply Hent, Hk].
      rewrite Hct. constructor.
Qed.

End UnwrapInvariant.

(** ** The flood fill: the code before the bin loop *)

Section UnwrapInit.
Import Queue Unwrap.
Local Open Scope Q_scope.

Lemma Qgt_bool_true a b : Qgt_bool a b = true <-> b < a.
Proof.
  unfold Qgt_bool. rewrite negb_true_iff, <- not_true_iff_false, Qle_bool_iff.
  split; [apply Qnot_le_lt|apply Qlt_not_le].
Qed.

Lemma Qgt_bool_false a b : Qgt_bool a b = false <-> a <= b.
Proof. unfold Qgt_bool. rewrite negb_false_iff. apply Qle_bool_iff. Qed.

(** The loop of lines 200-204 only reads; it returns bounds of the
    values it read, starting from [1e38] and [0]. *)
Lemma find_min_max_fold (l : list Z) (mn0 mx0 : Q) (s : state) :
  let r := foldl (fun '(mn, mx, s) i =>
                    let s := log (Rd Bmag i) s in
                    let m := mag s i in
                    (if Qgt_bool mn m then m else mn,
                     if Qgt_bool m mx then m else mx, s))
                 (mn0, mx0, s) l in
  let mn := fst (fst r) in
  let mx := snd (fst r) in
  let s' := snd r in
  s' = mkState (errcode s) (gerror s) (phase s) (maginput s) (mag s)
               (unwrapped s) (flag s) (queues s)
               (rev (map (Rd Bmag) l) ++ trace s) /\
  mn <= mn0 /\ mx0 <= mx /\
  (forall i, In i l -> mn <= mag s i <= mx) /\
  (mn == mn0 \/ exists i, In i l /\ mn == mag s i) /\
  (mx == mx0 \/ exists i, In i l /\ mx == mag s i).
Proof.
  revert mn0 mx0 s. induction l as [|i l IH]; intros mn0 mx0 s; simpl.
  - split; [destruct s; reflexivity|].
    split; [apply Qle_refl|]. split; [apply Qle_refl|].
    split; [intros i []|]. split; left; reflexivity.
  - specialize (IH (if Qgt_bool mn0 (mag s i) then mag s i else mn0)
                   (if Qgt_bool (mag s i) mx0 then mag s i else mx0)
                   (log (Rd Bmag i) s)).
    simpl in IH. destruct IH as (Hs & Hmn & Hmx & Hall & Hmin & Hmax).
    set (r := foldl _ _ l) in *.
    assert (Hmn0 : (if Qgt_bool mn0 (mag s i) then mag s i else mn0) <= mn0 /\
                   (if Qgt_bool mn0 (mag s i) then mag s i else mn0) <= mag s i).
    { destruct (Qgt_bool mn0 (mag s i)) eqn:E.
      - apply Qgt_bool_true in E. split; [apply Qlt_le_weak, E|apply Qle_refl].
      - apply Qgt_bool_false in E. split; [apply Qle_refl|exact E]. }
    assert (Hmx0 : mx0 <= (if Qgt_bool (mag s i) mx0 then mag s i else mx0) /\
                   mag s i <= (if Qgt_bool (mag s i) mx0 then mag s i else mx0)).
    { destruct (Qgt_bool (mag s i) mx0) eqn:E.
      - apply Qgt_bool_true in E. split; [apply Qlt_le_weak, E|apply Qle_refl].
      - apply Qgt_bool_false in E. split; [apply Qle_refl|exact E]. }
    split.
    { rewrite Hs. simpl. rewrite <- app_assoc. reflexivity. }
    split; [eapply Qle_trans; [exact Hmn|apply Hmn0]|].
    split; [eapply Qle_trans; [apply Hmx0|exact Hmx]|].
    split.
    { intros k [<-|Hk]; [|apply Hall, Hk]. split.
      - eapply Qle_trans; [exact Hmn|apply Hmn0].
      - eapply Qle_trans; [apply Hmx0|exact Hmx]. }
    split.
    { destruct Hmin as [Hmin|(k & Hk & Hmin)].
      - destruct (Qgt_bool mn0 (mag s i)); [right; exists i|left]; auto.
      - right. exists k. auto. }
    { destruct Hmax as [Hmax|(k & Hk & Hmax)].
      - destruct (Qgt_bool (mag s i) mx0); [right; exists i|left]; auto.
      - right. exists k. auto. }
Qed.

Lemma clear_flags_fold (l : list Z) (s : state) :
  foldl (fun s i => wr_flag i false s) s l
  = mkState (errcode s) (gerror s) (phase s) (maginput s) (mag s)
            (unwrapped s) (foldl (fun f i => upd f i false) (flag s) l)
            (queues s) (rev (map (Wr Bflag) l) ++ trace s).
Proof.
  revert s. induction l as [|i l IH]; intros s; simpl.
  - destruct s; reflexivity.
  - rewrite IH. simpl. rewrite <- app_assoc. reflexivity.
Qed.

Lemma fold_upd {V : Type} (l : list Z) (v : Z -> V) (f : Z -> V) (p : Z) :
  (In p l -> foldl (fun f i => upd f i (v i)) f l p = v p) /\
  (~ In p l -> foldl (fun f i => upd f i (v i)) f l p = f p).
Proof.
  revert f. induction l as [|i l IH]; intros f; simpl.
  - split; [intros []|reflexivity].
  - destruct (IH (upd f i (v i))) as [IH1 IH2]. split.
    + intros [->|Hin].
      * destruct (in_dec Z.eq_dec p l) as [Hin|Hin]; [apply IH1, Hin|].
        rewrite IH2 by exact Hin. unfold upd. rewrite Z.eqb_refl. reflexivity.
      * apply IH1, Hin.
    + intros Hn. rewrite IH2 by tauto. unfold upd.
      destruct (Z.eqb_spec p i) as [->|]; [tauto|reflexivity].
Qed.

Lemma init_queues_fold (l : list nat) (s : state) :
  foldl (fun s i => set_queue i (InitQueue sizeof_QUEUEENTRY) s) s l
  = mkState (errcode s) (gerror s) (phase s) (maginput s) (mag s)
            (unwrapped s) (flag s)
            (foldl (fun qs i k => if (k =? i)%nat
                                  then InitQueue sizeof_QUEUEENTRY else qs k)
                   (queues s) l)
            (trace s).
Proof.
  revert s. induction l as [|i l IH]; intros s; simpl.
  - destruct s; reflexivity.
  - rewrite IH. reflexivity.
Qed.

Lemma initialised_queues (l : list nat) (qs : nat -> queue (A := QUEUEENTRY)) k :
  (In k l ->
   foldl (fun qs i k => if (k =? i)%nat
                        then InitQueue sizeof_QUEUEENTRY else qs k) qs l k
   = InitQueue sizeof_QUEUEENTRY) /\
  (~ In k l ->
   foldl (fun qs i k => if (k =? i)%nat
                        then InitQueue sizeof_QUEUEENTRY else qs k) qs l k
   = qs k).
Proof.
  revert qs. induction l as [|i l IH]; intros qs; simpl.
  - split; [intros []|reflexivity].
  - destruct (IH (fun k => if (k =? i)%nat
                           then InitQueue sizeof_QUEUEENTRY else qs k))
      as [IH1 IH2]. split.
    + intros [->|Hin].
      * destruct (in_dec Nat.eq_dec k l) as [Hin|Hin]; [apply IH1, Hin|].
        rewrite IH2 by exact Hin. rewrite Nat.eqb_refl. reflexivity.
      * apply IH1, Hin.
    + intros Hn. rewrite IH2 by tauto.
      destruct (Nat.eqb_spec k i) as [->|]; [tauto|reflexivity].
Qed.

Lemma negate_mag_fold (l : list Z) (s : state) :
  foldl (fun s i => wr_mag i (- maginput s i) (log (Rd Bmaginput i) s)) s l
  = mkState (errcode s) (gerror s) (phase s) (maginput s)
            (foldl (fun f i => upd f i (- maginput s i)) (mag s) l)
            (unwrapped s) (flag s) (queues s)
            (rev (flat_map (fun i => [Rd Bmaginput i; Wr Bmag i]) l) ++ trace s).
Proof.
  revert s. induction l as [|i l IH]; intros s; simpl.
  - destruct s; reflexivity.
  - rewrite IH. simpl. rewrite <- !app_assoc. reflexivity.
Qed.

Lemma In_seqZ (p m n : Z) : In p (seqZ m n) <-> (m <= p < m + n)%Z.
Proof. rewrite <- list_elem_of_In. apply elem_of_seqZ. Qed.

(** What [unwrap] has done when it enters the bin loop. *)
Lemma unwrap_init_fields g seedx seedy seedz B s :
  let N := if (B <? 2)%Z then 2%Z else B in
  let seedp := flat g seedx seedy seedz in
  let seed := mkQE seedx seedy seedz seedp (phase s seedp) in
  let s' := snd (unwrap_init g seedx seedy seedz B s) in
  exists mn mx,
    mn <= 1e38 /\ 0 <= mx /\
    (forall i, in_buffer g i -> mn <= mag s i <= mx) /\
    (mn == 1e38 \/ exists i, in_buffer g i /\ mn == mag s i) /\
    (mx == 0 \/ exists i, in_buffer g i /\ mx == mag s i) /\
    fst (unwrap_init g seedx seedy seedz B s)
      = thresholds mn (1.00001 * (mx - mn)) N /\
    errcode s' = 0%Z /\ gerror s' = gerror s /\ phase s' = phase s /\
    maginput s' = maginput s /\ mag s' = mag s /\
    unwrapped s' = upd (upd (unwrapped s) 85 (phase s 85)) seedp (phase s seedp) /\
    (forall p, flag s' p = if (p =? seedp)%Z then true
                           else if decide (in_buffer g p) then false else flag s p) /\
    (forall k, queues s' k =
               if (k =? 0)%nat
               then snd (Push junk_entry (InitQueue sizeof_QUEUEENTRY) seed)
               else if decide (k < Z.to_nat N)%nat
                    then InitQueue sizeof_QUEUEENTRY else queues s k) /\
    trace s' = [Wr Bflag seedp; Wr Bunwrapped seedp; Rd Bphase seedp;
                Wr Bunwrapped 85; Rd Bphase 85]
               ++ rev (map (Wr Bflag) (seqZ 0 (sze g)))
               ++ rev (map (Rd Bmag) (seqZ 0 (sze g))) ++ trace s.
Proof.
  intros N seedp seed s'. subst s'. unfold unwrap_init, find_min_max.
  pose proof (find_min_max_fold (seqZ 0 (sze g)) 1e38 0 (set_errcode 0 s)) as H.
  simpl in H.
  destruct (foldl _ (1e38, 0, set_errcode 0 s) (seqZ 0 (sze g))) as [[mn mx] s1].
  simpl in H. destruct H as (-> & Hmn & Hmx & Hall & Hmin & Hmax).
  exists mn, mx.
  split; [exact Hmn|]. split; [exact Hmx|].
  split; [intros i Hi; apply Hall, In_seqZ; unfold in_buffer in Hi; lia|].
  split.
  { destruct Hmin as [Hmin|(i & Hi & Hmin)]; [left; exact Hmin|right].
    exists i. split; [apply In_seqZ in Hi; unfold in_buffer; lia|exact Hmin]. }
  split.
  { destruct Hmax as [Hmax|(i & Hi & Hmax)]; [left; exact Hmax|right].
    exists i. split; [apply In_seqZ in Hi; unfold in_buffer; lia|exact Hmax]. }
  unfold clear_flags, init_queues.
  rewrite clear_flags_fold. simpl. rewrite init_queues_fold. simpl.
  fold N. fold seedp.
  assert (HN : (0 < Z.to_nat N)%nat) by (subst N; destruct (B <? 2)%Z eqn:E; lia).
  repeat (split; [reflexivity|]). split; [|split].
  - intros p. unfold upd at 1. subst seedp. unfold flat.
    destruct (p =? _)%Z; [reflexivity|].
    destruct (fold_upd (seqZ 0 (sze g)) (fun _ => false) (flag s) p) as [H1 H2].
    destruct (decide (in_buffer g p)) as [Hin|Hin].
    + apply H1, In_seqZ. unfold in_buffer in Hin. lia.
    + apply H2. rewrite In_seqZ. unfold in_buffer in Hin. lia.
  - intros k.
    destruct (initialised_queues (seq 0 (Z.to_nat N)) (queues s) k) as [H1 H2].
    destruct (Nat.eqb_spec k 0) as [->|Hk].
    + rewrite (proj1 (initialised_queues (seq 0 (Z.to_nat N)) (queues s) 0%nat))
        by (apply in_seq; lia).
      reflexivity.
    + destruct (decide (k < Z.to_nat N)%nat) as [Hlt|Hge].
      * apply H1, in_seq. lia.
      * apply H2. rewrite in_seq. lia.
  - reflexivity.
Qed.

Lemma length_thresholds mn diff N :
  length (thresholds mn diff N) = Z.to_nat N.
Proof. unfold thresholds. rewrite length_map. apply length_seqZ. Qed.

Lemma length_unwrap_init g seedx seedy seedz B s :
  length (fst (unwrap_init g seedx seedy seedz B s))
  = Z.to_nat (if (B <? 2)%Z then 2%Z else B).
Proof.
  destruct (unwrap_init_fields g seedx seedy seedz B s)
    as (mn & mx & _ & _ & _ & _ & _ & -> & _).
  apply length_thresholds.
Qed.

(** The invariant holds when the bin loop is entered, provided the seed
    lies in the grid. *)
Lemma Inv_init g seedx seedy seedz B s :
  wf_globals g -> in_grid g seedx seedy seedz ->
  Inv g (length (fst (unwrap_init g seedx seedy seedz B s)))
      (Loop 0, snd (unwrap_init g seedx seedy seedz B s)).
Proof.
  intros Hg Hseed. rewrite length_unwrap_init.
  destruct (unwrap_init_fields g seedx seedy seedz B s)
    as (mn & mx & _ & _ & _ & _ & _ & _ & He & _ & _ & _ & _ & _ & Hfl & Hq & _).
  set (s' := snd (unwrap_init g seedx seedy seedz B s)) in *.
  set (seed := mkQE seedx seedy seedz (flat g seedx seedy seedz)
                    (phase s (flat g seedx seedy seedz))) in *.
  destruct (Push_spec junk_entry (InitQueue sizeof_QUEUEENTRY) seed
              (wf_InitQueue sizeof_QUEUEENTRY eq_refl)) as (_ & Hwf0 & Hc0).
  unfold Inv; simpl. split; [exact He|]. split; [|split; [|exact I]].
  - intros k Hk. rewrite Hq. destruct (k =? 0)%nat; [exact Hwf0|].
    destruct (decide _); [apply wf_InitQueue; reflexivity|lia].
  - intros k Hk. rewrite Hq. destruct (k =? 0)%nat.
    + rewrite Hc0. simpl. apply Forall_singleton. split.
      * split; [exact Hseed|reflexivity].
      * rewrite Hfl. simpl. rewrite Z.eqb_refl. reflexivity.
    + destruct (decide _); [constructor|lia].
Qed.

Lemma unwrap_reach fuel g seedx seedy seedz B s :
  exists c,
    rtc (step g (fst (unwrap_init g seedx seedy seedz B s)))
        (Loop 0, snd (unwrap_init g seedx seedy seedz B s)) c /\
    snd c = state_of (unwrap fuel g seedx seedy seedz B s) /\
    (forall s', unwrap fuel g seedx seedy seedz B s = PastThresholds s' ->
                fst c = Halt).
Proof.
  unfold unwrap. destruct (unwrap_init g seedx seedy seedz B s) as [ths s0].
  simpl. apply bins_reach. reflexivity.
Qed.

(** A property kept by every transition holds of every state a run of
    [unwrap] returns. *)
Lemma unwrap_invariant (I : list Q -> pc * state -> Prop)
    fuel g seedx seedy seedz B s :
  (forall ths c c', I ths c -> step g ths c c' -> I ths c') ->
  I (fst (unwrap_init g seedx seedy seedz B s))
    (Loop 0, snd (unwrap_init g seedx seedy seedz B s)) ->
  exists p, I (fst (unwrap_init g seedx seedy seedz B s))
              (p, state_of (unwrap fuel g seedx seedy seedz B s)) /\
            (forall s', unwrap fuel g seedx seedy seedz B s = PastThresholds s' ->
                        p = Halt).
Proof.
  intros Hstep H0.
  destruct (unwrap_reach fuel g seedx seedy seedz B s) as ([p s'] & Hr & Hs & Hh).
  simpl in Hs, Hh. subst s'. exists p. split; [|exact Hh].
  revert Hr. apply rtc_ind_r; [exact H0|].
  intros c c' _ Hcc' Hc. eapply Hstep; eassumption.
Qed.

End UnwrapInit.

(** ** Arithmetic of the neighbour rule and of the seed *)

Section Arithmetic.
Import Unwrap.
Local Open Scope Q_scope.

Lemma Qtrunc_nonneg q : 0 <= q -> Qtrunc q = Qfloor q.
Proof.
  destruct q as [n d]. unfold Qle, Qtrunc, Qfloor; simpl. intros Hn.
  apply Z.quot_div_nonneg; lia.
Qed.

Lemma Qtrunc_nonpos q : q <= 0 -> Qtrunc q = Qceiling q.
Proof.
  destruct q as [n d]. unfold Qle, Qtrunc, Qceiling, Qfloor; simpl. intros Hn.
  rewrite <- (Z.opp_involutive n) at 1. rewrite Z.quot_opp_l by lia.
  f_equal. apply Z.quot_div_nonneg; lia.
Qed.


Lemma Qtrunc_small q : Qabs q < 1 -> Qtrunc q = 0%Z.
Proof.
  intros H. apply Qabs_Qlt_condition in H. destruct H as [Hlo Hhi].
  destruct q as [n d]. unfold Qlt in *; simpl in *. unfold Qtrunc; simpl.
  apply Z.quot_small_iff; lia.
Qed.

Lemma Qtrunc_bounds q :
  (0 <= q -> (0 <= Qtrunc q)%Z /\ inject_Z (Qtrunc q) <= q < inject_Z (Qtrunc q) + 1) /\
  (q <= 0 -> (Qtrunc q <= 0)%Z /\ inject_Z (Qtrunc q) - 1 < q <= inject_Z (Qtrunc q)).
Proof.
  split; intros H.
  - rewrite (Qtrunc_nonneg q H). split; [|split].
    + change 0%Z with (Qfloor 0). apply Qfloor_resp_le, H.
    + apply Qfloor_le.
    + pose proof (Qlt_floor q) as Hlt. rewrite inject_Z_plus in Hlt. exact Hlt.
  - rewrite (Qtrunc_nonpos q H). split; [|split].
    + change 0%Z with (Qceiling 0). apply Qceiling_resp_le, H.
    + pose proof (Qceiling_lt q) as Hlt. unfold Z.sub in Hlt.
      rewrite inject_Z_plus, inject_Z_opp in Hlt. exact Hlt.
    + apply Qle_ceiling.
Qed.

Lemma wrap_int_fits z : (INT_MIN <= z <= INT_MAX)%Z -> wrap_int z = z.
Proof.
  unfold wrap_int, INT_MIN, INT_MAX. intros Hz.
  rewrite Z.mod_small by lia. lia.
Qed.

(** Within the range the conversion is the truncation, and the sums of
    lines 171 and 173 do not overflow. *)
Lemma int_of_double_fits q :
  fits_int q ->
  int_of_double q = Qtrunc q /\ (-2147483646 <= Qtrunc q <= 2147483646)%Z.
Proof.
  unfold fits_int. intros H. apply Qabs_Qlt_condition in H. destruct H as [Hlo Hhi].
  destruct (Qtrunc_bounds q) as [Hpos Hneg].
  assert (Hr : (-2147483646 <= Qtrunc q <= 2147483646)%Z).
  { destruct (Qlt_le_dec q 0) as [Hq|Hq].
    - destruct (Hneg (Qlt_le_weak _ _ Hq)) as (Hw & Hl & _). split; [|lia].
      assert (Hz : inject_Z (-2147483647) < inject_Z (Qtrunc q)).
      { change (inject_Z (-2147483647)) with (- (2147483647)). lra. }
      rewrite <- Zlt_Qlt in Hz. lia.
    - destruct (Hpos Hq) as (Hw & Hl & _). split; [lia|].
      assert (Hz : inject_Z (Qtrunc q) < inject_Z 2147483647).
      { change (inject_Z 2147483647) with 2147483647. lra. }
      rewrite <- Zlt_Qlt in Hz. lia. }
  split; [|exact Hr]. unfold int_of_double, INT_MIN, INT_MAX.
  destruct (Z.leb_spec (-2147483648) (Qtrunc q)); [|lia].
  destruct (Z.leb_spec (Qtrunc q) 2147483647); [reflexivity|lia].
Qed.


(** Whatever the reference value, the stored value is the wrapped
    phase plus a whole number of turns. *)
Lemma unwrap_value_congruent ph v :
  exists k : Z, unwrap_value ph v - ph == 2 * PI * inject_Z k.
Proof.
  unfold unwrap_value, unwrap_from. set (w := int_of_double ((ph - v) / PI)).
  destruct (w >=? 1)%Z; [|destruct (w <=? -1)%Z].
  - exists (- Z.quot (wrap_int (w + 1)) 2)%Z. rewrite inject_Z_opp. ring.
  - exists (Z.quot (wrap_int (1 - w)) 2). ring.
  - exists 0%Z. change (inject_Z 0) with 0. ring.
Qed.

Lemma PI_pos : 0 < PI.
Proof. reflexivity. Qed.

(** Within half a turn of the reference value nothing is corrected. *)
Lemma unwrap_value_near ph v : Qabs (ph - v) < PI -> unwrap_value ph v = ph.
Proof.
  intros H. unfold unwrap_value, unwrap_from.
  assert (Hs : Qabs ((ph - v) / PI) < 1).
  { apply Qabs_Qlt_condition.
    apply Qabs_Qlt_condition in H. destruct H as [Hlo Hhi]. split.
    - apply Qlt_shift_div_l; [exact PI_pos|].
      assert (E : - (1) * PI == - PI) by ring. rewrite E. exact Hlo.
    - apply Qlt_shift_div_r; [exact PI_pos|]. rewrite Qmult_1_l. exact Hhi. }
  assert (Hf : fits_int ((ph - v) / PI)).
  { unfold fits_int. eapply Qlt_trans; [exact Hs|reflexivity]. }
  rewrite (proj1 (int_of_double_fits _ Hf)), (Qtrunc_small _ Hs). reflexivity.
Qed.

(** For a quotient within the range, the stored value is the wrapped
    phase less [k] turns, where [2 k] is an even integer within 1 of the
    quotient. *)
Lemma unwrap_from_turns ph q :
  fits_int q ->
  exists k : Z, unwrap_from ph q == ph - 2 * PI * inject_Z k /\
                Qabs (q - 2 * inject_Z k) <= 1.
Proof.
  intros Hq. destruct (int_of_double_fits q Hq) as [E Hr].
  unfold unwrap_from. rewrite E. set (w := Qtrunc q) in *.
  rewrite !wrap_int_fits by (unfold INT_MIN, INT_MAX; lia).
  destruct (Qtrunc_bounds q) as [Hpos Hneg]. fold w in Hpos, Hneg.
  destruct (Qlt_le_dec q 0) as [Hq0|Hq0].
  - destruct (Hneg (Qlt_le_weak _ _ Hq0)) as (Hw & Hlo & Hhi).
    destruct (Z.geb_spec w 1) as [H1|H1]; [lia|].
    destruct (Z.leb_spec w (-1)) as [H2|H2].
    + set (k := Z.quot (1 - w) 2).
      assert (Hk : (2 * k <= 1 - w <= 2 * k + 1)%Z).
      { unfold k. rewrite Z.quot_div_nonneg by lia.
        pose proof (Z.div_mod (1 - w) 2 ltac:(lia)).
        pose proof (Z.mod_pos_bound (1 - w) 2 ltac:(lia)). lia. }
      destruct Hk as [Hk1 Hk2]. rewrite Zle_Qle in Hk1, Hk2.
      unfold Z.sub in Hk1, Hk2.
      rewrite inject_Z_plus, inject_Z_mult, inject_Z_opp in Hk1.
      rewrite !inject_Z_plus, inject_Z_mult, inject_Z_opp in Hk2.
      change (inject_Z 2) with 2 in *. change (inject_Z 1) with 1 in *.
      exists (- k)%Z. rewrite inject_Z_opp. split; [ring|].
      apply Qabs_Qle_condition. split; lra.
    + assert (w = 0%Z) by lia. exists 0%Z. change (inject_Z 0) with 0.
      split; [ring|]. rewrite H in Hlo, Hhi. change (inject_Z 0) with 0 in *.
      apply Qabs_Qle_condition. split; lra.
  - destruct (Hpos Hq0) as (Hw & Hlo & Hhi).
    destruct (Z.geb_spec w 1) as [H1|H1].
    + set (k := Z.quot (w + 1) 2).
      assert (Hk : (2 * k <= w + 1 <= 2 * k + 1)%Z).
      { unfold k. rewrite Z.quot_div_nonneg by lia.
        pose proof (Z.div_mod (w + 1) 2 ltac:(lia)).
        pose proof (Z.mod_pos_bound (w + 1) 2 ltac:(lia)). lia. }
      destruct Hk as [Hk1 Hk2]. rewrite Zle_Qle in Hk1, Hk2.
      rewrite inject_Z_plus, inject_Z_mult in Hk1.
      rewrite !inject_Z_plus, inject_Z_mult in Hk2.
      change (inject_Z 2) with 2 in *. change (inject_Z 1) with 1 in *.
      exists k. split; [reflexivity|].
      apply Qabs_Qle_condition. split; lra.
    + destruct (Z.leb_spec w (-1)) as [H2|H2]; [lia|].
      assert (w = 0%Z) by lia. exists 0%Z. change (inject_Z 0) with 0.
      split; [ring|]. rewrite H in Hlo, Hhi. change (inject_Z 0) with 0 in *.
      apply Qabs_Qle_condition. split; lra.
Qed.

(** Lines 170-174 bring the neighbour within half a turn of the
    reference value [v], up to the error [e] of the quotient they are
    given. *)
Lemma unwrap_from_within ph v q e :
  fits_int q -> Qabs (q - (ph - v) / PI) <= e ->
  Qabs (unwrap_from ph q - v) <= PI * (1 + e).
Proof.
  intros Hq He. destruct (unwrap_from_turns ph q Hq) as (k & Ek & Hk).
  rewrite Ek. set (x := (ph - v) / PI) in *.
  assert (Hd : ph - v == x * PI) by (unfold x; field; discriminate).
  apply Qabs_Qle_condition in He. apply Qabs_Qle_condition in Hk.
  apply Qabs_Qle_condition. unfold PI in *. split; lra.
Qed.

(** The value stored for a neighbour lies within [PI] of the reference
    value. *)
Lemma unwrap_value_within ph v :
  fits_int ((ph - v) / PI) -> Qabs (unwrap_value ph v - v) <= PI.
Proof.
  intros Hq. unfold unwrap_value.
  assert (He : Qabs ((ph - v) / PI - (ph - v) / PI) <= 0).
  { apply Qabs_Qle_condition. split; lra. }
  pose proof (unwrap_from_within ph v _ 0 Hq He) as H.
  assert (E : PI * (1 + 0) == PI) by ring. rewrite E in H. exact H.
Qed.

(** [round(d / 2) - 1] of lines 291-293, for a dimension [d]. *)
Lemma default_seed_eq d : (0 <= d)%Z -> default_seed d = ((d + 1) / 2 - 1)%Z.
Proof.
  intros Hd. unfold default_seed, Qround_away.
  assert (H0 : Qle_bool 0 (inject_Z d / 2) = true).
  { apply Qle_bool_iff. apply Qle_shift_div_l; [reflexivity|].
    rewrite Qmult_0_l. change 0 with (inject_Z 0). rewrite <- Zle_Qle. exact Hd. }
  rewrite H0.
  assert (Hf : Qfloor (inject_Z d / 2 + (1 # 2)) = ((d + 1) / 2)%Z).
  { rewrite (Zdiv_Qdiv (d + 1) 2). apply Qfloor_comp.
    rewrite inject_Z_plus. change (inject_Z 1) with 1. change (inject_Z 2) with 2.
    field. }
  rewrite Hf. unfold Qtrunc; simpl. rewrite Z.quot_1_r. lia.
Qed.

Lemma default_seed_in d : (0 < d)%Z -> (0 <= default_seed d < d)%Z.
Proof.
  intros Hd. rewrite default_seed_eq by lia.
  pose proof (Z.div_le_lower_bound (d + 1) 2 1 ltac:(lia) ltac:(lia)).
  pose proof (Z.div_lt_upper_bound (d + 1) 2 (d + 1) ltac:(lia) ltac:(lia)).
  lia.
Qed.

End Arithmetic.

(** ** What a check stores *)

Section CheckFacts.
Import Queue Unwrap.
Local Open Scope Q_scope.

Lemma Check_stores g i qe offp offx offy offz s :
  in_grid g (qe_x qe + offx) (qe_y qe + offy) (qe_z qe + offz) ->
  flag s (qe_p qe + offp) = false ->
  Check g i qe offp offx offy offz s = visit g i qe (offp, offx, offy, offz) s.
Proof.
  intros Hin Hf.
  apply (Check_at_cases g (fun s' => s' = visit g i qe (offp, offx, offy, offz) s)).
  - intros Hn. contradiction.
  - intros _ Hf'. congruence.
  - reflexivity.
Qed.

Lemma trace_visit g i qe offp offx offy offz s :
  trace (visit g i qe (offp, offx, offy, offz) s)
  = [Wr Bflag (qe_p qe + offp); Wr Bunwrapped (qe_p qe + offp);
     Rd Bphase (qe_p qe + offp); Rd Bflag (qe_p qe + offp)] ++ trace s.
Proof. reflexivity. Qed.

Lemma visit_fields g i qe offp offx offy offz s :
  let np := (qe_p qe + offp)%Z in
  let s' := visit g i qe (offp, offx, offy, offz) s in
  errcode s' = errcode s /\ phase s' = phase s /\ mag s' = mag s /\
  flag s' = upd (flag s) np true /\
  unwrapped s' = upd (unwrapped s) np (unwrap_value (phase s np) (qe_v qe)).
Proof. repeat split. Qed.

Lemma same_mem_refl s : same_mem s s.
Proof. repeat split. Qed.

Lemma step_effect g ths c c' : step g ths c c' -> effect g c (snd c').
Proof.
  intros [i s qe q j Hi He HP s1 Hgt Hscan
         |i s qe q Hi He HP s1 Hgt Hscan
         |i s qe q Hi He HP s1 Hgt
         |i qe s [[[offp offx] offy] offz] Ho
         |i qe s
         |i s Hi Hfin]; simpl.
  - eapply eff_pop; [exact HP|repeat split|reflexivity].
  - eapply eff_pop; [exact HP|repeat split|reflexivity].
  - eapply eff_pop; [exact HP|repeat split|reflexivity].
  - apply (Check_at_cases g (effect g (Expanding i qe, s))).
    + intros _. apply eff_queue; [apply same_mem_refl|reflexivity].
    + intros Hin Hf. apply (eff_seen g i qe s offp offx offy offz); assumption.
    + intros Hin Hf. apply (eff_visit g i qe s offp offx offy offz); assumption.
  - apply eff_queue; [apply same_mem_refl|reflexivity].
  - apply eff_queue; [repeat split|reflexivity].
Qed.

(** A property of the memory and the trace that every effect keeps
    holds of every state a run of [unwrap] returns. *)
Lemma unwrap_effect_invariant (I : state -> Prop)
    fuel g seedx seedy seedz B s :
  (forall c s', I (snd c) -> effect g c s' -> I s') ->
  I (snd (unwrap_init g seedx seedy seedz B s)) ->
  I (state_of (unwrap fuel g seedx seedy seedz B s)).
Proof.
  intros Heff H0.
  destruct (unwrap_invariant (fun _ c => I (snd c)) fuel g seedx seedy seedz B s)
    as [p [Hp _]]; [|exact H0|exact Hp].
  intros ths c c' Hc Hstep. eapply Heff; [exact Hc|].
  eapply step_effect, Hstep.
Qed.

Lemma robustUnwrapMain_unwrap fuel d0 d1 d2 B s :
  robustUnwrapMain fuel d0 d1 d2 B s
  = unwrap fuel (main_globals d0 d1 d2) (default_seed d0) (default_seed d1)
           (default_seed d2) B (prepared d0 d1 d2 s).
Proof. reflexivity. Qed.

Lemma prepared_fields d0 d1 d2 s :
  let g := main_globals d0 d1 d2 in
  let s' := prepared d0 d1 d2 s in
  errcode s' = errcode s /\ phase s' = phase s /\ maginput s' = maginput s /\
  unwrapped s' = unwrapped s /\ flag s' = flag s /\ queues s' = queues s /\
  (forall i, in_buffer g i -> mag s' i = - maginput s i) /\
  trace s' = rev (flat_map (fun i => [Rd Bmaginput i; Wr Bmag i]) (seqZ 0 (sze g)))
             ++ trace s.
Proof.
  intros g s'. subst s'. unfold prepared, negate_mag. rewrite negate_mag_fold.
  fold g. simpl.
  destruct (seed_outside _ _ _ _ _ _); simpl; repeat (split; [reflexivity|]);
    (split; [|reflexivity]); intros i Hi;
    match goal with
    | |- foldl _ ?f ?l i = - ?mi i =>
        apply (proj1 (fold_upd l (fun i => - mi i) f i))
    end; apply In_seqZ; subst g; unfold in_buffer in Hi; simpl in Hi; lia.
Qed.

End CheckFacts.


(** ** Extensions of the trace *)

Section Frame.
Import Queue Unwrap.
Local Open Scope Q_scope.

Lemma extends_cons ok s0 s1 s2 a :
  extends ok s0 s1 -> ok a -> trace s2 = a :: trace s1 -> extends ok s0 s2.
Proof.
  intros (new & Hn & Hok) Ha H2. exists (a :: new). split.
  - rewrite H2, Hn. reflexivity.
  - constructor; assumption.
Qed.

Lemma extends_same ok s0 s1 s2 :
  extends ok s0 s1 -> trace s2 = trace s1 -> extends ok s0 s2.
Proof. intros (new & Hn & Hok) H2. exists new. rewrite H2. auto. Qed.

Lemma extends_app ok s0 s1 s2 new :
  extends ok s0 s1 -> Forall ok new -> trace s2 = new ++ trace s1 ->
  extends ok s0 s2.
Proof.
  intros (new1 & Hn & Hok) Hnew H2. exists (new ++ new1). split.
  - rewrite H2, Hn, app_assoc. reflexivity.
  - apply Forall_app. auto.
Qed.

End Frame.

(** C6.  Read over exact rationals, every voxel a call has reached (its
    flag is set) holds in the output buffer its wrapped phase plus a
    whole number of turns [2 PI]; this holds at every point of the run,
    whatever the fuel. *)
Theorem reached_voxels_whole_turns
    (fuel : nat) (d0 d1 d2 B : Z) (s : Unwrap.state) (p : Z) :
  Unwrap.in_buffer (Unwrap.main_globals d0 d1 d2) p ->
  Unwrap.flag (Unwrap.state_of (Unwrap.robustUnwrapMain fuel d0 d1 d2 B s)) p = true ->
  Unwrap.turns_apart
    (Unwrap.unwrapped (Unwrap.state_of (Unwrap.robustUnwrapMain fuel d0 d1 d2 B s)) p)
    (Unwrap.phase s p).
Proof.
  rewrite robustUnwrapMain_unwrap.
  set (g := Unwrap.main_globals d0 d1 d2).
  set (s0 := Unwrap.prepared d0 d1 d2 s).
  destruct (prepared_fields d0 d1 d2 s) as (_ & Hph & _).
  fold s0 in Hph.
  pose (J := fun s1 : Unwrap.state =>
               Unwrap.phase s1 = Unwrap.phase s /\
               forall p, Unwrap.in_buffer g p -> Unwrap.flag s1 p = true ->
                         Unwrap.turns_apart (Unwrap.unwrapped s1 p) (Unwrap.phase s p)).
  assert (HJ : J (Unwrap.state_of
                    (Unwrap.unwrap fuel g (Unwrap.default_seed d0)
                       (Unwrap.default_seed d1) (Unwrap.default_seed d2) B s0))).
  { apply unwrap_effect_invariant.
    - intros c s1 (Hp & Hturn) Heff.
      destruct Heff as [c s1 (_ & _ & Ep & _ & _ & Eu & Ef) _
                       |i s2 qe q s1 _ (_ & _ & Ep & _ & _ & Eu & Ef) _
                       |i qe s2 offp offx offy offz _ _ _
                       |i qe s2 offp offx offy offz _ _ _]; simpl in Hp, Hturn.
      + split; [congruence|]. rewrite Eu, Ef. exact Hturn.
      + split; [congruence|]. rewrite Eu, Ef. exact Hturn.
      + split; [exact Hp|exact Hturn].
      + destruct (visit_fields g i qe offp offx offy offz s2)
          as (_ & Ep & _ & Ef & Eu).
        split; [congruence|]. intros p' Hin. rewrite Ef, Eu. unfold Unwrap.upd.
        destruct (Z.eqb_spec p' (Unwrap.qe_p qe + offp)) as [->|_].
        * intros _. rewrite Hp. apply unwrap_value_congruent.
        * apply Hturn, Hin.
    - destruct (unwrap_init_fields g (Unwrap.default_seed d0)
                  (Unwrap.default_seed d1) (Unwrap.default_seed d2) B s0)
        as (mn & mx & _ & _ & _ & _ & _ & _ & _ & _ & Ep & _ & _ & Eu & Ef & _).
      split; [congruence|]. intros p' Hin. rewrite Ef, Eu.
      destruct (Z.eqb_spec p' (Unwrap.flat g (Unwrap.default_seed d0)
                  (Unwrap.default_seed d1) (Unwrap.default_seed d2))) as [->|_].
      + intros _. unfold Unwrap.upd at 1. rewrite Z.eqb_refl, Hph.
        exists 0%Z. change (inject_Z 0) with 0%Q. ring.
      + destruct (decide _); [discriminate|contradiction]. }
  destruct HJ as [_ HJ]. apply HJ.
Qed.

(** A run reaching a voxel across a jump: the line [0, 0, 3, -3, 0]. *)
Lemma reached_voxels_whole_turns_witness :
  let s := Unwrap.mkState 0 [] (fun i => nth (Z.to_nat i) [0; 0; 3; -3; 0]%Q 0%Q)
             (fun _ => 0%Q) (fun _ => 0%Q) (fun _ => 0%Q) (fun _ => false)
             (fun _ => Queue.InitQueue 0) [] in
  Unwrap.turns_apart
    (Unwrap.unwrapped (Unwrap.state_of (Unwrap.robustUnwrapMain 100 1 1 5 2 s)) 3)
    (Unwrap.phase s 3).
Proof.
  intros s. apply (reached_voxels_whole_turns 100 1 1 5 2 s 3).
  - unfold Unwrap.in_buffer. simpl. lia.
  - vm_compute. reflexivity.
Defined.




(** ** The literal subscript of line 227 and the seed test of line 301 *)

(** C1.  On a 86 x 1 x 1 grid (seed at index 42) the run finishes and the
    output entry of voxel 85 is written twice: once by the literal
    subscript [unwrapped[85]] of line 227, before the voxel is reached,
    and once by the check that reaches it.  The claim allows one write. *)
Theorem voxel_85_written_twice :
  let o := Unwrap.robustUnwrapMain 200 86 1 1 2
             (Unwrap.start (fun _ => 0%Q) (fun _ => 0%Q) (fun _ => 0%Q)) in
  Unwrap.finished o = true /\
  Unwrap.default_seed 86 = 42 /\
  Unwrap.flag (Unwrap.state_of o) 85 = true /\
  Unwrap.occurrences (Unwrap.Wr Unwrap.Bunwrapped 85)
                     (Unwrap.trace (Unwrap.state_of o)) = 2%nat.
Proof. vm_compute. repeat split. Qed.

(** C2.  On a 4 x 4 x 0 grid the default seed is (1, 1, -1), outside the
    grid on the z axis.  The message is handed to [GERROR], and the code
    goes on: [unwrap] runs, writes the output at the subscripts 85 and
    -11 (the flat index of the seed) and changes the entry at 85. *)
Theorem seed_outside_still_unwraps :
  let s := Unwrap.start (fun _ => 1%Q) (fun _ => 0%Q) (fun _ => 0%Q) in
  let o := Unwrap.robustUnwrapMain 200 4 4 0 2 s in
  Unwrap.default_seed 0 = (-1) /\
  Unwrap.seed_outside 4 4 0 (Unwrap.default_seed 4) (Unwrap.default_seed 4)
                      (Unwrap.default_seed 0) = true /\
  Unwrap.gerror (Unwrap.state_of o)
  = ["The seed specified was outside the matrix bounds."%string] /\
  Unwrap.occurrences (Unwrap.Wr Unwrap.Bunwrapped 85)
                     (Unwrap.trace (Unwrap.state_of o)) = 1%nat /\
  Unwrap.occurrences (Unwrap.Wr Unwrap.Bunwrapped (-11))
                     (Unwrap.trace (Unwrap.state_of o)) = 1%nat /\
  Unwrap.unwrapped s 85 = 0%Q /\
  Unwrap.unwrapped (Unwrap.state_of o) 85 = 1%Q.
Proof. vm_compute. repeat split. Qed.

(** C3.  On a 4 x 4 x 4 grid the buffers have 64 entries; the run
    finishes, and its accesses include the read [phase[85]] and the
    write [unwrapped[85]] of line 227, outside [0, 64). *)
Theorem subscript_85_outside_small_grid :
  let o := Unwrap.robustUnwrapMain 200 4 4 4 2
             (Unwrap.start (fun _ => 0%Q) (fun _ => 0%Q) (fun _ => 0%Q)) in
  Unwrap.finished o = true /\
  Unwrap.sze (Unwrap.main_globals 4 4 4) = 64 /\
  Unwrap.occurrences (Unwrap.Rd Unwrap.Bphase 85)
                     (Unwrap.trace (Unwrap.state_of o)) = 1%nat /\
  Unwrap.occurrences (Unwrap.Wr Unwrap.Bunwrapped 85)
                     (Unwrap.trace (Unwrap.state_of o)) = 1%nat.
Proof. vm_compute. repeat split. Qed.

(** ** The bin thresholds *)

Section Thresholds.
Import Queue Unwrap.
Local Open Scope Q_scope.

Lemma nth_thresholds mn diff N (i : nat) :
  (i < Z.to_nat N)%nat ->
  nth i (thresholds mn diff N) 0
  = mn + diff * inject_Z (Z.of_nat i) / inject_Z (N - 1).
Proof.
  intros Hi. unfold thresholds.
  rewrite (nth_lookup_Some _ _ _
             (mn + diff * inject_Z (Z.of_nat i) / inject_Z (N - 1))); [reflexivity|].
  rewrite list_lookup_fmap, lookup_seqZ_lt by lia. reflexivity.
Qed.

Lemma inject_Z_pos (n : Z) : (0 < n)%Z -> 0 < inject_Z n.
Proof. intros H. change 0 with (inject_Z 0). rewrite <- Zlt_Qlt. exact H. Qed.

Lemma scaled_le (diff : Q) (a b n : Z) :
  0 <= diff -> (a <= b)%Z -> (0 < n)%Z ->
  diff * inject_Z a / inject_Z n <= diff * inject_Z b / inject_Z n.
Proof.
  intros Hd Hab Hn. apply Qle_shift_div_l; [apply inject_Z_pos, Hn|].
  assert (E : diff * inject_Z a / inject_Z n * inject_Z n == diff * inject_Z a).
  { field. intros H0. pose proof (inject_Z_pos n Hn) as Hp. rewrite H0 in Hp.
    exact (Qlt_irrefl _ Hp). }
  rewrite E. rewrite !(Qmult_comm diff). apply Qmult_le_compat_r; [|exact Hd].
  rewrite <- Zle_Qle. exact Hab.
Qed.

Lemma scaled_full (diff : Q) (n : Z) :
  (0 < n)%Z -> diff * inject_Z n / inject_Z n == diff.
Proof.
  intros Hn. field. intros H0. pose proof (inject_Z_pos n Hn) as Hp.
  rewrite H0 in Hp. exact (Qlt_irrefl _ Hp).
Qed.

(** The thresholds of a field whose values lie between [mn] and [mx]:
    non-decreasing from [mn] to [mn + 1.00001 (mx - mn)], the last one
    at least [mx]. *)
Lemma thresholds_shape mn mx N :
  mn <= mx -> (2 <= N)%Z ->
  let ths := thresholds mn (1.00001 * (mx - mn)) N in
  (forall i j, (i <= j < Z.to_nat N)%nat -> nth i ths 0 <= nth j ths 0) /\
  nth 0 ths 0 == mn /\
  nth (Z.to_nat N - 1) ths 0 == mn + 1.00001 * (mx - mn) /\
  mx <= nth (Z.to_nat N - 1) ths 0 /\
  (mn < mx -> mx < nth (Z.to_nat N - 1) ths 0).
Proof.
  intros Hm HN ths. subst ths.
  assert (Hd : 0 <= 1.00001 * (mx - mn)) by nra.
  assert (Hlast : nth (Z.to_nat N - 1) (thresholds mn (1.00001 * (mx - mn)) N) 0
                  == mn + 1.00001 * (mx - mn)).
  { rewrite nth_thresholds by lia.
    replace (Z.of_nat (Z.to_nat N - 1)) with (N - 1)%Z by lia.
    rewrite scaled_full by lia. reflexivity. }
  split; [|split; [|split; [exact Hlast|split]]].
  - intros i j Hij. rewrite !nth_thresholds by lia.
    apply Qplus_le_r. apply scaled_le; [exact Hd|lia|lia].
  - rewrite nth_thresholds by lia. simpl. field.
    intros H0. pose proof (inject_Z_pos (N - 1) ltac:(lia)) as Hp.
    rewrite H0 in Hp. exact (Qlt_irrefl _ Hp).
  - rewrite Hlast. nra.
  - intros Hlt. rewrite Hlast. nra.
Qed.

Lemma scan_finds rest m ind :
  (exists t, In t rest /\ m <= t) -> exists j, scan rest m ind = Some j.
Proof.
  revert ind. induction rest as [|t rest IH]; intros ind (u & Hu & Hle); simpl.
  - destruct Hu.
  - destruct (Qgt_bool m t) eqn:E; [|eexists; reflexivity].
    destruct Hu as [->|Hu].
    + apply Qgt_bool_true in E. exfalso. exact (Qlt_not_le _ _ E Hle).
    + apply IH. exists u. auto.
Qed.

(** The scan started after bin [i] for a value above threshold [i] and
    not above the last threshold halts inside the array. *)
Lemma scan_halts (ths : list Q) (m : Q) (i : nat) :
  (i < length ths)%nat ->
  Qgt_bool m (nth i ths 0) = true ->
  m <= nth (length ths - 1) ths 0 ->
  exists j, scan (drop (S i) ths) m (S i) = Some j /\ (i < j < length ths)%nat.
Proof.
  intros Hi Hgt Hlast.
  assert (Hne : i <> (length ths - 1)%nat).
  { intros ->. apply Qgt_bool_true in Hgt. exact (Qlt_not_le _ _ Hgt Hlast). }
  destruct (scan_finds (drop (S i) ths) m (S i)) as [j Hj].
  - exists (nth (length ths - 1) ths 0). split; [|exact Hlast].
    apply list_elem_of_In, list_elem_of_lookup.
    exists (length ths - 1 - S i)%nat. rewrite lookup_drop.
    replace (S i + (length ths - 1 - S i))%nat with (length ths - 1)%nat by lia.
    destruct (lookup_lt_is_Some_2 ths (length ths - 1) ltac:(lia)) as [t Ht].
    rewrite (nth_lookup_Some _ _ _ _ Ht). exact Ht.
  - exists j. split; [exact Hj|].
    apply scan_bounds in Hj. rewrite length_drop in Hj. lia.
Qed.

End Thresholds.

Section ScanSafety.
Import Queue Unwrap.
Local Open Scope Q_scope.

Lemma step_keeps_inputs g ths c c' :
  step g ths c c' ->
  phase (snd c') = phase (snd c) /\ maginput (snd c') = maginput (snd c) /\
  mag (snd c') = mag (snd c).
Proof.
  intros Hstep. apply step_effect in Hstep.
  destruct Hstep as [c s1 (_ & _ & Ep & Em & Eg & _ & _) _
                    |i s2 qe q s1 _ (_ & _ & Ep & Em & Eg & _ & _) _
                    |i qe s2 offp offx offy offz _ _ _
                    |i qe s2 offp offx offy offz _ _ _]; simpl; auto.
Qed.

(** The record a pop returns was waiting in the queue, so under the
    invariant its flat index lies in the buffers. *)
Lemma popped_entry_ok g N i s qe q :
  Inv g N (Loop i, s) -> (i < N)%nat ->
  Pop junk_entry (queues s i) = Some (qe, q) -> entry_ok g s qe.
Proof.
  intros (_ & Hwf & Hent & _) Hi HP. simpl in *.
  destruct (Pop_Some_inv _ _ _ (Hwf i Hi) HP) as [Hc _].
  specialize (Hent i Hi). rewrite Hc in Hent.
  apply Forall_cons in Hent. apply Hent.
Qed.


End ScanSafety.

Section ThresholdsOfField.
Import Queue Unwrap.
Local Open Scope Q_scope.

Lemma wf_main_globals d0 d1 d2 :
  (0 < d0)%Z -> (0 < d1)%Z -> (0 < d2)%Z -> wf_globals (main_globals d0 d1 d2).
Proof. intros. unfold wf_globals, main_globals; simpl. lia. Qed.

Lemma default_seed_in_grid d0 d1 d2 :
  (0 < d0)%Z -> (0 < d1)%Z -> (0 < d2)%Z ->
  in_grid (main_globals d0 d1 d2) (default_seed d0) (default_seed d1)
          (default_seed d2).
Proof.
  intros H0 H1 H2. unfold in_grid; simpl.
  pose proof (default_seed_in d0 H0). pose proof (default_seed_in d1 H1).
  pose proof (default_seed_in d2 H2). lia.
Qed.

Lemma origin_in_buffer g : wf_globals g -> in_buffer g 0.
Proof.
  intros (H0 & H1 & H2 & Hs & _). unfold in_buffer. rewrite Hs. nia.
Qed.

(** The thresholds [unwrap] computes for the field it is given. *)
Lemma thresholds_of_field g seedx seedy seedz B s :
  wf_globals g ->
  let ths := fst (unwrap_init g seedx seedy seedz B s) in
  let N := length ths in
  N = Z.to_nat (Z.max B 2) /\
  (forall i j, (i <= j < N)%nat -> nth i ths 0 <= nth j ths 0) /\
  (exists mn mx,
      nth 0 ths 0 == mn /\ nth (N - 1) ths 0 == mn + 1.00001 * (mx - mn) /\
      mn <= 1e38 /\ 0 <= mx /\
      (forall p, in_buffer g p -> mn <= mag s p <= mx) /\
      (mn == 1e38 \/ exists p, in_buffer g p /\ mn == mag s p) /\
      (mx == 0 \/ exists p, in_buffer g p /\ mx == mag s p)) /\
  (forall p, in_buffer g p -> mag s p <= nth (N - 1) ths 0) /\
  (nth 0 ths 0 < nth (N - 1) ths 0 ->
   forall p, in_buffer g p -> mag s p < nth (N - 1) ths 0).
Proof.
  intros Hg ths N. subst N ths.
  destruct (unwrap_init_fields g seedx seedy seedz B s)
    as (mn & mx & Hmn & Hmx & Hall & Hmin & Hmax & -> & _).
  rewrite length_thresholds.
  set (N := if (B <? 2)%Z then 2%Z else B).
  assert (HN : (2 <= N)%Z /\ N = Z.max B 2)
    by (subst N; destruct (Z.ltb_spec B 2); lia).
  destruct HN as [HN HNmax].
  assert (Hle : mn <= mx).
  { destruct (Hall 0%Z (origin_in_buffer g Hg)) as [H1 H2].
    eapply Qle_trans; eassumption. }
  destruct (thresholds_shape mn mx N Hle HN) as (Hasc & Hfirst & Hlast & Hge & Hgt).
  split; [rewrite HNmax; reflexivity|]. split; [exact Hasc|]. split; [|split].
  - exists mn, mx. repeat (split; [assumption|]). assumption.
  - intros p Hp. eapply Qle_trans; [apply Hall, Hp|exact Hge].
  - intros Hlt p Hp. eapply Qle_lt_trans; [apply Hall, Hp|]. apply Hgt.
    rewrite Hfirst, Hlast in Hlt. nra.
Qed.

End ThresholdsOfField.




(** ** Deferral *)

Section Deferral.
Import Queue Unwrap.
Local Open Scope Q_scope.

Lemma nth_drop {X : Type} (l : list X) (n k : nat) (d : X) :
  nth k (drop n l) d = nth (n + k) l d.
Proof. rewrite !nth_lookup, lookup_drop. reflexivity. Qed.

Lemma scan_spec rest m ind j :
  scan rest m ind = Some j ->
  (ind <= j)%nat /\ m <= nth (j - ind) rest 0 /\
  forall k, (k < j - ind)%nat -> nth k rest 0 < m.
Proof.
  revert ind. induction rest as [|t rest IH]; intros ind; simpl; [discriminate|].
  destruct (Qgt_bool m t) eqn:E.
  - intros H. destruct (IH _ H) as (Hle & Hj & Hk).
    replace (j - ind)%nat with (S (j - S ind)) by lia.
    split; [lia|]. split; [exact Hj|].
    intros [|k] Hlt; [apply Qgt_bool_true, E|apply Hk; lia].
  - intros [= <-]. rewrite Nat.sub_diag. split; [lia|].
    split; [apply Qgt_bool_false, E|]. intros k Hk. lia.
Qed.

(** The scan of line 258 returns the first later bin whose threshold is
    at least the risk. *)
Lemma scan_first_sufficient ths m i j :
  scan (drop (S i) ths) m (S i) = Some j -> first_sufficient ths m i j.
Proof.
  intros H. pose proof (scan_target ths i m j H) as Hj.
  destruct (scan_spec _ _ _ _ H) as (_ & Hle & Hk).
  split; [exact Hj|]. split.
  - rewrite nth_drop in Hle. replace (S i + (j - S i))%nat with j in Hle by lia.
    exact Hle.
  - intros k Hik. specialize (Hk (k - S i)%nat ltac:(lia)).
    rewrite nth_drop in Hk. replace (S i + (k - S i))%nat with k in Hk by lia.
    exact Hk.
Qed.

(** Transitions keep the records of the later bins within the threshold
    of their bin. *)
Lemma later_bins_fit_step g ths c c' :
  wf_globals g ->
  Inv g (length ths) c -> later_bins_fit ths c -> step g ths c c' ->
  later_bins_fit ths c'.
Proof.
  intros Hg HI Hfit Hstep. unfold later_bins_fit in *.
  destruct HI as (He & Hwf & Hent & Hpc).
  destruct Hstep as [i s qe q j Hi He' HP s1 Hgt Hscan
                    |i s qe q Hi He' HP s1 Hgt Hscan
                    |i s qe q Hi He' HP s1 Hgt
                    |i qe s [[[offp offx] offy] offz] Ho
                    |i qe s
                    |i s Hi Hfin]; try subst s1;
    simpl in He, Hwf, Hent, Hpc, Hfit |- *.
  - (* defer *)
    intros i' k [= <-] Hk.
    destruct (scan_first_sufficient _ _ _ _ Hscan) as (Hj & Hle & _).
    destruct (Nat.eqb_spec k j) as [->|Hkj].
    + assert (Hji : (j =? i)%nat = false) by (apply Nat.eqb_neq; lia).
      rewrite Hji.
      destruct (Push_spec junk_entry (queues s j) qe (Hwf j ltac:(lia)))
        as (_ & _ & ->).
      apply Forall_app. split; [apply (Hfit i j eq_refl); lia|].
      apply Forall_singleton. exact Hle.
    + destruct (Nat.eqb_spec k i) as [->|]; [lia|]. apply (Hfit i k eq_refl). lia.
  - intros i' k [=].
  - intros i' k [= <-] Hk.
    destruct (Nat.eqb_spec k i) as [->|]; [lia|]. apply (Hfit i k eq_refl). lia.
  - apply (Check_at_cases g
             (fun s' => forall i' k, Some i = Some i' -> (i' < k < length ths)%nat ->
                Forall (fun qe0 => mag s' (qe_p qe0) <= nth k ths 0)
                       (contents (queues s' k)))).
    + intros _. exact Hfit.
    + intros _ _. exact Hfit.
    + intros _ _ i' k [= <-] Hk. simpl.
      destruct (Nat.eqb_spec k i) as [->|]; [lia|]. apply (Hfit i k eq_refl). lia.
  - exact Hfit.
  - intros i' k [= <-] Hk.
    destruct (Nat.eqb_spec k i) as [->|]; [lia|]. apply (Hfit i k eq_refl). lia.
Qed.

End Deferral.

Section Reachable.
Import Queue Unwrap.
Local Open Scope Q_scope.

(** What holds of every configuration of a call started at a seed of the
    grid. *)
Lemma reachable_facts g seedx seedy seedz B s c :
  wf_globals g -> in_grid g seedx seedy seedz ->
  reachable g seedx seedy seedz B s c ->
  let ths := fst (unwrap_init g seedx seedy seedz B s) in
  Inv g (length ths) c /\ later_bins_fit ths c /\
  mag (snd c) = mag s /\ phase (snd c) = phase s.
Proof.
  intros Hg Hseed Hr ths. unfold reachable in Hr. fold ths in Hr.
  revert c Hr. apply rtc_ind_r.
  - split; [apply Inv_init; assumption|].
    destruct (unwrap_init_fields g seedx seedy seedz B s)
      as (mn & mx & _ & _ & _ & _ & _ & _ & _ & _ & Ep & _ & Eg & _ & _ & Hq & _).
    split; [|split; [exact Eg|exact Ep]].
    intros i k [= <-] Hk. simpl. rewrite Hq.
    destruct (Nat.eqb_spec k 0); [lia|].
    unfold ths in Hk. rewrite length_unwrap_init in Hk.
    destruct (decide _); [constructor|lia].
  - intros c c' _ Hstep (HI & Hfit & Eg & Ep).
    split; [eapply Inv_step; eassumption|].
    split; [eapply later_bins_fit_step; eassumption|].
    destruct (step_keeps_inputs g ths c c' Hstep) as (Ep' & _ & Eg').
    split; congruence.
Qed.

End Reachable.

(** C9, as amended (as stated it fails when a threshold equals the
    risk, see the counterexample after the witness).  At every point of a call on a grid with positive dimensions, when a
    record is popped from bin [i]: either its risk is at most threshold
    [i] and it is expanded there; or its risk is above threshold [i] and
    the same record is pushed, unmodified, at the back of the queue of
    bin [j], the smallest index after [i] whose threshold is at least the
    risk, with flags, output and the rest of the memory untouched.  All
    records waiting in bins after the current one are within the
    threshold of their bin, so a deferred record is expanded, not
    deferred again, when its bin is drained. *)
Theorem deferral_to_first_sufficient_bin
    (d0 d1 d2 B : Z) (s : Unwrap.state) (i : nat) (s1 : Unwrap.state)
    (qe : Unwrap.QUEUEENTRY) (q : Queue.queue) :
  (0 < d0)%Z -> (0 < d1)%Z -> (0 < d2)%Z ->
  let g := Unwrap.main_globals d0 d1 d2 in
  let s0 := Unwrap.prepared d0 d1 d2 s in
  let ths := fst (Unwrap.unwrap_init g (Unwrap.default_seed d0)
                    (Unwrap.default_seed d1) (Unwrap.default_seed d2) B s0) in
  Unwrap.reachable g (Unwrap.default_seed d0) (Unwrap.default_seed d1)
                   (Unwrap.default_seed d2) B s0 (Unwrap.Loop i, s1) ->
  (i < length ths)%nat ->
  Queue.Pop Unwrap.junk_entry (Unwrap.queues s1 i) = Some (qe, q) ->
  let r := Unwrap.mag s1 (Unwrap.qe_p qe) in
  let s2 := Unwrap.log (Unwrap.Rd Unwrap.Bmag (Unwrap.qe_p qe))
                       (Unwrap.set_queue i q s1) in
  Unwrap.later_bins_fit ths (Unwrap.Loop i, s1) /\
  (((r <= nth i ths 0)%Q /\
    Unwrap.process g ths i qe (Unwrap.set_queue i q s1)
    = Some (Unwrap.expand g i qe s2))
   \/
   ((nth i ths 0 < r)%Q /\
    exists j s3,
      Unwrap.first_sufficient ths r i j /\
      Unwrap.process g ths i qe (Unwrap.set_queue i q s1) = Some s3 /\
      Queue.contents (Unwrap.queues s3 j)
      = Queue.contents (Unwrap.queues s1 j) ++ [qe] /\
      Unwrap.same_mem s1 s3)).
Proof.
  intros H0 H1 H2 g s0 ths Hr Hi HP r s2.
  pose proof (wf_main_globals d0 d1 d2 H0 H1 H2) as Hg. fold g in Hg.
  pose proof (default_seed_in_grid d0 d1 d2 H0 H1 H2) as Hseed. fold g in Hseed.
  destruct (reachable_facts g _ _ _ B s0 _ Hg Hseed Hr) as (HI & Hfit & Eg & _).
  fold ths in HI, Hfit. simpl in Eg.
  split; [exact Hfit|].
  unfold Unwrap.process. fold s2.
  change (Unwrap.mag s2 (Unwrap.qe_p qe)) with r.
  destruct (Unwrap.Qgt_bool r (nth i ths 0%Q)) eqn:Hgt.
  - right. split; [apply Qgt_bool_true, Hgt|].
    destruct (popped_entry_ok g _ i s1 qe q HI Hi HP) as [Hgeo _].
    destruct (thresholds_of_field g (Unwrap.default_seed d0) (Unwrap.default_seed d1)
                (Unwrap.default_seed d2) B s0 Hg) as (_ & _ & _ & Hge & _).
    fold ths in Hge.
    destruct (scan_halts ths r i Hi Hgt) as (j & Hj & Hij).
    { unfold r. rewrite Eg. apply Hge, (entry_in_buffer g Hg), Hgeo. }
    rewrite Hj. eexists j, _. split; [apply scan_first_sufficient, Hj|].
    split; [reflexivity|]. split; [|repeat split].
    simpl. rewrite Nat.eqb_refl.
    assert (Hji : (j =? i)%nat = false) by (apply Nat.eqb_neq; lia).
    rewrite Hji. destruct HI as (_ & Hwf & _).
    apply (Push_spec Unwrap.junk_entry (Unwrap.queues s1 j) qe (Hwf j ltac:(lia))).
  - left. split; [apply Qgt_bool_false, Hgt|reflexivity].
Qed.

(** The first pop of the run on the 3 x 1 x 1 field of risks
    [8397699, 8388608, 8488608] with 12 bins. *)
Lemma deferral_to_first_sufficient_bin_witness :
  let s := Unwrap.start (fun _ => 0%Q)
             (Unwrap.buffer_of [-8397699; -8388608; -8488608]%Q) (fun _ => 0%Q) in
  let g := Unwrap.main_globals 3 1 1 in
  let s0 := Unwrap.prepared 3 1 1 s in
  let ths := fst (Unwrap.unwrap_init g 1 0 0 12 s0) in
  let s1 := snd (Unwrap.unwrap_init g 1 0 0 12 s0) in
  Unwrap.later_bins_fit ths (Unwrap.Loop 0, s1).
Proof.
  intros s g s0 ths s1.
  destruct (Queue.Pop Unwrap.junk_entry (Unwrap.queues s1 0%nat)) as [[qe q]|] eqn:HP;
    [|vm_compute in HP; discriminate HP].
  exact (proj1 (deferral_to_first_sufficient_bin 3 1 1 12 s 0 s1 qe q
                  ltac:(lia) ltac:(lia) ltac:(lia) (rtc_refl _ _)
                  ltac:(vm_compute; lia) HP)).
Defined.

(** C9, counterexample.  On the 3 x 1 x 1 field of risks
    [8397699, 8388608, 8488608] with 12 bins the thresholds are
    [8388608 + 9091 k].  After two iterations of the loop of bin 0 the
    record of voxel 0 is popped; its risk 8397699 is above threshold 0
    and the code pushes it on bin 1, whose threshold equals the risk and
    does not exceed it; the smallest later bin whose threshold exceeds
    the risk is bin 2. *)
Lemma deferral_target_not_above_risk :
  let s := Unwrap.start (fun _ => 0%Q)
             (Unwrap.buffer_of [-8397699; -8388608; -8488608]%Q) (fun _ => 0%Q) in
  let g := Unwrap.main_globals 3 1 1 in
  let ths := fst (Unwrap.unwrap_init g 1 0 0 12 (Unwrap.prepared 3 1 1 s)) in
  let s1 := Unwrap.state_of (Unwrap.robustUnwrapMain 2 3 1 1 12 s) in
  let qe := Unwrap.mkQE 0 0 0 0 0 in
  exists q s3,
    Queue.Pop Unwrap.junk_entry (Unwrap.queues s1 0%nat) = Some (qe, q) /\
    Unwrap.process g ths 0 qe (Unwrap.set_queue 0 q s1) = Some s3 /\
    Queue.contents (Unwrap.queues s3 1%nat) = [qe] /\
    (nth 1 ths 0 == Unwrap.mag s1 0)%Q /\
    ~ Unwrap.first_exceeding ths (Unwrap.mag s1 0) 0 1 /\
    Unwrap.first_exceeding ths (Unwrap.mag s1 0) 0 2.
Proof.
  intros s g ths s1 qe. eexists. eexists.
  split; [vm_compute; reflexivity|].
  split; [vm_compute; reflexivity|].
  split; [vm_compute; reflexivity|].
  split; [vm_compute; reflexivity|].
  split.
  - intros (_ & Hlt & _). vm_compute in Hlt. discriminate Hlt.
  - split; [vm_compute; lia|]. split; [vm_compute; reflexivity|].
    intros k Hk. assert (k = 1%nat) as -> by lia.
    intros Hlt. vm_compute in Hlt. discriminate Hlt.
Qed.


(** ** Continuous input *)

Section Continuous.
Import Queue Unwrap.

Lemma float_int_factor X e :
  float_int X -> 24 <= e -> 2 ^ e <= Z.abs X -> exists t, X = t * 2 ^ (e - 23).
Proof.
  intros (m & k & Hm & Hk & ->) He Hbig.
  destruct (Z_lt_le_dec k (e - 23)) as [Hlt|Hge].
  - exfalso.
    assert (H1 : 2 ^ k <= 2 ^ (e - 24)) by (apply Z.pow_le_mono_r; lia).
    assert (H2 : 0 < 2 ^ k) by (apply Z.pow_pos_nonneg; lia).
    assert (H3 : 2 ^ e = 2 ^ 24 * 2 ^ (e - 24))
      by (rewrite <- Z.pow_add_r by lia; f_equal; lia).
    rewrite Z.abs_mul, (Z.abs_eq (2 ^ k)) in Hbig by lia.
    rewrite H3 in Hbig. nia.
  - exists (m * 2 ^ (k - (e - 23))).
    rewrite <- Z.mul_assoc, <- Z.pow_add_r by lia. do 2 f_equal. lia.
Qed.

Ltac powers :=
  change (2 ^ 149) with 713623846352979940529142984724747568191373312 in *;
  change (2 ^ 150) with 1427247692705959881058285969449495136382746624 in *;
  change (2 ^ 125) with 42535295865117307932921825928971026432 in *;
  change (2 ^ 127) with 170141183460469231731687303715884105728 in *;
  change (2 ^ 102) with 5070602400912917605986812821504 in *;
  change (10 ^ 14) with 100000000000000 in *;
  change (10 ^ 19) with 10000000000000000000 in *.

(** No two binary32 numbers differ by an amount between [PI] and
    [PI_above]: scaled by [2 ^ 149], a difference that large of two such
    numbers is a multiple of [2 ^ 102], or one of them is small and the
    other a multiple of [2 ^ 127]; neither grid meets the interval. *)
Lemma float_gap_Z (A B : Z) :
  float_int A -> float_int B ->
  314159265358979 * 2 ^ 149 <= (A - B) * 10 ^ 14 ->
  (A - B) * 10 ^ 19 <= 31415926535897932385 * 2 ^ 149 ->
  False.
Proof.
  intros HA HB Hlo Hhi.
  destruct (Z_lt_le_dec (Z.abs B) (2 ^ 125)) as [HBs|HBb].
  - destruct (float_int_factor A 150 HA ltac:(lia)) as [t Ht]; [powers; lia|].
    change (150 - 23) with 127 in Ht. subst A. powers. lia.
  - destruct (Z_lt_le_dec (Z.abs A) (2 ^ 125)) as [HAs|HAb].
    + destruct (float_int_factor B 150 HB ltac:(lia)) as [t Ht]; [powers; lia|].
      change (150 - 23) with 127 in Ht. subst B. powers. lia.
    + destruct (float_int_factor A 125 HA ltac:(lia) HAb) as [t Ht].
      destruct (float_int_factor B 125 HB ltac:(lia) HBb) as [u Hu].
      change (125 - 23) with 102 in Ht, Hu. subst A B. powers. lia.
Qed.

Local Open Scope Q_scope.

Lemma float_gap_pos a b :
  binary32 a -> binary32 b -> PI <= a - b -> a - b <= PI_above -> False.
Proof.
  intros (ma & ka & Hma & Hka & Ha) (mb & kb & Hmb & Hkb & Hb) Hlo Hhi.
  assert (E : inject_Z (ma * 2 ^ ka - mb * 2 ^ kb) == (a - b) * inject_Z (2 ^ 149)).
  { unfold Zminus. rewrite inject_Z_plus, inject_Z_opp, <- Ha, <- Hb. ring. }
  apply (float_gap_Z (ma * 2 ^ ka) (mb * 2 ^ kb)).
  - exists ma, ka. auto.
  - exists mb, kb. auto.
  - assert (H : PI * inject_Z (2 ^ 149) <= inject_Z (ma * 2 ^ ka - mb * 2 ^ kb)).
    { rewrite E. apply Qmult_le_compat_r; [exact Hlo|discriminate]. }
    unfold Qle in H. simpl in H.
    change (Z.pos (100000000000000 * 1)) with (10 ^ 14)%Z in H. lia.
  - assert (H : inject_Z (ma * 2 ^ ka - mb * 2 ^ kb) <= PI_above * inject_Z (2 ^ 149)).
    { rewrite E. apply Qmult_le_compat_r; [exact Hhi|discriminate]. }
    unfold Qle in H. simpl in H.
    change (Z.pos (10000000000000000000 * 1)) with (10 ^ 19)%Z in H. lia.
Qed.

(** A jump between two binary32 values that does not exceed pi is below
    the constant [PI] of the program. *)
Lemma float_gap a b :
  binary32 a -> binary32 b -> Qabs (a - b) <= PI_above -> Qabs (a - b) < PI.
Proof.
  intros Ha Hb Hle. destruct (Qlt_le_dec (Qabs (a - b)) PI) as [|Hge]; [assumption|].
  exfalso. destruct (Qlt_le_dec (a - b) 0) as [Hneg|Hpos].
  - rewrite Qabs_neg in Hle, Hge by (apply Qlt_le_weak, Hneg).
    apply (float_gap_pos b a Hb Ha).
    + setoid_replace (b - a) with (- (a - b)) using relation Qeq by ring. exact Hge.
    + setoid_replace (b - a) with (- (a - b)) using relation Qeq by ring. exact Hle.
  - rewrite Qabs_pos in Hle, Hge by exact Hpos.
    apply (float_gap_pos a b Ha Hb); assumption.
Qed.

Section ContinuousRun.
Variable g : globals.
Variable ph : Z -> Q.
Hypothesis Hg : wf_globals g.
Hypothesis Hcont : continuous g ph.
Hypothesis Hfloat : forall p, in_buffer g p -> binary32 (ph p).

(** A neighbour visited from a record that carries its wrapped phase
    gets its own wrapped phase. *)
Lemma visit_value qe offp offx offy offz :
  entry_geom g qe -> qe_v qe = ph (qe_p qe) ->
  In (offp, offx, offy, offz) (six g) ->
  in_grid g (qe_x qe + offx) (qe_y qe + offy) (qe_z qe + offz) ->
  unwrap_value (ph (qe_p qe + offp)) (qe_v qe) = ph (qe_p qe + offp).
Proof.
  intros [Hin Hp] Hv Ho Hin'. rewrite Hv. apply unwrap_value_near.
  assert (Hp' : (qe_p qe + offp)%Z
                = flat g (qe_x qe + offx) (qe_y qe + offy) (qe_z qe + offz)).
  { rewrite Hp. symmetry. apply (six_flat g Hg), Ho. }
  apply float_gap.
  - apply Hfloat. rewrite Hp'. apply (flat_in_buffer g Hg), Hin'.
  - apply Hfloat. rewrite Hp. apply (flat_in_buffer g Hg), Hin.
  - apply Hcont. exists (qe_x qe), (qe_y qe), (qe_z qe), offp, offx, offy, offz.
    auto.
Qed.

(** On a continuous binary32 field, transitions keep the records
    carrying wrapped phases and the output equal to the input on the
    visited voxels. *)
Lemma identity_step ths c c' :
  Inv g (length ths) c -> phase (snd c) = ph ->
  carries_phase ph (length ths) c ->
  (forall p, in_buffer g p -> flag (snd c) p = true -> unwrapped (snd c) p = ph p) ->
  step g ths c c' ->
  carries_phase ph (length ths) c' /\
  (forall p, in_buffer g p -> flag (snd c') p = true -> unwrapped (snd c') p = ph p).
Proof.
  intros (He & Hwf & Hent & Hpc) Hph [Hcar Hcur] Hid Hstep.
  unfold carries_phase.
  destruct Hstep as [i s qe q j Hi He' HP s1 Hgt Hscan
                    |i s qe q Hi He' HP s1 Hgt Hscan
                    |i s qe q Hi He' HP s1 Hgt
                    |i qe s [[[offp offx] offy] offz] Ho
                    |i qe s
                    |i s Hi Hfin]; try subst s1;
    simpl in He, Hwf, Hent, Hpc, Hph, Hcar, Hcur, Hid |- *.
  - (* defer *)
    destruct (Pop_Some_inv _ _ _ (Hwf i Hi) HP) as [Hc Hq].
    pose proof (scan_target _ _ _ _ Hscan) as Hj.
    pose proof (Hcar i Hi) as Hci. rewrite Hc in Hci.
    apply Forall_cons in Hci as [Hqe Hci].
    split; [split; [|exact I]|exact Hid].
    intros k Hk. destruct (Nat.eqb_spec k j) as [->|].
    + assert (Hji : (j =? i)%nat = false) by (apply Nat.eqb_neq; lia).
      rewrite Hji.
      destruct (Push_spec junk_entry (queues s j) qe (Hwf j ltac:(lia)))
        as (_ & _ & ->).
      apply Forall_app. split; [apply Hcar; lia|]. apply Forall_singleton, Hqe.
    + destruct (Nat.eqb_spec k i) as [->|]; [exact Hci|]. apply Hcar, Hk.
  - (* the scan leaves the array *)
    destruct (Pop_Some_inv _ _ _ (Hwf i Hi) HP) as [Hc Hq].
    pose proof (Hcar i Hi) as Hci. rewrite Hc in Hci.
    apply Forall_cons in Hci as [Hqe Hci].
    split; [split; [|exact I]|exact Hid].
    intros k Hk. destruct (Nat.eqb_spec k i) as [->|]; [exact Hci|]. apply Hcar, Hk.
  - (* accept *)
    destruct (Pop_Some_inv _ _ _ (Hwf i Hi) HP) as [Hc Hq].
    pose proof (Hcar i Hi) as Hci. rewrite Hc in Hci.
    apply Forall_cons in Hci as [Hqe Hci].
    split; [split; [|exact Hqe]|exact Hid].
    intros k Hk. destruct (Nat.eqb_spec k i) as [->|]; [exact Hci|]. apply Hcar, Hk.
  - (* one check *)
    destruct Hpc as [Hi [Hgeo Hfl]].
    apply (Check_at_cases g
             (fun s' =>
                ((forall k, (k < length ths)%nat ->
                    Forall (fun qe0 => qe_v qe0 = ph (qe_p qe0))
                           (contents (queues s' k))) /\
                 qe_v qe = ph (qe_p qe)) /\
                (forall p, in_buffer g p -> flag s' p = true -> unwrapped s' p = ph p))).
    + intros _. auto.
    + intros _ _. auto.
    + intros Hin Hf.
      pose proof (visit_value qe offp offx offy offz Hgeo Hcur Ho Hin) as Hval.
      destruct (visit_fields g i qe offp offx offy offz s) as (_ & _ & _ & Ef & Eu).
      split; [split; [|exact Hcur]|].
      * intros k Hk. unfold visit. simpl.
        destruct (Nat.eqb_spec k i) as [->|]; [|apply Hcar, Hk].
        match goal with
        | |- context [Push junk_entry (queues s i) ?x] =>
            destruct (Push_spec junk_entry (queues s i) x (Hwf i Hi)) as (_ & _ & ->)
        end.
        apply Forall_app. split; [apply Hcar, Hi|].
        apply Forall_singleton. simpl. rewrite Hph. exact Hval.
      * intros p Hp. rewrite Ef, Eu. unfold upd.
        destruct (Z.eqb_spec p (qe_p qe + offp)) as [->|_].
        -- intros _. rewrite Hph. exact Hval.
        -- apply Hid, Hp.
  - (* the expansion is over *)
    split; [split; [exact Hcar|exact I]|exact Hid].
  - (* next bin *)
    destruct Hfin as [Hfin|Hfin]; [contradiction|].
    destruct (wf_TerminateQueue _ (Hwf i Hi) (Pop_None_inv _ Hfin)) as [_ Hct].
    split; [split; [|exact I]|exact Hid].
    intros k Hk. destruct (Nat.eqb_spec k i) as [->|]; [|apply Hcar, Hk].
    rewrite Hct. constructor.
Qed.

End ContinuousRun.

End Continuous.


(** C7.  On a grid with positive dimensions whose wrapped phases are
    binary32 numbers ([float]) and continuous, no jump between two
    6-connected neighbours exceeding pi (here: the rational [PI_above],
    above pi), every voxel the call has reached holds in the output its
    wrapped phase: the unwrap is the identity on the reached region, at
    every point of the run. *)
Theorem continuous_input_unchanged
    (fuel : nat) (d0 d1 d2 B : Z) (s : Unwrap.state) (p : Z) :
  (0 < d0)%Z -> (0 < d1)%Z -> (0 < d2)%Z ->
  (forall i, Unwrap.in_buffer (Unwrap.main_globals d0 d1 d2) i ->
             Unwrap.binary32 (Unwrap.phase s i)) ->
  Unwrap.continuous (Unwrap.main_globals d0 d1 d2) (Unwrap.phase s) ->
  Unwrap.in_buffer (Unwrap.main_globals d0 d1 d2) p ->
  Unwrap.flag (Unwrap.state_of (Unwrap.robustUnwrapMain fuel d0 d1 d2 B s)) p = true ->
  Unwrap.unwrapped (Unwrap.state_of (Unwrap.robustUnwrapMain fuel d0 d1 d2 B s)) p
  = Unwrap.phase s p.
Proof.
  intros H0 H1 H2 Hfloat Hcont. rewrite robustUnwrapMain_unwrap.
  set (g := Unwrap.main_globals d0 d1 d2) in *.
  set (s0 := Unwrap.prepared d0 d1 d2 s).
  pose proof (wf_main_globals d0 d1 d2 H0 H1 H2) as Hg. fold g in Hg.
  pose proof (default_seed_in_grid d0 d1 d2 H0 H1 H2) as Hseed. fold g in Hseed.
  destruct (prepared_fields d0 d1 d2 s) as (_ & Hph & _). fold s0 in Hph.
  pose (J := fun (ths : list Q) (c : Unwrap.pc * Unwrap.state) =>
               Unwrap.Inv g (length ths) c /\
               Unwrap.phase (snd c) = Unwrap.phase s /\
               Unwrap.carries_phase (Unwrap.phase s) (length ths) c /\
               forall p, Unwrap.in_buffer g p -> Unwrap.flag (snd c) p = true ->
                         Unwrap.unwrapped (snd c) p = Unwrap.phase s p).
  destruct (unwrap_invariant J fuel g (Unwrap.default_seed d0)
              (Unwrap.default_seed d1) (Unwrap.default_seed d2) B s0)
    as (pc & (_ & _ & _ & HJ) & _).
  - intros ths c c' (HI & Ep & Hcar & Hid) Hstep.
    split; [eapply Inv_step; eassumption|].
    split; [destruct (step_keeps_inputs g ths c c' Hstep) as (E & _); congruence|].
    apply (identity_step g (Unwrap.phase s) Hg Hcont Hfloat ths c c'); assumption.
  - split; [apply Inv_init; assumption|].
    destruct (unwrap_init_fields g (Unwrap.default_seed d0)
                (Unwrap.default_seed d1) (Unwrap.default_seed d2) B s0)
      as (mn & mx & _ & _ & _ & _ & _ & _ & _ & _ & Ep & _ & _ & Eu & Ef & Eq & _).
    split; [simpl; congruence|]. split; [split; [|exact I]|].
    + intros k Hk. simpl. rewrite Eq. rewrite length_unwrap_init in Hk.
      destruct (Nat.eqb_spec k 0) as [->|].
      * destruct (Push_spec Unwrap.junk_entry
                    (Queue.InitQueue Unwrap.sizeof_QUEUEENTRY)
                    (Unwrap.mkQE (Unwrap.default_seed d0) (Unwrap.default_seed d1)
                       (Unwrap.default_seed d2)
                       (Unwrap.flat g (Unwrap.default_seed d0)
                          (Unwrap.default_seed d1) (Unwrap.default_seed d2))
                       (Unwrap.phase s0
                          (Unwrap.flat g (Unwrap.default_seed d0)
                             (Unwrap.default_seed d1) (Unwrap.default_seed d2))))
                    (wf_InitQueue Unwrap.sizeof_QUEUEENTRY eq_refl)) as (_ & _ & ->).
        simpl. apply Forall_singleton. simpl. rewrite Hph. reflexivity.
      * destruct (decide _); [constructor|lia].
    + intros p' Hin. simpl. rewrite Ef, Eu.
      destruct (Z.eqb_spec p' (Unwrap.flat g (Unwrap.default_seed d0)
                  (Unwrap.default_seed d1) (Unwrap.default_seed d2))) as [->|_].
      * intros _. unfold Unwrap.upd at 1. rewrite Z.eqb_refl, Hph. reflexivity.
      * destruct (decide _); [discriminate|contradiction].
  - apply HJ.
Qed.

(** Scenario A: the 3 x 3 x 3 grid of constant phase 1/2 and risk 0. *)
Lemma continuous_input_unchanged_witness :
  let s := Unwrap.start (fun _ => 1 # 2) (fun _ => 0%Q) (fun _ => 0%Q) in
  Unwrap.unwrapped (Unwrap.state_of (Unwrap.robustUnwrapMain 200 3 3 3 2 s)) 0
  = Unwrap.phase s 0.
Proof.
  intros s.
  apply (continuous_input_unchanged 200 3 3 3 2 s 0); try lia.
  - intros i _. exists 1, 148. repeat split; lia.
  - intros p p' _. vm_compute. discriminate.
  - unfold Unwrap.in_buffer. simpl. lia.
  - vm_compute. reflexivity.
Defined.

(** Why the phases are taken as binary32 numbers: over all rationals a
    jump of exactly [PI] is within the bound and is corrected by a turn.
    No binary32 pair has such a difference ([float_gap]). *)
Remark exact_jump_of_PI_is_corrected :
  let s := Unwrap.start (Unwrap.buffer_of [0; Unwrap.PI]%Q) (fun _ => 0%Q)
                        (fun _ => 0%Q) in
  let o := Unwrap.robustUnwrapMain 10 2 1 1 2 s in
  Unwrap.finished o = true /\
  (Unwrap.phase s 1 - Unwrap.phase s 0 == Unwrap.PI)%Q /\
  (Unwrap.unwrapped (Unwrap.state_of o) 1 == - Unwrap.PI)%Q.
Proof. vm_compute. repeat split. Qed.


(** ** Termination *)

Section Measure.
Import Queue Unwrap.

Lemma count_false_nonneg f l : 0 <= count_false f l.
Proof. induction l as [|x l IH]; simpl; [lia|]. destruct (f x); lia. Qed.

Lemma count_false_upd_notin f l p b :
  ~ In p l -> count_false (upd f p b) l = count_false f l.
Proof.
  induction l as [|x l IH]; simpl; intros Hn; [reflexivity|].
  rewrite IH by tauto. unfold upd at 1.
  destruct (Z.eqb_spec x p) as [->|]; [tauto|reflexivity].
Qed.

Lemma count_false_visit f l p :
  NoDup l -> In p l -> f p = false ->
  count_false (upd f p true) l = count_false f l - 1.
Proof.
  induction 1 as [|x l Hx Hnd IH]; simpl; intros Hin Hf; [destruct Hin|].
  rewrite list_elem_of_In in Hx. destruct Hin as [->|Hin].
  - rewrite count_false_upd_notin by exact Hx.
    unfold upd at 1. rewrite Z.eqb_refl, Hf. lia.
  - rewrite IH by assumption. unfold upd at 1.
    destruct (Z.eqb_spec x p) as [->|]; [contradiction|]. lia.
Qed.

Lemma count_false_ext f f' l :
  (forall p, In p l -> f' p = f p) -> count_false f' l = count_false f l.
Proof.
  induction l as [|x l IH]; intros H; simpl; [reflexivity|].
  rewrite IH by (intros; apply H; right; assumption).
  rewrite (H x) by (left; reflexivity). reflexivity.
Qed.

Lemma count_false_clear l : count_false (fun _ => false) l = Z.of_nat (length l).
Proof. induction l as [|x l IH]; simpl length; simpl count_false; lia. Qed.

Lemma count_false_pos f l p : In p l -> f p = false -> 1 <= count_false f l.
Proof.
  induction l as [|x l IH]; simpl; intros Hin Hf; [destruct Hin|].
  pose proof (count_false_nonneg f l). destruct Hin as [->|Hin].
  - rewrite Hf. lia.
  - specialize (IH Hin Hf). destruct (f x); lia.
Qed.

Lemma total_ext h h' n :
  (forall k, (k < n)%nat -> h' k = h k) -> total h' n = total h n.
Proof.
  induction n as [|n IH]; intros H; simpl; [reflexivity|].
  rewrite IH by (intros; apply H; lia). rewrite H by lia. reflexivity.
Qed.

Lemma total_change h h' n k0 :
  (k0 < n)%nat -> (forall k, (k < n)%nat -> k <> k0 -> h' k = h k) ->
  total h' n = total h n + (h' k0 - h k0).
Proof.
  induction n as [|n IH]; intros Hk H; simpl; [lia|].
  destruct (Nat.eq_dec k0 n) as [->|Hne].
  - rewrite (total_ext h h' n) by (intros; apply H; lia). lia.
  - rewrite IH by (try lia; intros; apply H; lia). rewrite (H n) by lia. lia.
Qed.

Lemma total_nonneg h n : (forall k, (k < n)%nat -> 0 <= h k) -> 0 <= total h n.
Proof.
  induction n as [|n IH]; intros H; simpl; [lia|].
  pose proof (H n ltac:(lia)) as Hn.
  assert (0 <= total h n) by (apply IH; intros; apply H; lia). lia.
Qed.

Lemma potential_nonneg g N s : 0 <= potential g N s.
Proof.
  unfold potential, unvisited, waiting.
  pose proof (count_false_nonneg (flag s) (seqZ 0 (sze g))).
  assert (0 <= total (fun k => (Z.of_nat N - Z.of_nat k)
                               * Z.of_nat (length (contents (queues s k)))) N)
    by (apply total_nonneg; intros k Hk; nia).
  nia.
Qed.

(** When the bin loop is entered all voxels but the seed are
    unvisited. *)
Lemma unvisited_init g seedx seedy seedz B s :
  wf_globals g -> in_grid g seedx seedy seedz ->
  unvisited g (snd (unwrap_init g seedx seedy seedz B s)) = sze g - 1.
Proof.
  intros Hg Hseed.
  destruct (unwrap_init_fields g seedx seedy seedz B s)
    as (mn & mx & _ & _ & _ & _ & _ & _ & _ & _ & _ & _ & _ & _ & Ef & _).
  set (seedp := flat g seedx seedy seedz) in *.
  pose proof (flat_in_buffer g Hg _ _ _ Hseed) as Hsp. fold seedp in Hsp.
  unfold unvisited.
  rewrite (count_false_ext (upd (fun _ => false) seedp true)).
  - rewrite count_false_visit;
      [|apply NoDup_seqZ|apply In_seqZ; unfold in_buffer in Hsp; lia|reflexivity].
    rewrite count_false_clear, length_seqZ. unfold in_buffer in Hsp. lia.
  - intros p Hp. apply In_seqZ in Hp. rewrite Ef. unfold upd.
    destruct (p =? seedp); [reflexivity|].
    destruct (decide (in_buffer g p)) as [_|Hn]; [reflexivity|].
    exfalso. apply Hn. unfold in_buffer. lia.
Qed.

End Measure.

Section Progress.
Import Queue Unwrap.
Variable g : globals.
Variable ths : list Q.
Hypothesis Hg : wf_globals g.

Lemma waiting_same N s s' :
  queues s = queues s' -> waiting N s = waiting N s'.
Proof. intros E. unfold waiting. rewrite E. reflexivity. Qed.

Lemma waiting_pop N s i q qe :
  (i < N)%nat -> contents (queues s i) = qe :: contents q ->
  waiting N (set_queue i q s) = waiting N s - (Z.of_nat N - Z.of_nat i).
Proof.
  intros Hi Hc. unfold waiting.
  rewrite (total_change
             (fun k => (Z.of_nat N - Z.of_nat k)
                       * Z.of_nat (length (contents (queues s k))))
             (fun k => (Z.of_nat N - Z.of_nat k)
                       * Z.of_nat (length (contents (queues (set_queue i q s) k))))
             N i Hi).
  - simpl. rewrite Nat.eqb_refl, Hc. simpl length. lia.
  - intros k _ Hk. simpl. destruct (Nat.eqb_spec k i); [contradiction|reflexivity].
Qed.

Lemma waiting_push N s j q x :
  (j < N)%nat -> contents q = contents (queues s j) ++ [x] ->
  waiting N (set_queue j q s) = waiting N s + (Z.of_nat N - Z.of_nat j).
Proof.
  intros Hj Hc. unfold waiting.
  rewrite (total_change
             (fun k => (Z.of_nat N - Z.of_nat k)
                       * Z.of_nat (length (contents (queues s k))))
             (fun k => (Z.of_nat N - Z.of_nat k)
                       * Z.of_nat (length (contents (queues (set_queue j q s) k))))
             N j Hj).
  - simpl. rewrite Nat.eqb_refl, Hc, length_app. simpl length. lia.
  - intros k _ Hk. simpl. destruct (Nat.eqb_spec k j); [contradiction|reflexivity].
Qed.

(** A check does not raise the measure. *)
Lemma Check_potential i qe o s :
  In o (six g) -> Inv g (length ths) (Expanding i qe, s) ->
  Inv g (length ths) (Expanding i qe, Check_at g i qe o s) /\
  potential g (length ths) (Check_at g i qe o s) <= potential g (length ths) s.
Proof.
  intros Ho HI.
  split; [exact (Inv_step g ths Hg _ _ HI (step_check g ths i qe s o Ho))|].
  destruct HI as (_ & Hwf & _ & Hi & Hgeo & _). simpl in Hwf, Hi, Hgeo.
  destruct o as [[[offp offx] offy] offz].
  apply (Check_at_cases g
           (fun s' => potential g (length ths) s' <= potential g (length ths) s)).
  - intros _. lia.
  - intros _ _. unfold potential, unvisited.
    rewrite (waiting_same _ (log (Rd Bflag (qe_p qe + offp)) s) s) by reflexivity.
    simpl. lia.
  - intros Hin Hf. unfold potential, unvisited, visit.
    set (np := qe_p qe + offp).
    assert (Hnp : in_buffer g np).
    { unfold np. destruct Hgeo as [_ ->]. rewrite <- (six_flat g Hg _ _ _ _ _ _ _ Ho).
      apply flat_in_buffer; assumption. }
    match goal with
    | |- context [set_queue i (snd (Push junk_entry ?q0 ?x)) ?s0] =>
        destruct (Push_spec junk_entry q0 x (Hwf i Hi)) as (_ & _ & Hc);
        rewrite (waiting_push (length ths) s0 i _ x Hi Hc)
    end.
    simpl. rewrite count_false_visit.
    + match goal with
      | |- context [waiting ?n ?s0] =>
          rewrite (waiting_same n s0 s) by reflexivity
      end. lia.
    + apply NoDup_seqZ.
    + apply In_seqZ. unfold in_buffer in Hnp. lia.
    + exact Hf.
Qed.

Lemma checks_potential i qe (os : list (Z * Z * Z * Z)) s :
  (forall o, In o os -> In o (six g)) ->
  Inv g (length ths) (Expanding i qe, s) ->
  Inv g (length ths)
      (Expanding i qe, foldl (fun s o => Check_at g i qe o s) s os) /\
  potential g (length ths) (foldl (fun s o => Check_at g i qe o s) s os)
  <= potential g (length ths) s.
Proof.
  revert s. induction os as [|o os IH]; intros s Hos HI; simpl.
  - split; [exact HI|lia].
  - destruct (Check_potential i qe o s (Hos o (or_introl eq_refl)) HI) as [HI' Hle].
    destruct (IH (Check_at g i qe o s) ltac:(intros; apply Hos; right; assumption) HI')
      as [HI'' Hle'].
    split; [exact HI''|lia].
Qed.

Local Open Scope Q_scope.

(** The risk values the loop reads are those of the field the thresholds
    were computed from, all within the last threshold. *)
Variable mg : Z -> Q.
Hypothesis Hlast :
  forall p, in_buffer g p -> mg p <= nth (length ths - 1) ths 0.

(** One iteration of the [while] loop lowers the measure. *)
Lemma process_progress i s qe q :
  Inv g (length ths) (Loop i, s) -> (i < length ths)%nat -> mag s = mg ->
  Pop junk_entry (queues s i) = Some (qe, q) ->
  exists s', process g ths i qe (set_queue i q s) = Some s' /\
             Inv g (length ths) (Loop i, s') /\ mag s' = mg /\
             (potential g (length ths) s' < potential g (length ths) s)%Z.
Proof.
  intros HI Hi Hm HP.
  pose proof HI as (He & Hwf & _).  simpl in He, Hwf.
  destruct (Pop_Some_inv _ _ _ (Hwf i Hi) HP) as [Hc Hq].
  destruct (popped_entry_ok g _ i s qe q HI Hi HP) as [Hgeo _].
  unfold process.
  set (s1 := log (Rd Bmag (qe_p qe)) (set_queue i q s)).
  assert (Hpot1 : potential g (length ths) s1
                  = (potential g (length ths) s
                     - (Z.of_nat (length ths) - Z.of_nat i))%Z).
  { unfold potential, unvisited.
    rewrite (waiting_same _ s1 (set_queue i q s)) by reflexivity.
    rewrite (waiting_pop _ s i q qe Hi Hc). simpl. lia. }
  destruct (Qgt_bool (mag s1 (qe_p qe)) (nth i ths 0)) eqn:Hgt.
  - destruct (scan_halts ths (mag s1 (qe_p qe)) i Hi Hgt) as (j & Hj & Hij).
    { simpl. rewrite Hm. apply Hlast, (entry_in_buffer g Hg), Hgeo. }
    rewrite Hj. eexists. split; [reflexivity|].
    pose proof (step_defer g ths i s qe q j Hi He HP Hgt Hj) as Hstep.
    split; [exact (Inv_step g ths Hg _ _ HI Hstep)|]. split; [exact Hm|].
    assert (Hji : (j =? i)%nat = false) by (apply Nat.eqb_neq; lia).
    destruct (Push_spec junk_entry (queues s1 j) qe) as (_ & _ & Hcj).
    { simpl. rewrite Hji. apply Hwf. lia. }
    unfold potential, unvisited in *.
    rewrite (waiting_push (length ths) s1 j _ qe (proj2 Hij) Hcj).
    simpl in *. lia.
  - eexists. split; [reflexivity|].
    pose proof (step_accept g ths i s qe q Hi He HP Hgt) as Hstep.
    pose proof (Inv_step g ths Hg _ _ HI Hstep) as HI1. fold s1 in HI1.
    rewrite expand_fold.
    destruct (checks_potential i qe (six g) s1 ltac:(auto) HI1) as [HI2 Hle].
    split; [exact (Inv_step g ths Hg _ _ HI2 (step_done g ths i qe _))|].
    split.
    + pose proof (checks_reach g ths i qe (six g) s1 ltac:(auto)) as Hr.
      assert (Hkeep : forall c c', rtc (step g ths) c c' -> mag (snd c') = mag (snd c)).
      { induction 1 as [|c1 c2 c3 H12 _ IH]; [reflexivity|].
        rewrite IH. apply (step_keeps_inputs g ths c1 c2 H12). }
      pose proof (Hkeep _ _ Hr) as E. cbn [snd] in E. rewrite E. exact Hm.
    + lia.
Qed.

(** With fuel above the measure the [while] loop of a bin runs to its
    end, leaving the queue of the bin empty. *)
Lemma drain_terminates fuel i s :
  Inv g (length ths) (Loop i, s) -> (i < length ths)%nat -> mag s = mg ->
  (potential g (length ths) s < Z.of_nat fuel)%Z ->
  exists s', drain fuel g ths i s = Finished s' /\
             Inv g (length ths) (Loop i, s') /\ mag s' = mg /\
             (potential g (length ths) s' <= potential g (length ths) s)%Z /\
             Pop junk_entry (queues s' i) = None.
Proof.
  revert s. induction fuel as [|fuel IH]; intros s HI Hi Hm Hpot.
  - pose proof (potential_nonneg g (length ths) s). lia.
  - pose proof HI as (He & _). simpl in He. simpl. rewrite He. simpl.
    destruct (Pop junk_entry (queues s i)) as [[qe q]|] eqn:HP.
    + destruct (process_progress i s qe q HI Hi Hm HP) as (s1 & Hp & HI1 & Hm1 & Hlt).
      rewrite Hp.
      destruct (IH s1 HI1 Hi Hm1 ltac:(lia)) as (s' & Hd & HI2 & Hm2 & Hle & Hnone).
      exists s'. split; [exact Hd|]. split; [exact HI2|]. split; [exact Hm2|].
      split; [lia|exact Hnone].
    + exists s. split; [reflexivity|]. split; [exact HI|]. split; [exact Hm|].
      split; [lia|exact HP].
Qed.

(** With fuel above the measure the loop over the bins runs to its
    end. *)
Lemma bins_terminates fuel n i s :
  (i + n = length ths)%nat ->
  Inv g (length ths) (Loop i, s) -> mag s = mg ->
  (potential g (length ths) s < Z.of_nat fuel)%Z ->
  exists s', bins fuel g ths n i s = Finished s'.
Proof.
  revert i s. induction n as [|n IH]; intros i s Hn HI Hm Hpot; simpl.
  - eexists. reflexivity.
  - destruct (drain_terminates fuel i s HI ltac:(lia) Hm Hpot)
      as (s1 & -> & HI1 & Hm1 & Hle & Hnone).
    pose proof HI1 as (He & Hwf & _). simpl in He, Hwf.
    simpl. rewrite He. simpl.
    pose proof (step_next g ths i s1 ltac:(lia) (or_intror Hnone)) as Hstep.
    apply IH; [lia|exact (Inv_step g ths Hg _ _ HI1 Hstep)|exact Hm1|].
    assert (Hempty : contents (queues s1 i) = []).
    { pose proof (Pop_spec junk_entry (queues s1 i) (Hwf i ltac:(lia))) as H.
      destruct (contents (queues s1 i)); [reflexivity|].
      destruct H as (q' & H & _). congruence. }
    destruct (wf_TerminateQueue _ (Hwf i ltac:(lia)) (Pop_None_inv _ Hnone))
      as [_ Hct].
    unfold potential, unvisited in *. unfold waiting in *.
    rewrite (total_ext
               (fun k => (Z.of_nat (length ths) - Z.of_nat k)
                         * Z.of_nat (length (contents (queues s1 k))))%Z).
    + simpl. simpl in Hle. lia.
    + intros k Hk. simpl. destruct (Nat.eqb_spec k i) as [->|]; [|reflexivity].
      rewrite Hct, Hempty. reflexivity.
Qed.

End Progress.

(** On a grid with positive dimensions the call returns: with fuel above
    the measure of the state in which the bin loop is entered, the run
    of [robustUnwrapMain] finishes. *)
Theorem robustUnwrapMain_terminates
    (fuel : nat) (d0 d1 d2 B : Z) (s : Unwrap.state) :
  (0 < d0)%Z -> (0 < d1)%Z -> (0 < d2)%Z ->
  let g := Unwrap.main_globals d0 d1 d2 in
  let init := Unwrap.unwrap_init g (Unwrap.default_seed d0) (Unwrap.default_seed d1)
                (Unwrap.default_seed d2) B (Unwrap.prepared d0 d1 d2 s) in
  (Unwrap.potential g (length (fst init)) (snd init) < Z.of_nat fuel)%Z ->
  exists s', Unwrap.robustUnwrapMain fuel d0 d1 d2 B s = Unwrap.Finished s'.
Proof.
  intros H0 H1 H2 g init Hfuel. rewrite robustUnwrapMain_unwrap. fold g.
  set (s0 := Unwrap.prepared d0 d1 d2 s) in *.
  pose proof (wf_main_globals d0 d1 d2 H0 H1 H2) as Hg. fold g in Hg.
  pose proof (default_seed_in_grid d0 d1 d2 H0 H1 H2) as Hseed. fold g in Hseed.
  destruct (thresholds_of_field g (Unwrap.default_seed d0) (Unwrap.default_seed d1)
              (Unwrap.default_seed d2) B s0 Hg) as (_ & _ & _ & Hge & _).
  pose proof (Inv_init g _ _ _ B s0 Hg Hseed) as HI.
  destruct (unwrap_init_fields g (Unwrap.default_seed d0) (Unwrap.default_seed d1)
              (Unwrap.default_seed d2) B s0)
    as (mn & mx & _ & _ & _ & _ & _ & _ & _ & _ & _ & _ & Eg & _).
  unfold Unwrap.unwrap. fold init in Hge, HI, Eg |- *.
  destruct init as [ths s1]. simpl in *.
  apply (bins_terminates g ths Hg (Unwrap.mag s0) Hge fuel (length ths) 0 s1);
    [reflexivity|exact HI|exact Eg|exact Hfuel].
Qed.

(** Scenario A returns within 200 iterations. *)
Lemma robustUnwrapMain_terminates_witness :
  exists s', Unwrap.robustUnwrapMain 200 3 3 3 2
               (Unwrap.start (fun _ => 1 # 2) (fun _ => 0%Q) (fun _ => 0%Q))
             = Unwrap.Finished s'.
Proof.
  apply (robustUnwrapMain_terminates 200 3 3 3 2); try lia.
  vm_compute. reflexivity.
Defined.


(** ** What holds in spite of line 227 *)

Section Line227.
Import Queue Unwrap.

(** X17.  On a grid with positive dimensions every access of a call
    lies in the buffers, except the read and the write of line 227. *)
Theorem accesses_in_buffers_but_line_227 fuel d0 d1 d2 B s :
  0 < d0 -> 0 < d1 -> 0 < d2 ->
  extends (in_buffer_or_line_227 (main_globals d0 d1 d2)) s
          (state_of (robustUnwrapMain fuel d0 d1 d2 B s)).
Proof.
  intros H0 H1 H2. rewrite robustUnwrapMain_unwrap.
  set (g := main_globals d0 d1 d2).
  set (s0 := prepared d0 d1 d2 s).
  pose proof (wf_main_globals d0 d1 d2 H0 H1 H2) as Hg. fold g in Hg.
  pose proof (default_seed_in_grid d0 d1 d2 H0 H1 H2) as Hseed. fold g in Hseed.
  destruct (prepared_fields d0 d1 d2 s) as (_ & _ & _ & _ & _ & _ & _ & Htr).
  fold g s0 in Htr.
  pose (J := fun (ths : list Q) (c : pc * state) =>
               Inv g (length ths) c /\
               extends (in_buffer_or_line_227 g) s (snd c)).
  destruct (unwrap_invariant J fuel g (default_seed d0) (default_seed d1)
              (default_seed d2) B s0) as (p & (_ & HJ) & _); [| |exact HJ].
  - intros ths c c' (HI & Hx) Hstep.
    split; [eapply Inv_step; eassumption|].
    destruct Hstep as [i s1 qe q j Hi He HP s2 Hgt Hscan
                      |i s1 qe q Hi He HP s2 Hgt Hscan
                      |i s1 qe q Hi He HP s2 Hgt
                      |i qe s1 [[[offp offx] offy] offz] Ho
                      |i qe s1
                      |i s1 Hi Hfin]; try subst s2; cbn [snd] in Hx |- *.
    + eapply extends_cons; [exact Hx| |reflexivity]. left.
      apply (entry_in_buffer g Hg), (popped_entry_ok g _ i s1 qe q HI Hi HP).
    + eapply extends_cons; [exact Hx| |reflexivity]. left.
      apply (entry_in_buffer g Hg), (popped_entry_ok g _ i s1 qe q HI Hi HP).
    + eapply extends_cons; [exact Hx| |reflexivity]. left.
      apply (entry_in_buffer g Hg), (popped_entry_ok g _ i s1 qe q HI Hi HP).
    + destruct HI as (_ & _ & _ & _ & [Hin Hp] & _). cbn [snd fst] in Hin, Hp.
      assert (Hnp : in_grid g (qe_x qe + offx) (qe_y qe + offy) (qe_z qe + offz) ->
                    in_buffer g (qe_p qe + offp)).
      { intros Hin'. rewrite Hp, <- (six_flat g Hg _ _ _ _ _ _ _ Ho).
        apply flat_in_buffer; assumption. }
      apply (Check_at_cases g (extends (in_buffer_or_line_227 g) s)).
      * intros _. exact Hx.
      * intros Hin' _. eapply extends_cons; [exact Hx| |reflexivity]. left. auto.
      * intros Hin' _.
        eapply extends_app;
          [exact Hx| |exact (trace_visit g i qe offp offx offy offz s1)].
        repeat (apply Forall_cons; split; [left; simpl; auto|]). constructor.
    + exact Hx.
    + eapply extends_same; [exact Hx|reflexivity].
  - split; [apply Inv_init; assumption|]. cbn [snd].
    destruct (unwrap_init_fields g (default_seed d0) (default_seed d1)
                (default_seed d2) B s0)
      as (mn & mx & _ & _ & _ & _ & _ & _ & _ & _ & _ & _ & _ & _ & _ & _ & Et).
    rewrite !app_assoc in Et.
    eapply extends_app; [| |exact Et].
    + exists (rev (flat_map (fun i => [Rd Bmaginput i; Wr Bmag i]) (seqZ 0 (sze g)))).
      split; [exact Htr|]. apply Forall_forall. intros a Ha.
      apply list_elem_of_In, in_rev, in_flat_map in Ha. destruct Ha as (i & Hi & Ha).
      apply In_seqZ in Hi. left.
      destruct Ha as [<-|[<-|[]]]; unfold in_buffer, index_of; lia.
    + pose proof (flat_in_buffer g Hg _ _ _ Hseed) as Hsp.
      apply Forall_app. split; [apply Forall_app; split|].
      * repeat (apply Forall_cons; split;
                [first [left; exact Hsp|right; left; reflexivity
                       |right; right; reflexivity]|]).
        constructor.
      * apply Forall_forall. intros a Ha.
        apply list_elem_of_In, in_rev, in_map_iff in Ha. destruct Ha as (i & <- & Hi).
        apply In_seqZ in Hi. left. unfold in_buffer, index_of. lia.
      * apply Forall_forall. intros a Ha.
        apply list_elem_of_In, in_rev, in_map_iff in Ha. destruct Ha as (i & <- & Hi).
        apply In_seqZ in Hi. left. unfold in_buffer, index_of. lia.
Qed.

Lemma writes_app b l1 l2 : writes b (l1 ++ l2) = writes b l1 ++ writes b l2.
Proof.
  induction l1 as [|[b' i|b' i] l1 IH]; simpl; [reflexivity|exact IH|].
  destruct (buffer_eqb b b'); simpl; rewrite IH; reflexivity.
Qed.

Lemma writes_reads b (f : Z -> access) l :
  (forall i, exists b' j, f i = Rd b' j) -> writes b (rev (map f l)) = [].
Proof.
  intros Hf. induction l as [|x l IH]; simpl; [reflexivity|].
  rewrite writes_app, IH. destruct (Hf x) as (b' & j & ->). reflexivity.
Qed.

Lemma writes_flag_clear l :
  writes Bunwrapped (rev (map (Wr Bflag) l)) = [] /\
  writes Bflag (rev (map (Wr Bflag) l)) = rev l.
Proof.
  induction l as [|x l [IH1 IH2]]; simpl; [split; reflexivity|].
  rewrite !writes_app, IH1, IH2. split; reflexivity.
Qed.

Lemma writes_negate l b :
  b = Bunwrapped \/ b = Bflag ->
  writes b (rev (flat_map (fun i => [Rd Bmaginput i; Wr Bmag i]) l)) = [].
Proof.
  intros Hb. induction l as [|x l IH]; simpl; [reflexivity|].
  rewrite !writes_app, IH. destruct Hb as [-> | ->]; reflexivity.
Qed.

(** The visits of the bin loop: the voxels it visits are pairwise
    distinct and differ from the seed; each visit writes the flag and the
    output of its voxel once; visited voxels stay flagged. *)
Lemma loop_visits_once fuel g seedx seedy seedz B s :
  let seedp := flat g seedx seedy seedz in
  let s' := state_of (unwrap fuel g seedx seedy seedz B s) in
  exists new,
    trace s' = new ++ trace (snd (unwrap_init g seedx seedy seedz B s)) /\
    NoDup (seedp :: writes Bunwrapped new) /\
    writes Bflag new = writes Bunwrapped new /\
    (forall p, In p (seedp :: writes Bunwrapped new) -> flag s' p = true).
Proof.
  intros seedp s'. subst s'.
  set (s1 := snd (unwrap_init g seedx seedy seedz B s)).
  apply (unwrap_effect_invariant
           (fun s2 => exists new,
                trace s2 = new ++ trace s1 /\
                NoDup (seedp :: writes Bunwrapped new) /\
                writes Bflag new = writes Bunwrapped new /\
                (forall p, In p (seedp :: writes Bunwrapped new) -> flag s2 p = true))).
  - intros c s2 (new & Ht & Hnd & Hfw & Hfl) Heff.
    destruct Heff as [c s2 (_ & _ & _ & _ & _ & _ & Ef) Et
                     |i s3 qe q s2 _ (_ & _ & _ & _ & _ & _ & Ef) Et
                     |i qe s3 offp offx offy offz _ _ _
                     |i qe s3 offp offx offy offz _ _ Hf]; cbn [snd] in Ht, Hfl.
    + exists new. rewrite Et, Ef. auto.
    + exists (Rd Bmag (qe_p qe) :: new). rewrite Et, Ht, Ef. simpl. auto.
    + exists (Rd Bflag (qe_p qe + offp) :: new). simpl. rewrite Ht. auto.
    + exists ([Wr Bflag (qe_p qe + offp); Wr Bunwrapped (qe_p qe + offp);
               Rd Bphase (qe_p qe + offp); Rd Bflag (qe_p qe + offp)] ++ new).
      rewrite trace_visit, Ht, <- app_assoc.
      destruct (visit_fields g i qe offp offx offy offz s3) as (_ & _ & _ & Ef & _).
      split; [reflexivity|]. simpl. rewrite Hfw.
      assert (Hnew : ~ In (qe_p qe + offp) (seedp :: writes Bunwrapped new)).
      { intros Hin. apply Hfl in Hin. congruence. }
      split; [|split; [reflexivity|]].
      * apply NoDup_cons in Hnd as [Hs Hnd]. rewrite list_elem_of_In in Hs.
        apply NoDup_cons. split.
        -- rewrite list_elem_of_In. simpl in Hnew |- *.
           intros [E|E]; [apply Hnew; left; congruence|exact (Hs E)].
        -- apply NoDup_cons. split; [|exact Hnd].
           rewrite list_elem_of_In. simpl in Hnew. tauto.
      * intros p Hp. unfold upd.
        destruct (Z.eqb_spec p (qe_p qe + offp)); [reflexivity|].
        apply Hfl. simpl in Hp |- *. destruct Hp as [Hp|[Hp|Hp]]; auto.
        congruence.
  - exists []. split; [reflexivity|]. simpl.
    split; [apply NoDup_singleton|]. split; [reflexivity|].
    intros p [<-|[]].
    destruct (unwrap_init_fields g seedx seedy seedz B s)
      as (mn & mx & _ & _ & _ & _ & _ & _ & _ & _ & _ & _ & _ & _ & Ef & _).
    fold s1 in Ef. rewrite Ef. fold seedp. rewrite Z.eqb_refl. reflexivity.
Qed.

(** X18.  The output writes of a whole call: the visits of the loop, the
    seed, and the literal subscript 85 of line 227.  The visits and the seed
    are pairwise distinct, so an output entry is written twice only when
    it is entry 85. *)
Theorem output_written_once_but_line_227 fuel d0 d1 d2 B s :
  let g := main_globals d0 d1 d2 in
  let seedp := flat g (default_seed d0) (default_seed d1) (default_seed d2) in
  exists call visits,
    trace (state_of (robustUnwrapMain fuel d0 d1 d2 B s)) = call ++ trace s /\
    writes Bunwrapped call = visits ++ [seedp; 85] /\
    NoDup (visits ++ [seedp]) /\
    writes Bflag call = visits ++ [seedp] ++ rev (seqZ 0 (sze g)) /\
    (forall p, In p (visits ++ [seedp]) ->
       flag (state_of (robustUnwrapMain fuel d0 d1 d2 B s)) p = true).
Proof.
  intros g seedp. rewrite robustUnwrapMain_unwrap. fold g.
  set (s0 := prepared d0 d1 d2 s).
  destruct (loop_visits_once fuel g (default_seed d0) (default_seed d1)
              (default_seed d2) B s0) as (new & Ht & Hnd & Hfw & Hfl).
  fold seedp in Hnd, Hfl.
  destruct (unwrap_init_fields g (default_seed d0) (default_seed d1)
              (default_seed d2) B s0)
    as (mn & mx & _ & _ & _ & _ & _ & _ & _ & _ & _ & _ & _ & _ & _ & _ & Et).
  fold seedp in Et.
  destruct (prepared_fields d0 d1 d2 s) as (_ & _ & _ & _ & _ & _ & _ & Htr).
  fold g s0 in Htr.
  rewrite Et, Htr in Ht. rewrite !app_assoc in Ht.
  eexists. exists (writes Bunwrapped new). split; [exact Ht|].
  rewrite !writes_app.
  assert (E1 : forall b, writes b (rev (map (Rd Bmag) (seqZ 0 (sze g)))) = [])
    by (intros b; apply writes_reads; intros i; eauto).
  destruct (writes_flag_clear (seqZ 0 (sze g))) as [E2 E3].
  pose proof (writes_negate (seqZ 0 (sze g))) as E4.
  rewrite !E1, E2, E3, !E4, !app_nil_r, Hfw by auto. simpl.
  split; [reflexivity|].
  assert (Hperm : forall p, In p (writes Bunwrapped new ++ [seedp])
                            <-> In p (seedp :: writes Bunwrapped new)).
  { intros p. rewrite in_app_iff. simpl. tauto. }
  split; [|split; [rewrite <- app_assoc; reflexivity|]].
  - apply NoDup_app. apply NoDup_cons in Hnd as [Hs Hnd].
    split; [exact Hnd|]. split; [|apply NoDup_singleton].
    intros x Hx Hx'. apply list_elem_of_singleton in Hx'. subst x. contradiction.
  - intros p Hp. apply Hfl, Hperm, Hp.
Qed.

End Line227.


(** ** The frame of a call *)

(** C10.  On a grid with positive dimensions and more than 85 voxels,
    with at most [NUMQUEUES] bins, a call of [robustUnwrapMain] leaves
    the caller's wrapped-phase buffer and magnitude buffer as they were:
    the magnitude is copied, negated, into the private buffer [mag], and
    every access of the call lies inside the buffers and is a read or a
    write to [mag], to the flags or to the output buffer.  (With 85
    voxels or fewer the write [unwrapped[85]] of line 227 leaves the
    output buffer, and what it overwrites is not known.) *)
Theorem robustUnwrapMain_spares_inputs
    (fuel : nat) (d0 d1 d2 B : Z) (s : Unwrap.state) :
  0 < d0 -> 0 < d1 -> 0 < d2 -> 85 < d0 * d1 * d2 ->
  Z.max B 2 <= Queue.NUMQUEUES ->
  let g := Unwrap.main_globals d0 d1 d2 in
  let s' := Unwrap.state_of (Unwrap.robustUnwrapMain fuel d0 d1 d2 B s) in
  Unwrap.phase s' = Unwrap.phase s /\
  Unwrap.maginput s' = Unwrap.maginput s /\
  (forall i, Unwrap.in_buffer g i -> Unwrap.mag s' i = (- Unwrap.maginput s i)%Q) /\
  exists new, Unwrap.trace s' = new ++ Unwrap.trace s /\
              Forall (fun a => Unwrap.spares_inputs a /\
                               Unwrap.in_buffer g (Unwrap.index_of a)) new.
Proof.
  intros H0 H1 H2 H85 _ g s'. subst s'. rewrite robustUnwrapMain_unwrap. fold g.
  set (s0 := Unwrap.prepared d0 d1 d2 s).
  set (ok := fun a => Unwrap.spares_inputs a /\ Unwrap.in_buffer g (Unwrap.index_of a)).
  pose proof (wf_main_globals d0 d1 d2 H0 H1 H2) as Hg. fold g in Hg.
  pose proof (default_seed_in_grid d0 d1 d2 H0 H1 H2) as Hseed. fold g in Hseed.
  assert (Hin85 : Unwrap.in_buffer g 85)
    by (unfold Unwrap.in_buffer; simpl; lia).
  destruct (prepared_fields d0 d1 d2 s)
    as (_ & Hph & Hmi & _ & _ & _ & Hmag & Htr).
  fold g s0 in Hph, Hmi, Hmag, Htr.
  pose (J := fun (ths : list Q) (c : Unwrap.pc * Unwrap.state) =>
               Unwrap.Inv g (length ths) c /\
               Unwrap.phase (snd c) = Unwrap.phase s /\
               Unwrap.maginput (snd c) = Unwrap.maginput s /\
               Unwrap.mag (snd c) = Unwrap.mag s0 /\
               Unwrap.extends ok s (snd c)).
  destruct (unwrap_invariant J fuel g (Unwrap.default_seed d0)
              (Unwrap.default_seed d1) (Unwrap.default_seed d2) B s0)
    as (p & (_ & Hp & Hm & Hmg & Hx) & _).
  - intros ths c c' (HI & Hp & Hm & Hmg & Hx) Hstep.
    split; [eapply Inv_step; eassumption|].
    destruct (step_keeps_inputs g ths c c' Hstep) as (Ep & Em & Eg).
    split; [congruence|]. split; [congruence|]. split; [congruence|].
    destruct Hstep as [i s1 qe q j Hi He HP s2 Hgt Hscan
                      |i s1 qe q Hi He HP s2 Hgt Hscan
                      |i s1 qe q Hi He HP s2 Hgt
                      |i qe s1 [[[offp offx] offy] offz] Ho
                      |i qe s1
                      |i s1 Hi Hfin]; try subst s2; cbn [snd] in Hx |- *.
    + eapply extends_cons; [exact Hx| |reflexivity]. split; [exact I|].
      apply (entry_in_buffer g Hg), (popped_entry_ok g _ i s1 qe q HI Hi HP).
    + eapply extends_cons; [exact Hx| |reflexivity]. split; [exact I|].
      apply (entry_in_buffer g Hg), (popped_entry_ok g _ i s1 qe q HI Hi HP).
    + eapply extends_cons; [exact Hx| |reflexivity]. split; [exact I|].
      apply (entry_in_buffer g Hg), (popped_entry_ok g _ i s1 qe q HI Hi HP).
    + destruct HI as (_ & _ & _ & _ & [Hin Hq] & _). cbn [snd fst] in Hin, Hq.
      assert (Hnp : Unwrap.in_grid g (Unwrap.qe_x qe + offx) (Unwrap.qe_y qe + offy)
                                   (Unwrap.qe_z qe + offz) ->
                    Unwrap.in_buffer g (Unwrap.qe_p qe + offp)).
      { intros Hin'. rewrite Hq, <- (six_flat g Hg _ _ _ _ _ _ _ Ho).
        apply flat_in_buffer; assumption. }
      apply (Check_at_cases g (Unwrap.extends ok s)).
      * intros _. exact Hx.
      * intros Hin' _. eapply extends_cons; [exact Hx| |reflexivity].
        split; [exact I|]. auto.
      * intros Hin' _.
        eapply extends_app;
          [exact Hx| |exact (trace_visit g i qe offp offx offy offz s1)].
        repeat (apply Forall_cons; split; [split; [exact I|simpl; auto]|]).
        constructor.
    + exact Hx.
    + eapply extends_same; [exact Hx|reflexivity].
  - split; [apply Inv_init; assumption|]. cbn [snd].
    destruct (unwrap_init_fields g (Unwrap.default_seed d0)
                (Unwrap.default_seed d1) (Unwrap.default_seed d2) B s0)
      as (mn & mx & _ & _ & _ & _ & _ & _ & _ & _ & Ep & Em & Eg & _ & _ & _ & Et).
    split; [congruence|]. split; [congruence|]. split; [exact Eg|].
    rewrite !app_assoc in Et.
    eapply extends_app; [| |exact Et].
    + exists (rev (flat_map (fun i => [Unwrap.Rd Unwrap.Bmaginput i;
                                       Unwrap.Wr Unwrap.Bmag i])
                            (seqZ 0 (Unwrap.sze g)))).
      split; [exact Htr|]. apply Forall_forall. intros a Ha.
      apply list_elem_of_In, in_rev, in_flat_map in Ha. destruct Ha as (i & Hi & Ha).
      apply In_seqZ in Hi.
      destruct Ha as [<-|[<-|[]]]; (split; [exact I|]);
        unfold Unwrap.in_buffer, Unwrap.index_of; lia.
    + pose proof (flat_in_buffer g Hg _ _ _ Hseed) as Hsp.
      apply Forall_app. split; [apply Forall_app; split|].
      * repeat (apply Forall_cons; split;
                [split; [exact I|first [exact Hsp|exact Hin85]]|]).
        constructor.
      * apply Forall_forall. intros a Ha.
        apply list_elem_of_In, in_rev, in_map_iff in Ha. destruct Ha as (i & <- & Hi).
        apply In_seqZ in Hi. split; [exact I|].
        unfold Unwrap.in_buffer, Unwrap.index_of. lia.
      * apply Forall_forall. intros a Ha.
        apply list_elem_of_In, in_rev, in_map_iff in Ha. destruct Ha as (i & <- & Hi).
        apply In_seqZ in Hi. split; [exact I|].
        unfold Unwrap.in_buffer, Unwrap.index_of. lia.
  - cbn [snd] in Hp, Hm, Hmg, Hx.
    split; [exact Hp|]. split; [exact Hm|]. split; [|exact Hx].
    intros i Hi. rewrite Hmg. apply Hmag, Hi.
Qed.

(** A line of 86 voxels of wrapped phase 0 and magnitude 1. *)
Lemma robustUnwrapMain_spares_inputs_witness :
  let s := Unwrap.start (fun _ => 0%Q) (fun _ => 1%Q) (fun _ => 0%Q) in
  let s' := Unwrap.state_of (Unwrap.robustUnwrapMain 200 86 1 1 2 s) in
  (85 < 86 * 1 * 1 /\ Z.max 2 2 <= Queue.NUMQUEUES) /\
  Unwrap.phase s' = Unwrap.phase s /\
  Unwrap.maginput s' = Unwrap.maginput s.
Proof.
  intros s s'.
  assert (H85 : 85 < 86 * 1 * 1) by lia.
  assert (HB : Z.max 2 2 <= Queue.NUMQUEUES) by (unfold Queue.NUMQUEUES; lia).
  split; [split; assumption|].
  destruct (robustUnwrapMain_spares_inputs 200 86 1 1 2 s
              ltac:(lia) ltac:(lia) ltac:(lia) H85 HB) as (Hp & Hm & _).
  split; [exact Hp|exact Hm].
Defined.

(** * Further properties of the queue, the check and the run *)

Section QueueUse.
Import Queue.
Context {A : Type} (junk : A).
Implicit Types (q : queue (A := A)) (x : A) (l : list A).

Lemma length_contents q :
  wf q -> Z.of_nat (length (contents q)) = (m_top q - m_bot q) mod m_size q.
Proof.
  intros Hwf. pose proof (length_block junk q Hwf) as Hlen.
  rewrite (contents_block junk q Hwf).
  destruct Hwf as (_ & _ & Hb & Ht & _).
  destruct (Z.leb_spec (m_bot q) (m_top q)) as [Hle|Hgt].
  - rewrite length_take, length_drop, Hlen, Z.mod_small by lia. lia.
  - rewrite length_app, length_take, length_drop, Hlen.
    rewrite <- (Z.mod_add _ 1) by lia. rewrite Z.mod_small by lia. lia.
Qed.

(** X1.  [Push] on a well-formed queue returns 0, leaves the queue well
    formed and adds the record behind the waiting ones; the record size
    is kept. *)
Theorem Push_appends_record q x :
  wf q ->
  fst (Push junk q x) = 0 /\ wf (snd (Push junk q x)) /\
  contents (snd (Push junk q x)) = contents q ++ [x] /\
  m_chunk (snd (Push junk q x)) = m_chunk q.
Proof.
  intros Hwf. destruct (Push_spec junk q x Hwf) as (H0 & H1 & H2).
  split; [exact H0|]. split; [exact H1|]. split; [exact H2|].
  unfold Push. destruct (_ =? m_bot q); reflexivity.
Qed.

(** X2.  [Pop] on a well-formed queue reports an empty queue (code 1)
    exactly when no record waits; otherwise it returns the oldest
    record and leaves the others waiting, with the capacity and the
    block as they were. *)
Theorem Pop_takes_oldest q :
  wf q ->
  (Pop junk q = None <-> contents q = []) /\
  forall x q', Pop junk q = Some (x, q') ->
    contents q = x :: contents q' /\ wf q' /\
    m_size q' = m_size q /\ m_q q' = m_q q.
Proof.
  intros Hwf. pose proof (Pop_spec junk q Hwf) as H. split.
  - destruct (contents q) as [|y l]; [tauto|].
    destruct H as (q1 & -> & _). split; discriminate.
  - intros x q' HP. destruct (contents q) as [|y l]; [congruence|].
    destruct H as (q1 & HP1 & Hwf1 & Hc1 & Hs1). rewrite HP in HP1.
    injection HP1 as -> ->. split; [congruence|]. split; [exact Hwf1|].
    split; [exact Hs1|].
    unfold Pop in HP. destruct (m_bot q =? m_top q); [discriminate|].
    injection HP as _ <-. reflexivity.
Qed.

(** X3.  A well-formed queue of capacity [m_size] holds at most
    [m_size - 1] records.  [Push] enlarges the capacity, by
    [BLOCKINCREMENT], exactly when the queue holds [m_size - 1] records
    before the push; otherwise the capacity stays. *)
Theorem Push_grows_when_full q x :
  wf q ->
  Z.of_nat (length (contents q)) <= m_size q - 1 /\
  m_size (snd (Push junk q x))
  = if Z.of_nat (length (contents q)) =? m_size q - 1
    then m_size q + BLOCKINCREMENT else m_size q.
Proof.
  intros Hwf. rewrite (length_contents q Hwf).
  destruct Hwf as (Hc & Hsb & Hb & Ht & _).
  pose proof (Z.mod_pos_bound (m_top q - m_bot q) (m_size q) ltac:(lia)) as Hm.
  split; [lia|]. rewrite (Push_bytes junk q x Hc Hsb). unfold Push_slots.
  destruct (Z.leb_spec (m_bot q) (m_top q)) as [Hle|Hgt].
  - rewrite (Z.mod_small (m_top q - m_bot q)) by lia.
    destruct (Z.eqb_spec (m_top q + 1) (m_size q)) as [Hw|Hw].
    + destruct (Z.eqb_spec 0 (m_bot q)), (Z.eqb_spec (m_top q - m_bot q) (m_size q - 1));
        simpl; lia.
    + destruct (Z.eqb_spec (m_top q + 1) (m_bot q)), (Z.eqb_spec (m_top q - m_bot q) (m_size q - 1));
        simpl; lia.
  - rewrite <- (Z.mod_add _ 1) by lia. rewrite Z.mod_small by lia.
    destruct (Z.eqb_spec (m_top q + 1) (m_size q)) as [Hw|Hw]; [lia|].
    destruct (Z.eqb_spec (m_top q + 1) (m_bot q)),
      (Z.eqb_spec (m_top q - m_bot q + 1 * m_size q) (m_size q - 1)); simpl; lia.
Qed.

(** X4.  A queue that was drained and handed to [TerminateQueue] has no
    block left and is ready for reuse: whatever operations follow, it
    answers as an empty FIFO does. *)
Theorem drained_queue_reusable q (ops : list (op (A := A))) :
  wf q -> contents q = [] ->
  m_q (TerminateQueue q) = None /\
  fst (run_ops junk ops (TerminateQueue q)) = fst (fifo_ops ops []).
Proof.
  intros Hwf Hc. split; [reflexivity|].
  assert (Heq : m_bot q = m_top q).
  { pose proof (Pop_spec junk q Hwf) as H. rewrite Hc in H.
    unfold Pop in H. destruct (Z.eqb_spec (m_bot q) (m_top q)); [assumption|discriminate]. }
  assert (Hwf' : wf (TerminateQueue q)).
  { destruct Hwf as (H1 & H2 & H3 & H4 & _). unfold wf; simpl. auto. }
  rewrite (run_ops_fifo junk ops _ Hwf'). f_equal. f_equal.
  unfold contents; simpl. rewrite Heq, Z.leb_refl, Z.sub_diag. reflexivity.
Qed.

End QueueUse.

Section CheckUse.
Import Queue Unwrap.
Local Open Scope Q_scope.

(** What a check leaves alone. *)
Lemma Check_frame g i qe offp offx offy offz s :
  let s' := Check g i qe offp offx offy offz s in
  (forall p, flag s p = true -> flag s' p = true /\ unwrapped s' p = unwrapped s p) /\
  phase s' = phase s /\ mag s' = mag s /\ maginput s' = maginput s /\
  errcode s' = errcode s /\ gerror s' = gerror s /\
  (forall k, k <> i -> queues s' k = queues s k).
Proof.
  intros s'. subst s'.
  apply (Check_at_cases g
           (fun s' =>
              (forall p, flag s p = true ->
                         flag s' p = true /\ unwrapped s' p = unwrapped s p) /\
              phase s' = phase s /\ mag s' = mag s /\ maginput s' = maginput s /\
              errcode s' = errcode s /\ gerror s' = gerror s /\
              (forall k, k <> i -> queues s' k = queues s k))
           i qe offp offx offy offz s).
  - intros _. repeat split; auto.
  - intros _ _. repeat split; auto.
  - intros _ Hf. unfold visit; simpl. split; [|repeat split].
    + intros p Hp. unfold upd.
      destruct (Z.eqb_spec p (qe_p qe + offp)) as [->|_]; [congruence|auto].
    + intros k Hk. destruct (Nat.eqb_spec k i); [contradiction|reflexivity].
Qed.

(** X5.  A check never disturbs a voxel that is already visited: its
    flag stays set and its output entry keeps its value.  Nor does it
    change the wrapped phase, the risk field, the error code or any
    queue other than the one it is given. *)
Theorem Check_spares_visited g i qe offp offx offy offz s :
  let s' := Check g i qe offp offx offy offz s in
  (forall p, flag s p = true -> flag s' p = true /\ unwrapped s' p = unwrapped s p) /\
  phase s' = phase s /\ mag s' = mag s /\ maginput s' = maginput s /\
  errcode s' = errcode s /\
  (forall k, k <> i -> queues s' k = queues s k).
Proof.
  destruct (Check_frame g i qe offp offx offy offz s) as (H1 & H2 & H3 & H4 & H5 & _ & H7).
  repeat split; auto; apply H1; assumption.
Qed.

Lemma Check_outside g i qe offp offx offy offz s :
  ~ in_grid g (qe_x qe + offx) (qe_y qe + offy) (qe_z qe + offz) ->
  Check g i qe offp offx offy offz s = s.
Proof.
  intros Hout.
  apply (Check_at_cases g (fun s' => s' = s) i qe offp offx offy offz s);
    [reflexivity|contradiction|contradiction].
Qed.

Lemma Check_seen g i qe offp offx offy offz s :
  in_grid g (qe_x qe + offx) (qe_y qe + offy) (qe_z qe + offz) ->
  flag s (qe_p qe + offp) = true ->
  Check g i qe offp offx offy offz s = log (Rd Bflag (qe_p qe + offp)) s.
Proof.
  intros Hin Hf.
  apply (Check_at_cases g (fun s' => s' = log (Rd Bflag (qe_p qe + offp)) s)
           i qe offp offx offy offz s);
    [contradiction|reflexivity|congruence].
Qed.

(** X6.  A check toward a neighbour outside the grid does nothing at
    all, not even a read; a check toward a neighbour already visited
    reads its flag and changes nothing else. *)
Theorem Check_outside_or_seen g i qe offp offx offy offz s :
  (~ in_grid g (qe_x qe + offx) (qe_y qe + offy) (qe_z qe + offz) ->
   Check g i qe offp offx offy offz s = s) /\
  (in_grid g (qe_x qe + offx) (qe_y qe + offy) (qe_z qe + offz) ->
   flag s (qe_p qe + offp) = true ->
   Check g i qe offp offx offy offz s = log (Rd Bflag (qe_p qe + offp)) s).
Proof.
  split; [apply Check_outside|apply Check_seen].
Qed.

(** X7.  A check that reaches a neighbour of the grid for the first
    time, with a quotient of line 168 below [2^31 - 1] in absolute value
    (so that [wholepis] and the sums of lines 171 and 173 fit the
    32-bit [int]), flags the neighbour and stores a value that lies
    within [PI] of the value of the record it was reached from and a
    whole number of turns from the neighbour's wrapped phase; the
    neighbour's record, carrying that value, joins the back of the queue
    being drained.  The bound does not hang on the division being exact:
    if line 168 hands lines 170-174 any quotient [q] in that range
    within [e] of the exact one, the value they give lies within
    [PI (1 + e)] of the record's value. *)
Theorem Check_visit_within_PI g i qe offp offx offy offz s :
  wf (queues s i) ->
  in_grid g (qe_x qe + offx) (qe_y qe + offy) (qe_z qe + offz) ->
  flag s (qe_p qe + offp) = false ->
  fits_int ((phase s (qe_p qe + offp) - qe_v qe) / PI) ->
  let np := (qe_p qe + offp)%Z in
  let s' := Check g i qe offp offx offy offz s in
  flag s' np = true /\
  Qabs (unwrapped s' np - qe_v qe) <= PI /\
  turns_apart (unwrapped s' np) (phase s np) /\
  contents (queues s' i)
  = contents (queues s i)
      ++ [mkQE (qe_x qe + offx) (qe_y qe + offy) (qe_z qe + offz) np
               (unwrapped s' np)] /\
  (forall q e : Q,
     fits_int q -> Qabs (q - (phase s np - qe_v qe) / PI) <= e ->
     Qabs (unwrap_from (phase s np) q - qe_v qe) <= PI * (1 + e)).
Proof.
  intros Hwf Hin Hf Hq np s'. subst s'.
  rewrite (Check_stores g i qe offp offx offy offz s Hin Hf).
  unfold visit; simpl. fold np. unfold upd. rewrite Z.eqb_refl, Nat.eqb_refl.
  split; [reflexivity|]. split; [apply unwrap_value_within, Hq|].
  split; [apply unwrap_value_congruent|].
  split; [apply (Push_spec junk_entry (queues s i) _ Hwf)|].
  intros q e. apply unwrap_from_within.
Qed.

End CheckUse.

Section LoopRule.
Import Queue Unwrap.
Variable g : globals.
Variable ths : list Q.

(** One iteration of the [while] loop is a sequence of transitions. *)
Lemma process_reach i s qe q s2 :
  (i < length ths)%nat -> errcode s = 0 ->
  Pop junk_entry (queues s i) = Some (qe, q) ->
  process g ths i qe (set_queue i q s) = Some s2 ->
  rtc (step g ths) (Loop i, s) (Loop i, s2).
Proof.
  intros Hi He HP. unfold process.
  set (s1 := log (Rd Bmag (qe_p qe)) (set_queue i q s)).
  destruct (Qgt_bool (mag s1 (qe_p qe)) (nth i ths 0%Q)) eqn:Hgt.
  - destruct (scan (drop (S i) ths) (mag s1 (qe_p qe)) (S i)) as [j|] eqn:Hscan;
      [|discriminate].
    intros [= <-]. apply rtc_once.
    exact (step_defer g ths i s qe q j Hi He HP Hgt Hscan).
  - intros [= <-].
    eapply rtc_l; [exact (step_accept g ths i s qe q Hi He HP Hgt)|].
    eapply rtc_app; [|apply rtc_once, step_done].
    rewrite expand_fold. apply checks_reach. auto.
Qed.

(** A property of the loop heads that every iteration of the [while]
    loop and every change of bin keep holds when the loops are over. *)
Lemma drain_loop_invariant (L : nat -> state -> Prop) fuel i s s' :
  (i < length ths)%nat ->
  (forall i s, L i s -> errcode s = 0) ->
  (forall i s qe q s2, (i < length ths)%nat -> L i s ->
     Pop junk_entry (queues s i) = Some (qe, q) ->
     process g ths i qe (set_queue i q s) = Some s2 -> L i s2) ->
  L i s -> drain fuel g ths i s = Finished s' ->
  L i s' /\ Pop junk_entry (queues s' i) = None.
Proof.
  intros Hi Herr Hbody. revert s. induction fuel as [|fuel IH]; intros s HL; simpl.
  - discriminate.
  - rewrite (Herr i s HL). simpl.
    destruct (Pop junk_entry (queues s i)) as [[qe q]|] eqn:HP.
    + destruct (process g ths i qe (set_queue i q s)) as [s2|] eqn:Hp; [|discriminate].
      apply IH. exact (Hbody i s qe q s2 Hi HL HP Hp).
    + intros [= <-]. auto.
Qed.

Lemma bins_loop_invariant (L : nat -> state -> Prop) fuel n i s s' :
  (i + n = length ths)%nat ->
  (forall i s, L i s -> errcode s = 0) ->
  (forall i s qe q s2, (i < length ths)%nat -> L i s ->
     Pop junk_entry (queues s i) = Some (qe, q) ->
     process g ths i qe (set_queue i q s) = Some s2 -> L i s2) ->
  (forall i s, (i < length ths)%nat -> L i s ->
     Pop junk_entry (queues s i) = None ->
     L (S i) (set_queue i (TerminateQueue (queues s i)) s)) ->
  L i s -> bins fuel g ths n i s = Finished s' -> L (length ths) s'.
Proof.
  intros Hn Herr Hbody Hnext. revert i s Hn.
  induction n as [|n IH]; intros i s Hn HL; simpl.
  - intros [= <-]. replace (length ths) with i by lia. exact HL.
  - destruct (drain fuel g ths i s) as [s1|s1|s1] eqn:Hd; [|discriminate|discriminate].
    destruct (drain_loop_invariant L fuel i s s1 ltac:(lia) Herr Hbody HL Hd)
      as [HL1 Hnone].
    pose proof (Hnext i s1 ltac:(lia) HL1 Hnone) as HL2.
    pose proof (Herr _ _ HL2) as He2. simpl in He2 |- *. rewrite He2. simpl.
    apply IH; [lia|exact HL2].
Qed.

End LoopRule.

Section FinishedRule.
Import Queue Unwrap.

(** A property every transition keeps, and under which no error is
    pending, holds at the end of the bin loop of a finished run. *)
Lemma unwrap_finished_invariant (I : list Q -> pc * state -> Prop)
    fuel g seedx seedy seedz B s s' :
  (forall ths c c', I ths c -> step g ths c c' -> I ths c') ->
  (forall ths c, I ths c -> errcode (snd c) = 0) ->
  I (fst (unwrap_init g seedx seedy seedz B s))
    (Loop 0, snd (unwrap_init g seedx seedy seedz B s)) ->
  unwrap fuel g seedx seedy seedz B s = Finished s' ->
  I (fst (unwrap_init g seedx seedy seedz B s))
    (Loop (length (fst (unwrap_init g seedx seedy seedz B s))), s').
Proof.
  intros Hstep Herr H0. unfold unwrap.
  destruct (unwrap_init g seedx seedy seedz B s) as [ths s0]. simpl in *.
  apply (bins_loop_invariant g ths (fun i s1 => I ths (Loop i, s1)));
    [reflexivity| | | |exact H0].
  - intros i s1 HI. exact (Herr ths _ HI).
  - intros i s1 qe q s2 Hi HI HP Hp.
    pose proof (process_reach g ths i s1 qe q s2 Hi (Herr ths _ HI) HP Hp) as Hr.
    revert Hr. apply rtc_ind_r; [exact HI|].
    intros c c' _ Hcc' Hc. eapply Hstep; eassumption.
  - intros i s1 Hi HI Hnone. eapply Hstep; [exact HI|].
    apply step_next; [exact Hi|right; exact Hnone].
Qed.

End FinishedRule.

Section RunFacts.
Import Queue Unwrap.

(** X8.  When a call on a grid with positive dimensions returns, every
    queue it used has been given back and holds no record. *)
Theorem finished_run_frees_queues fuel d0 d1 d2 B s s' (k : nat) :
  0 < d0 -> 0 < d1 -> 0 < d2 ->
  robustUnwrapMain fuel d0 d1 d2 B s = Finished s' ->
  (k < Z.to_nat (Z.max B 2))%nat ->
  m_q (queues s' k) = None /\ Pop junk_entry (queues s' k) = None.
Proof.
  intros H0 H1 H2. rewrite robustUnwrapMain_unwrap.
  set (g := main_globals d0 d1 d2). set (s0 := prepared d0 d1 d2 s).
  pose proof (wf_main_globals d0 d1 d2 H0 H1 H2) as Hg. fold g in Hg.
  pose proof (default_seed_in_grid d0 d1 d2 H0 H1 H2) as Hseed. fold g in Hseed.
  intros Hfin Hk.
  pose (J := fun (ths : list Q) (c : pc * state) =>
               Inv g (length ths) c /\
               forall i, bin_of (fst c) = Some i ->
                 forall k, (k < i)%nat -> freed (queues (snd c) k)).
  assert (HJ : J (fst (unwrap_init g (default_seed d0) (default_seed d1)
                         (default_seed d2) B s0))
                 (Loop (length (fst (unwrap_init g (default_seed d0) (default_seed d1)
                                       (default_seed d2) B s0))), s')).
  { apply (unwrap_finished_invariant J fuel g _ _ _ B s0 s'); [| | |exact Hfin].
    - intros ths c c' (HI & Hfr) Hstep.
      split; [eapply Inv_step; eassumption|].
      destruct HI as (He & _).
      destruct Hstep as [i s1 qe q j Hi He' HP s2 Hgt Hscan
                        |i s1 qe q Hi He' HP s2 Hgt Hscan
                        |i s1 qe q Hi He' HP s2 Hgt
                        |i qe s1 [[[offp offx] offy] offz] Ho
                        |i qe s1
                        |i s1 Hi Hfin']; try subst s2;
        cbn [fst snd bin_of] in Hfr, He |- *.
      + intros i' [= <-] k' Hk'. pose proof (scan_target _ _ _ _ Hscan) as Hj.
        simpl. destruct (Nat.eqb_spec k' j); [lia|].
        destruct (Nat.eqb_spec k' i); [lia|]. apply (Hfr i eq_refl), Hk'.
      + discriminate.
      + intros i' [= <-] k' Hk'. simpl.
        destruct (Nat.eqb_spec k' i); [lia|]. apply (Hfr i eq_refl), Hk'.
      + intros i' [= <-] k' Hk'.
        unfold Check_at.
        destruct (Check_frame g i qe offp offx offy offz s1) as (_ & _ & _ & _ & _ & _ & Hq).
        rewrite Hq by lia. apply (Hfr i eq_refl), Hk'.
      + exact Hfr.
      + intros i' [= <-] k' Hk'. simpl.
        destruct (Nat.eqb_spec k' i) as [->|].
        * split; [reflexivity|]. simpl. apply Pop_None_inv.
          destruct Hfin' as [Hfin'|Hfin']; [contradiction|exact Hfin'].
        * apply (Hfr i eq_refl). lia.
    - intros ths c (HI & _). apply HI.
    - split; [apply Inv_init; assumption|]. intros i [= <-] k' Hk'. lia. }
  destruct HJ as [_ HJ]. cbn [fst snd bin_of] in HJ.
  destruct (thresholds_of_field g (default_seed d0) (default_seed d1)
              (default_seed d2) B s0 Hg) as (HN & _).
  destruct (HJ _ eq_refl k ltac:(lia)) as [Hq Hbt].
  split; [exact Hq|]. unfold Pop. rewrite Hbt, Z.eqb_refl. reflexivity.
Qed.

(** X9.  The seed voxel keeps its wrapped phase: at every point of a
    call its flag is set and its output entry holds the value read from
    the phase buffer, whatever the dimensions. *)
Theorem seed_output_is_seed_phase fuel d0 d1 d2 B s :
  let seedp := flat (main_globals d0 d1 d2) (default_seed d0) (default_seed d1)
                    (default_seed d2) in
  let s' := state_of (robustUnwrapMain fuel d0 d1 d2 B s) in
  flag s' seedp = true /\ unwrapped s' seedp = phase s seedp.
Proof.
  intros seedp s'. subst s'. rewrite robustUnwrapMain_unwrap.
  set (g := main_globals d0 d1 d2) in *. set (s0 := prepared d0 d1 d2 s).
  destruct (prepared_fields d0 d1 d2 s) as (_ & Hph & _). fold s0 in Hph.
  apply (unwrap_effect_invariant
           (fun s1 => flag s1 seedp = true /\ unwrapped s1 seedp = phase s seedp)).
  - intros c s1 (Hf & Hu) Heff.
    destruct Heff as [c s1 (_ & _ & _ & _ & _ & Eu & Ef) _
                     |i s2 qe q s1 _ (_ & _ & _ & _ & _ & Eu & Ef) _
                     |i qe s2 offp offx offy offz _ _ _
                     |i qe s2 offp offx offy offz _ _ Hnew]; cbn [snd] in Hf, Hu.
    + rewrite Eu, Ef. auto.
    + rewrite Eu, Ef. auto.
    + auto.
    + destruct (visit_fields g i qe offp offx offy offz s2) as (_ & _ & _ & Ef & Eu).
      rewrite Ef, Eu. unfold upd.
      destruct (Z.eqb_spec seedp (qe_p qe + offp)) as [E|_]; [congruence|auto].
  - destruct (unwrap_init_fields g (default_seed d0) (default_seed d1)
                (default_seed d2) B s0)
      as (mn & mx & _ & _ & _ & _ & _ & _ & _ & _ & _ & _ & _ & Eu & Ef & _).
    fold seedp in Eu, Ef. rewrite Ef, Eu. unfold upd. rewrite Z.eqb_refl, Hph. auto.
Qed.

(** X10.  On a grid with positive dimensions a call changes no output
    entry outside the grid, except entry 85 when that lies outside: it
    then holds [phase[85]], the effect of line 227. *)
Theorem output_outside_grid_but_85 fuel d0 d1 d2 B s p :
  0 < d0 -> 0 < d1 -> 0 < d2 ->
  ~ in_buffer (main_globals d0 d1 d2) p ->
  unwrapped (state_of (robustUnwrapMain fuel d0 d1 d2 B s)) p
  = if p =? 85 then phase s 85 else unwrapped s p.
Proof.
  intros H0 H1 H2 Hout. rewrite robustUnwrapMain_unwrap.
  set (g := main_globals d0 d1 d2) in *. set (s0 := prepared d0 d1 d2 s).
  pose proof (wf_main_globals d0 d1 d2 H0 H1 H2) as Hg. fold g in Hg.
  pose proof (default_seed_in_grid d0 d1 d2 H0 H1 H2) as Hseed. fold g in Hseed.
  destruct (prepared_fields d0 d1 d2 s) as (_ & Hph & _ & Hun & _). fold s0 in Hph, Hun.
  set (s1 := snd (unwrap_init g (default_seed d0) (default_seed d1)
                    (default_seed d2) B s0)).
  pose (J := fun (ths : list Q) (c : pc * state) =>
               Inv g (length ths) c /\ unwrapped (snd c) p = unwrapped s1 p).
  destruct (unwrap_invariant J fuel g (default_seed d0) (default_seed d1)
              (default_seed d2) B s0) as (pc0 & (_ & HJ) & _).
  - intros ths c c' (HI & Hu) Hstep.
    split; [eapply Inv_step; eassumption|]. rewrite <- Hu.
    pose proof (step_effect g ths c c' Hstep) as Heff.
    destruct Heff as [c s2 (_ & _ & _ & _ & _ & Eu & _) _
                     |i s3 qe q s2 _ (_ & _ & _ & _ & _ & Eu & _) _
                     |i qe s3 offp offx offy offz _ _ _
                     |i qe s3 offp offx offy offz Ho Hin _]; cbn [snd] in *.
    + rewrite Eu. reflexivity.
    + rewrite Eu. reflexivity.
    + reflexivity.
    + destruct (visit_fields g i qe offp offx offy offz s3) as (_ & _ & _ & _ & Eu).
      rewrite Eu. unfold upd.
      destruct (Z.eqb_spec p (qe_p qe + offp)) as [E|_]; [|reflexivity].
      exfalso. apply Hout. rewrite E.
      destruct HI as (_ & _ & _ & _ & [_ Hp] & _). cbn [snd] in Hp.
      rewrite Hp, <- (six_flat g Hg _ _ _ _ _ _ _ Ho).
      apply flat_in_buffer; assumption.
  - split; [apply Inv_init; assumption|reflexivity].
  - cbn [snd] in HJ. rewrite HJ. unfold s1.
    destruct (unwrap_init_fields g (default_seed d0) (default_seed d1)
                (default_seed d2) B s0)
      as (mn & mx & _ & _ & _ & _ & _ & _ & _ & _ & _ & _ & _ & Eu & _).
    rewrite Eu. unfold upd.
    destruct (Z.eqb_spec p (flat g (default_seed d0) (default_seed d1)
                              (default_seed d2))) as [E|_].
    + exfalso. apply Hout. rewrite E. apply flat_in_buffer; assumption.
    + rewrite Hph, Hun. reflexivity.
Qed.

Lemma default_seed_negative d : 0 <= d -> (default_seed d <? 0) = (d =? 0).
Proof.
  intros Hd. rewrite default_seed_eq by exact Hd.
  destruct (Z.eqb_spec d 0) as [->|Hne]; [reflexivity|].
  apply Z.ltb_ge.
  pose proof (Z.div_le_lower_bound (d + 1) 2 1 ltac:(lia) ltac:(lia)). lia.
Qed.

Lemma seed_outside_default d0 d1 d2 :
  0 <= d0 -> 0 <= d1 -> 0 <= d2 ->
  seed_outside d0 d1 d2 (default_seed d0) (default_seed d1) (default_seed d2)
  = (d0 =? 0) || (d1 =? 0) || (d2 =? 0).
Proof.
  intros H0 H1 H2. unfold seed_outside.
  rewrite !default_seed_negative by assumption.
  assert (Hge : forall d, 0 <= d -> (default_seed d >=? d) = false).
  { intros d Hd. rewrite Z.geb_leb. apply Z.leb_gt.
    destruct (Z.eq_dec d 0) as [->|Hne]; [reflexivity|].
    pose proof (default_seed_in d ltac:(lia)). lia. }
  rewrite !Hge by assumption. rewrite !orb_false_r. reflexivity.
Qed.

(** X11.  The call hands [GERROR] the seed message exactly when one of
    the dimensions is 0, and nothing else; in either case the error code
    is 0 at every later point of the call. *)
Theorem seed_message_iff_empty_grid fuel d0 d1 d2 B s :
  0 <= d0 -> 0 <= d1 -> 0 <= d2 ->
  let s' := state_of (robustUnwrapMain fuel d0 d1 d2 B s) in
  errcode s' = 0 /\
  gerror s' = if (d0 =? 0) || (d1 =? 0) || (d2 =? 0)
              then seed_message :: gerror s else gerror s.
Proof.
  intros H0 H1 H2 s'. subst s'. rewrite robustUnwrapMain_unwrap.
  set (g := main_globals d0 d1 d2) in *. set (s0 := prepared d0 d1 d2 s).
  assert (Hg0 : gerror s0 = if (d0 =? 0) || (d1 =? 0) || (d2 =? 0)
                            then seed_message :: gerror s else gerror s).
  { unfold s0, prepared, negate_mag. rewrite negate_mag_fold.
    rewrite seed_outside_default by assumption. cbn [gerror].
    destruct ((d0 =? 0) || (d1 =? 0) || (d2 =? 0)); reflexivity. }
  rewrite <- Hg0.
  apply (unwrap_effect_invariant
           (fun s1 => errcode s1 = 0 /\ gerror s1 = gerror s0)).
  - intros c s1 (He & Hm) Heff.
    destruct Heff as [c s1 (Ee & Em & _) _
                     |i s2 qe q s1 _ (Ee & Em & _) _
                     |i qe s2 offp offx offy offz _ _ _
                     |i qe s2 offp offx offy offz _ _ _]; cbn [snd] in He, Hm.
    + rewrite Ee, Em. auto.
    + rewrite Ee, Em. auto.
    + auto.
    + auto.
  - destruct (unwrap_init_fields g (default_seed d0) (default_seed d1)
                (default_seed d2) B s0)
      as (mn & mx & _ & _ & _ & _ & _ & _ & Ee & Em & _). auto.
Qed.

(** X12.  A requested number of bins below 2 is replaced by 2 (line
    194): the call runs exactly as with two bins. *)
Theorem fewer_than_two_bins fuel d0 d1 d2 B s :
  B < 2 ->
  robustUnwrapMain fuel d0 d1 d2 B s = robustUnwrapMain fuel d0 d1 d2 2 s.
Proof.
  intros HB. unfold robustUnwrapMain, unwrap, unwrap_init.
  assert (E : (B <? 2) = true) by (apply Z.ltb_lt; exact HB).
  rewrite E. reflexivity.
Qed.

End RunFacts.

Section Smooth.
Import Queue Unwrap.
Local Open Scope Q_scope.
Variable g : globals.
Hypothesis Hg : wf_globals g.
Variable seedp : Z.
Variable M : Q.
Variable ph0 : Z -> Q.
Hypothesis HM : forall p, in_buffer g p -> Qabs (ph0 p) <= M.
Hypothesis Hrange : 2 * M + PI * inject_Z (sze g) <= PI * 2147483647.

(** A difference below [2^31 - 1] times [PI] gives a quotient that fits
    an [int]. *)
Lemma fits_int_quotient d :
  Qabs d < 2147483647 * PI -> fits_int (d / PI).
Proof.
  intros H. apply Qabs_Qlt_condition in H. destruct H as [Hlo Hhi].
  unfold fits_int. apply Qabs_Qlt_condition. split.
  - apply Qlt_shift_div_l; [exact PI_pos|].
    assert (E : - (2147483647) * PI == - (2147483647 * PI)) by ring.
    rewrite E. exact Hlo.
  - apply Qlt_shift_div_r; [exact PI_pos|]. exact Hhi.
Qed.

(** A neighbour visited from a record that carries a bounded output
    value: the quotient of line 168 fits an [int], and the value stored
    obeys the bound with one voxel more. *)
Lemma visit_in_range N i qe s offp offx offy offz :
  Inv g N (Expanding i qe, s) ->
  qe_v qe = unwrapped s (qe_p qe) ->
  phase s = ph0 -> output_bounded g M s ->
  In (offp, offx, offy, offz) (six g) ->
  in_grid g (qe_x qe + offx) (qe_y qe + offy) (qe_z qe + offz) ->
  flag s (qe_p qe + offp) = false ->
  let np := (qe_p qe + offp)%Z in
  in_buffer g np /\ (1 <= unvisited g s)%Z /\
  fits_int ((phase s np - qe_v qe) / PI) /\
  Qabs (unwrap_value (phase s np) (qe_v qe))
  <= M + PI * inject_Z (sze g - unvisited g s).
Proof.
  intros (_ & _ & _ & _ & [Hin0 Hp0] & Hfl) Hcur Hph Hb Ho Hin Hf np.
  cbn [snd fst] in Hin0, Hp0, Hfl.
  assert (Hnp : in_buffer g np).
  { unfold np. rewrite Hp0, <- (six_flat g Hg _ _ _ _ _ _ _ Ho).
    apply flat_in_buffer; assumption. }
  assert (Hun : (1 <= unvisited g s)%Z).
  { unfold unvisited. apply (count_false_pos _ _ np); [|exact Hf].
    apply In_seqZ. unfold in_buffer in Hnp. lia. }
  pose proof (Hb (qe_p qe) (entry_in_buffer g Hg qe (conj Hin0 Hp0)) Hfl) as Hv.
  rewrite <- Hcur in Hv.
  pose proof (HM np Hnp) as Hp. rewrite <- Hph in Hp.
  set (a := phase s np) in *. set (v := qe_v qe) in *.
  rewrite Zle_Qle in Hun. change (inject_Z 1) with 1 in Hun.
  unfold Z.sub in Hv |- *.
  rewrite !inject_Z_plus, !inject_Z_opp in Hv. rewrite inject_Z_plus, inject_Z_opp.
  change (inject_Z 1) with 1 in Hv.
  set (u := inject_Z (unvisited g s)) in *. set (z := inject_Z (sze g)) in *.
  apply Qabs_Qle_condition in Hv. apply Qabs_Qle_condition in Hp.
  assert (Hq : fits_int ((a - v) / PI)).
  { apply fits_int_quotient. apply Qabs_Qlt_condition.
    unfold PI in *. split; lra. }
  split; [exact Hnp|]. split; [rewrite Zle_Qle; exact Hun|]. split; [exact Hq|].
  pose proof (unwrap_value_within a v Hq) as Hw.
  apply Qabs_Qle_condition in Hw. apply Qabs_Qle_condition.
  unfold PI in *. split; lra.
Qed.

(** A transition keeps the wrapped phase and the bound on the output. *)
Lemma bounded_step ths c c' :
  Inv g (length ths) c -> carries_output (length ths) c ->
  phase (snd c) = ph0 -> output_bounded g M (snd c) ->
  step g ths c c' ->
  phase (snd c') = ph0 /\ output_bounded g M (snd c').
Proof.
  intros HI [_ Hcur] Hph Hb Hstep.
  pose proof (step_effect g ths c c' Hstep) as Heff.
  destruct Heff as [c s1 (_ & _ & Ep & _ & _ & Eu & Ef) _
                   |i s2 qe q s1 _ (_ & _ & Ep & _ & _ & Eu & Ef) _
                   |i qe s2 offp offx offy offz _ _ _
                   |i qe s2 offp offx offy offz Ho Hin Hf];
    cbn [snd fst] in Hph, Hb, Hcur.
  - split; [congruence|]. unfold output_bounded, unvisited. rewrite Eu, Ef. exact Hb.
  - split; [congruence|]. unfold output_bounded, unvisited. rewrite Eu, Ef. exact Hb.
  - split; [exact Hph|exact Hb].
  - destruct (visit_fields g i qe offp offx offy offz s2) as (_ & Ep & _ & Ef & Eu).
    destruct (visit_in_range _ i qe s2 offp offx offy offz HI Hcur Hph Hb Ho Hin Hf)
      as (Hnp & Hun & _ & Hnew).
    split; [congruence|].
    assert (Hcount : unvisited g (visit g i qe (offp, offx, offy, offz) s2)
                     = (unvisited g s2 - 1)%Z).
    { unfold unvisited. rewrite Ef. apply count_false_visit;
        [apply NoDup_seqZ|apply In_seqZ; unfold in_buffer in Hnp; lia|exact Hf]. }
    intros p Hp. rewrite Hcount, Ef, Eu. unfold upd.
    replace (sze g - (unvisited g s2 - 1) - 1)%Z with (sze g - unvisited g s2)%Z by lia.
    destruct (Z.eqb_spec p (qe_p qe + offp)) as [->|_].
    + intros _. exact Hnew.
    + intros Hfp. eapply Qle_trans; [exact (Hb p Hp Hfp)|].
      unfold Z.sub. rewrite !inject_Z_plus, !inject_Z_opp.
      change (inject_Z 1) with 1. unfold PI. lra.
Qed.

Lemma smooth_step ths c c' :
  Inv g (length ths) c ->
  carries_output (length ths) c ->
  phase (snd c) = ph0 -> output_bounded g M (snd c) ->
  (forall p, in_buffer g p -> flag (snd c) p = true -> p <> seedp ->
             near_a_neighbour g (snd c) p) ->
  step g ths c c' ->
  carries_output (length ths) c' /\
  (forall p, in_buffer g p -> flag (snd c') p = true -> p <> seedp ->
             near_a_neighbour g (snd c') p).
Proof.
  intros HI [Hcar Hcur] Hph Hb Hnear Hstep.
  pose proof HI as (He & Hwf & Hent & Hpc).
  unfold carries_output.
  destruct Hstep as [i s qe q j Hi He' HP s1 Hgt Hscan
                    |i s qe q Hi He' HP s1 Hgt Hscan
                    |i s qe q Hi He' HP s1 Hgt
                    |i qe s [[[offp offx] offy] offz] Ho
                    |i qe s
                    |i s Hi Hfin]; try subst s1;
    simpl in He, Hwf, Hent, Hpc, Hcar, Hcur, Hnear, Hph, Hb |- *.
  - (* defer *)
    destruct (Pop_Some_inv _ _ _ (Hwf i Hi) HP) as [Hc Hq].
    pose proof (scan_target _ _ _ _ Hscan) as Hj.
    pose proof (Hcar i Hi) as Hci. rewrite Hc in Hci.
    apply Forall_cons in Hci as [Hqe Hci].
    split; [split; [|exact I]|exact Hnear].
    intros k Hk. destruct (Nat.eqb_spec k j) as [->|].
    + assert (Hji : (j =? i)%nat = false) by (apply Nat.eqb_neq; lia).
      rewrite Hji.
      destruct (Push_spec junk_entry (queues s j) qe (Hwf j ltac:(lia)))
        as (_ & _ & ->).
      apply Forall_app. split; [apply Hcar; lia|]. apply Forall_singleton, Hqe.
    + destruct (Nat.eqb_spec k i) as [->|]; [exact Hci|]. apply Hcar, Hk.
  - (* the scan leaves the array *)
    destruct (Pop_Some_inv _ _ _ (Hwf i Hi) HP) as [Hc Hq].
    pose proof (Hcar i Hi) as Hci. rewrite Hc in Hci.
    apply Forall_cons in Hci as [Hqe Hci].
    split; [split; [|exact I]|exact Hnear].
    intros k Hk. destruct (Nat.eqb_spec k i) as [->|]; [exact Hci|]. apply Hcar, Hk.
  - (* accept *)
    destruct (Pop_Some_inv _ _ _ (Hwf i Hi) HP) as [Hc Hq].
    pose proof (Hcar i Hi) as Hci. rewrite Hc in Hci.
    apply Forall_cons in Hci as [Hqe Hci].
    split; [split; [|exact Hqe]|exact Hnear].
    intros k Hk. destruct (Nat.eqb_spec k i) as [->|]; [exact Hci|]. apply Hcar, Hk.
  - (* one check *)
    destruct Hpc as [Hi [Hgeo Hfl]].
    apply (Check_at_cases g
             (fun s' =>
                ((forall k, (k < length ths)%nat ->
                    Forall (fun qe0 => qe_v qe0 = unwrapped s' (qe_p qe0))
                           (contents (queues s' k))) /\
                 qe_v qe = unwrapped s' (qe_p qe)) /\
                (forall p, in_buffer g p -> flag s' p = true -> p <> seedp ->
                           near_a_neighbour g s' p))).
    + intros _. auto.
    + intros _ _. auto.
    + intros Hin Hf.
      destruct (visit_fields g i qe offp offx offy offz s) as (_ & _ & _ & Ef & Eu).
      set (np := (qe_p qe + offp)%Z) in *.
      assert (Hkeep : forall p, flag s p = true ->
                flag (visit g i qe (offp, offx, offy, offz) s) p = true /\
                unwrapped (visit g i qe (offp, offx, offy, offz) s) p = unwrapped s p).
      { intros p Hp. rewrite Ef, Eu. unfold upd.
        destruct (Z.eqb_spec p np) as [->|_]; [congruence|auto]. }
      assert (Hnew : unwrapped (visit g i qe (offp, offx, offy, offz) s) np
                     = unwrap_value (phase s np) (qe_v qe)).
      { rewrite Eu. unfold upd. rewrite Z.eqb_refl. reflexivity. }
      split; [split|].
      * intros k Hk.
        assert (Hold : forall k', (k' < length ths)%nat ->
                  Forall (fun qe0 => qe_v qe0
                            = unwrapped (visit g i qe (offp, offx, offy, offz) s)
                                        (qe_p qe0))
                         (contents (queues s k'))).
        { intros k' Hk'. specialize (Hcar k' Hk'). specialize (Hent k' Hk').
          rewrite Forall_forall in Hcar, Hent |- *. intros e He0.
          destruct (Hkeep (qe_p e)) as [_ ->]; [apply (Hent e He0)|].
          apply Hcar, He0. }
        set (nqe := mkQE (qe_x qe + offx) (qe_y qe + offy) (qe_z qe + offz) np
                         (unwrap_value (phase s np) (qe_v qe))).
        assert (Eq : queues (visit g i qe (offp, offx, offy, offz) s) k
                     = if (k =? i)%nat
                       then snd (Push junk_entry (queues s i) nqe)
                       else queues s k) by reflexivity.
        rewrite Eq.
        destruct (Nat.eqb_spec k i) as [->|]; [|apply Hold, Hk].
        destruct (Push_spec junk_entry (queues s i) nqe (Hwf i Hi)) as (_ & _ & ->).
        apply Forall_app. split; [apply Hold, Hi|].
        apply Forall_singleton. cbn [qe_v qe_p nqe]. symmetry. exact Hnew.
      * destruct (Hkeep (qe_p qe) Hfl) as [_ ->]. exact Hcur.
      * intros p Hp. destruct (Z.eq_dec p np) as [->|Hne].
        -- intros _ _. exists (qe_p qe). split; [|split].
           ++ destruct Hgeo as [Hin0 Hp0].
              exists (qe_x qe), (qe_y qe), (qe_z qe), offp, offx, offy, offz.
              split; [exact Hin0|]. split; [exact Ho|]. split; [exact Hin|].
              split; [exact Hp0|]. unfold np. rewrite Hp0. symmetry.
              apply (six_flat g Hg), Ho.
           ++ apply Hkeep, Hfl.
           ++ destruct (Hkeep (qe_p qe) Hfl) as [_ ->]. rewrite Hnew, <- Hcur.
              apply unwrap_value_within.
              apply (visit_in_range _ i qe s offp offx offy offz HI Hcur Hph Hb Ho
                       Hin Hf).
        -- rewrite Ef. unfold upd at 1.
           destruct (Z.eqb_spec p np) as [|_]; [contradiction|].
           intros Hfp Hps. destruct (Hnear p Hp Hfp Hps) as (p' & Hnb & Hfp' & Hab).
           exists p'. split; [exact Hnb|]. split; [apply Hkeep, Hfp'|].
           destruct (Hkeep p Hfp) as [_ ->]. destruct (Hkeep p' Hfp') as [_ ->].
           exact Hab.
  - (* the expansion is over *)
    split; [split; [exact Hcar|exact I]|exact Hnear].
  - (* next bin *)
    destruct Hfin as [Hfin|Hfin]; [contradiction|].
    destruct (wf_TerminateQueue _ (Hwf i Hi) (Pop_None_inv _ Hfin)) as [_ Hct].
    split; [split; [|exact I]|exact Hnear].
    intros k Hk. destruct (Nat.eqb_spec k i) as [->|]; [|apply Hcar, Hk].
    rewrite Hct. constructor.
Qed.

End Smooth.

Section SmoothRun.
Import Queue Unwrap.
Local Open Scope Q_scope.

(** X13.  On a grid with positive dimensions, run with at most
    [NUMQUEUES] bins on a wrapped phase that is at most [M] in absolute
    value over the grid, where [2 M + PI sze <= PI (2^31 - 1)] for the
    [sze] voxels of the grid (so that every quotient of line 168 fits
    the 32-bit [int]): every visited voxel other than the seed has, at
    every point of the call, a visited 6-connected neighbour whose
    output value is within [PI] of its own.  The output has no jump
    above [PI] along the way each voxel was reached. *)
Theorem visited_voxel_near_a_neighbour fuel d0 d1 d2 B (M : Q) s p :
  (0 < d0)%Z -> (0 < d1)%Z -> (0 < d2)%Z ->
  (Z.max B 2 <= NUMQUEUES)%Z ->
  let g := main_globals d0 d1 d2 in
  let s' := state_of (robustUnwrapMain fuel d0 d1 d2 B s) in
  (forall q, in_buffer g q -> Qabs (phase s q) <= M) ->
  2 * M + PI * inject_Z (d0 * d1 * d2) <= PI * 2147483647 ->
  in_buffer g p -> flag s' p = true ->
  p <> flat g (default_seed d0) (default_seed d1) (default_seed d2) ->
  near_a_neighbour g s' p.
Proof.
  intros H0 H1 H2 _ g s' HM Hrange. subst s'. rewrite robustUnwrapMain_unwrap.
  fold g.
  set (s0 := prepared d0 d1 d2 s).
  set (seedp := flat g (default_seed d0) (default_seed d1) (default_seed d2)).
  pose proof (wf_main_globals d0 d1 d2 H0 H1 H2) as Hg. fold g in Hg.
  pose proof (default_seed_in_grid d0 d1 d2 H0 H1 H2) as Hseed. fold g in Hseed.
  pose proof (flat_in_buffer g Hg _ _ _ Hseed) as Hsp. fold seedp in Hsp.
  destruct (prepared_fields d0 d1 d2 s) as (_ & Hph0 & _). fold s0 in Hph0.
  pose (J := fun (ths : list Q) (c : pc * state) =>
               Inv g (length ths) c /\ carries_output (length ths) c /\
               (phase (snd c) = phase s /\ output_bounded g M (snd c)) /\
               forall p, in_buffer g p -> flag (snd c) p = true -> p <> seedp ->
                         near_a_neighbour g (snd c) p).
  destruct (unwrap_invariant J fuel g (default_seed d0) (default_seed d1)
              (default_seed d2) B s0) as (pc0 & (_ & _ & _ & HJ) & _).
  - intros ths c c' (HI & Hcar & (Hph & Hb) & Hnear) Hstep.
    split; [eapply Inv_step; eassumption|].
    destruct (smooth_step g Hg seedp M (phase s) HM Hrange ths c c'
                HI Hcar Hph Hb Hnear Hstep) as [Hcar' Hnear'].
    split; [exact Hcar'|]. split; [|exact Hnear'].
    exact (bounded_step g Hg M (phase s) HM Hrange ths c c' HI Hcar Hph Hb Hstep).
  - split; [apply Inv_init; assumption|].
    destruct (unwrap_init_fields g (default_seed d0) (default_seed d1)
                (default_seed d2) B s0)
      as (mn & mx & _ & _ & _ & _ & _ & _ & _ & _ & Ep & _ & _ & Eu & Ef & Eq & _).
    fold seedp in Eu, Ef, Eq.
    split; [split; [|exact I]|split; [split|]].
    + intros k Hk. cbn [snd]. rewrite Eq. rewrite length_unwrap_init in Hk.
      destruct (Nat.eqb_spec k 0) as [->|].
      * match goal with
        | |- context [Push junk_entry ?q0 ?x] =>
            destruct (Push_spec junk_entry q0 x
                        (wf_InitQueue sizeof_QUEUEENTRY eq_refl)) as (_ & _ & ->)
        end.
        simpl. apply Forall_singleton. cbn [qe_v qe_p]. rewrite Eu. unfold upd.
        rewrite Z.eqb_refl. reflexivity.
      * destruct (decide _); [constructor|lia].
    + cbn [snd]. congruence.
    + cbn [snd]. intros p' Hin. rewrite (unvisited_init g _ _ _ B s0 Hg Hseed).
      rewrite Ef, Eu. unfold upd.
      destruct (Z.eqb_spec p' seedp) as [->|_].
      * intros _. rewrite Hph0.
        replace (sze g - (sze g - 1) - 1)%Z with 0%Z by lia.
        change (inject_Z 0) with 0. pose proof (HM seedp Hsp) as Hm.
        eapply Qle_trans; [exact Hm|]. unfold PI. lra.
      * destruct (decide _); [discriminate|contradiction].
    + intros p' Hin. cbn [snd]. rewrite Ef.
      destruct (Z.eqb_spec p' seedp) as [->|_]; [contradiction|].
      destruct (decide _); [discriminate|contradiction].
  - cbn [snd] in HJ. apply HJ.
Qed.

End SmoothRun.

Section Geometry.
Import Queue Unwrap.
Variable g : globals.
Hypothesis Hg : wf_globals g.

Lemma flat_inj x y z x' y' z' :
  in_grid g x y z -> in_grid g x' y' z' ->
  flat g x y z = flat g x' y' z' -> x = x' /\ y = y' /\ z = z'.
Proof.
  destruct Hg as (H0 & H1 & H2 & _). unfold in_grid, flat.
  intros (Hx & Hy & Hz) (Hx' & Hy' & Hz') E.
  assert (E1 : y + dim1 g * z = y' + dim1 g * z') by nia.
  assert (E2 : z = z') by nia.
  subst z'. split; [nia|]. split; [lia|reflexivity].
Qed.

Lemma in_buffer_coords p :
  in_buffer g p -> exists x y z, in_grid g x y z /\ p = flat g x y z.
Proof.
  destruct Hg as (H0 & H1 & H2 & Hs & _). unfold in_buffer, in_grid, flat.
  rewrite Hs. intros Hp.
  exists (p mod dim0 g), ((p / dim0 g) mod dim1 g), (p / dim0 g / dim1 g).
  pose proof (Z.mod_pos_bound p (dim0 g) H0).
  pose proof (Z.mod_pos_bound (p / dim0 g) (dim1 g) H1).
  pose proof (Z.div_mod p (dim0 g) ltac:(lia)) as E0.
  pose proof (Z.div_mod (p / dim0 g) (dim1 g) ltac:(lia)) as E1.
  assert (0 <= p / dim0 g) by (apply Z.div_pos; lia).
  assert (0 <= p / dim0 g / dim1 g) by (apply Z.div_pos; lia).
  assert (p / dim0 g < dim1 g * dim2 g)
    by (apply Z.div_lt_upper_bound; [lia|nia]).
  assert (p / dim0 g / dim1 g < dim2 g)
    by (apply Z.div_lt_upper_bound; [lia|nia]).
  split; [lia|]. rewrite Z.mul_comm in E1. lia.
Qed.

(** A property of the integers of an interval that holds at one of them
    and passes to the next and to the previous one holds at all. *)
Lemma interval_closed (P : Z -> Prop) (n a b : Z) :
  0 <= a < n -> 0 <= b < n -> P a ->
  (forall t, 0 <= t -> t + 1 < n -> P t -> P (t + 1)) ->
  (forall t, 0 <= t - 1 -> t < n -> P t -> P (t - 1)) ->
  P b.
Proof.
  intros Ha Hb Pa Hup Hdown.
  destruct (Z.le_ge_cases a b) as [Hab|Hab].
  - assert (H : forall m : nat, a + Z.of_nat m < n -> P (a + Z.of_nat m)).
    { induction m as [|m IH]; intros Hm.
      - rewrite Z.add_0_r. exact Pa.
      - replace (a + Z.of_nat (S m)) with (a + Z.of_nat m + 1) by lia.
        apply Hup; [lia|lia|apply IH; lia]. }
    replace b with (a + Z.of_nat (Z.to_nat (b - a))) by lia. apply H. lia.
  - assert (H : forall m : nat, 0 <= a - Z.of_nat m -> P (a - Z.of_nat m)).
    { induction m as [|m IH]; intros Hm.
      - rewrite Z.sub_0_r. exact Pa.
      - replace (a - Z.of_nat (S m)) with (a - Z.of_nat m - 1) by lia.
        apply Hdown; [lia|lia|apply IH; lia]. }
    replace b with (a - Z.of_nat (Z.to_nat (a - b))) by lia. apply H. lia.
Qed.

(** The grid is connected: a set of voxels that holds the seed and, with
    a voxel, its 6-connected neighbours holds every voxel. *)
Lemma grid_connected (V : Z -> Prop) sx sy sz :
  in_grid g sx sy sz -> V (flat g sx sy sz) ->
  (forall p p', neighbours g p p' -> V p -> V p') ->
  forall p, in_buffer g p -> V p.
Proof.
  intros (Hsx & Hsy & Hsz) Hseed Hnb p Hp.
  destruct (in_buffer_coords p Hp) as (x & y & z & (Hx & Hy & Hz) & ->).
  assert (Hmove : forall x y z offp offx offy offz,
             In (offp, offx, offy, offz) (six g) ->
             in_grid g x y z -> in_grid g (x + offx) (y + offy) (z + offz) ->
             V (flat g x y z) -> V (flat g (x + offx) (y + offy) (z + offz))).
  { intros a b c offp offx offy offz Ho Hin Hin'. apply Hnb.
    exists a, b, c, offp, offx, offy, offz. auto. }
  assert (Hz' : V (flat g sx sy z)).
  { apply (interval_closed (fun t => V (flat g sx sy t)) (dim2 g) sz z);
      [lia|lia|exact Hseed| |].
    - intros t Ht0 Ht1 Ht.
      replace (flat g sx sy (t + 1)) with (flat g (sx + 0) (sy + 0) (t + 1))
        by (rewrite !Z.add_0_r; reflexivity).
      apply (Hmove sx sy t (m_bsz g)); [unfold six; simpl; auto|unfold in_grid; lia
                                       |unfold in_grid; lia|exact Ht].
    - intros t Ht0 Ht1 Ht.
      replace (flat g sx sy (t - 1)) with (flat g (sx + 0) (sy + 0) (t + -1))
        by (rewrite !Z.add_0_r; reflexivity).
      apply (Hmove sx sy t (- m_bsz g)); [unfold six; simpl; auto|unfold in_grid; lia
                                         |unfold in_grid; lia|exact Ht]. }
  assert (Hy' : V (flat g sx y z)).
  { apply (interval_closed (fun t => V (flat g sx t z)) (dim1 g) sy y);
      [lia|lia|exact Hz'| |].
    - intros t Ht0 Ht1 Ht.
      replace (flat g sx (t + 1) z) with (flat g (sx + 0) (t + 1) (z + 0))
        by (rewrite !Z.add_0_r; reflexivity).
      apply (Hmove sx t z (m_bsy g)); [unfold six; simpl; auto|unfold in_grid; lia
                                      |unfold in_grid; lia|exact Ht].
    - intros t Ht0 Ht1 Ht.
      replace (flat g sx (t - 1) z) with (flat g (sx + 0) (t + -1) (z + 0))
        by (rewrite !Z.add_0_r; reflexivity).
      apply (Hmove sx t z (- m_bsy g)); [unfold six; simpl; auto 10|unfold in_grid; lia
                                        |unfold in_grid; lia|exact Ht]. }
  apply (interval_closed (fun t => V (flat g t y z)) (dim0 g) sx x);
    [lia|lia|exact Hy'| |].
  - intros t Ht0 Ht1 Ht.
    replace (flat g (t + 1) y z) with (flat g (t + 1) (y + 0) (z + 0))
      by (rewrite !Z.add_0_r; reflexivity).
    apply (Hmove t y z (m_bsx g)); [unfold six; simpl; auto 10|unfold in_grid; lia
                                   |unfold in_grid; lia|exact Ht].
  - intros t Ht0 Ht1 Ht.
    replace (flat g (t - 1) y z) with (flat g (t + -1) (y + 0) (z + 0))
      by (rewrite !Z.add_0_r; reflexivity).
    apply (Hmove t y z (- m_bsx g)); [unfold six; simpl; auto 10|unfold in_grid; lia
                                     |unfold in_grid; lia|exact Ht].
Qed.

End Geometry.

Section Coverage.
Import Queue Unwrap.
Variable g : globals.
Variable ths : list Q.
Hypothesis Hg : wf_globals g.

Lemma grows_refl i s : grows i s s.
Proof. split; [auto|]. split; [auto|]. intros p H1 H2. congruence. Qed.

Lemma grows_trans i s1 s2 s3 : grows i s1 s2 -> grows i s2 s3 -> grows i s1 s3.
Proof.
  intros (M1 & K1 & N1) (M2 & K2 & N2). split; [auto|]. split; [auto|].
  intros p Hf1 Hf3. destruct (flag s2 p) eqn:Hf2.
  - destruct (N1 p Hf1 Hf2) as (qe & Hin & Hp). exists qe. auto.
  - apply N2; assumption.
Qed.

(** One check: flags and records only grow, and afterwards the
    neighbour it looked at is visited if it lies in the grid. *)
Lemma Check_grows i qe offp offx offy offz s :
  Inv g (length ths) (Expanding i qe, s) ->
  let s' := Check g i qe offp offx offy offz s in
  grows i s s' /\
  (in_grid g (qe_x qe + offx) (qe_y qe + offy) (qe_z qe + offz) ->
   flag s' (qe_p qe + offp) = true).
Proof.
  intros (_ & Hwf & _ & Hi & _) s'. subst s'. cbn [fst snd] in Hwf, Hi.
  apply (Check_at_cases g
           (fun s' => grows i s s' /\
              (in_grid g (qe_x qe + offx) (qe_y qe + offy) (qe_z qe + offz) ->
               flag s' (qe_p qe + offp) = true))
           i qe offp offx offy offz s).
  - intros Hout. split; [apply grows_refl|contradiction].
  - intros _ Hf. split; [|intros _; exact Hf].
    split; [auto|]. split; [auto|]. intros p H1 H2. simpl in H2. congruence.
  - intros Hin Hf.
    destruct (visit_fields g i qe offp offx offy offz s) as (_ & _ & _ & Ef & _).
    set (np := qe_p qe + offp) in *.
    set (nqe := mkQE (qe_x qe + offx) (qe_y qe + offy) (qe_z qe + offz) np
                     (unwrap_value (phase s np) (qe_v qe))).
    assert (Eq : forall k, queues (visit g i qe (offp, offx, offy, offz) s) k
                 = if (k =? i)%nat
                   then snd (Push junk_entry (queues s i) nqe)
                   else queues s k) by reflexivity.
    destruct (Push_spec junk_entry (queues s i) nqe (Hwf i Hi)) as (_ & _ & Hc).
    split; [split; [|split]|].
    + intros p Hp. rewrite Ef. unfold upd. destruct (p =? np); [reflexivity|exact Hp].
    + intros k qe0 Hin0. rewrite Eq. destruct (Nat.eqb_spec k i) as [->|]; [|exact Hin0].
      rewrite Hc. apply in_or_app. left. exact Hin0.
    + intros p Hp0. rewrite Ef. unfold upd.
      destruct (Z.eqb_spec p np) as [->|_]; [|congruence].
      intros _. exists nqe. split; [|reflexivity].
      rewrite Eq, Nat.eqb_refl, Hc. apply in_or_app. right. left. reflexivity.
    + intros _. rewrite Ef. unfold upd. rewrite Z.eqb_refl. reflexivity.
Qed.

Lemma checks_grow i qe (os : list (Z * Z * Z * Z)) s :
  (forall o, In o os -> In o (six g)) ->
  Inv g (length ths) (Expanding i qe, s) ->
  let s' := foldl (fun s o => Check_at g i qe o s) s os in
  Inv g (length ths) (Expanding i qe, s') /\ grows i s s' /\
  forall offp offx offy offz, In (offp, offx, offy, offz) os ->
    in_grid g (qe_x qe + offx) (qe_y qe + offy) (qe_z qe + offz) ->
    flag s' (qe_p qe + offp) = true.
Proof.
  revert s. induction os as [|o os IH]; intros s Hos HI; simpl.
  - split; [exact HI|]. split; [apply grows_refl|]. intros ? ? ? ? [].
  - pose proof (Inv_step g ths Hg _ _ HI
                  (step_check g ths i qe s o (Hos o (or_introl eq_refl)))) as HI1.
    destruct (IH (Check_at g i qe o s)
                 ltac:(intros; apply Hos; right; assumption) HI1)
      as (HI2 & Hgr2 & Hdone2).
    destruct o as [[[offp offx] offy] offz].
    destruct (Check_grows i qe offp offx offy offz s HI) as [Hgr1 Hdone1].
    split; [exact HI2|]. split; [eapply grows_trans; eassumption|].
    intros offp' offx' offy' offz' [E|Hin'] Hgrid.
    + injection E as <- <- <- <-. apply (proj1 Hgr2). apply Hdone1, Hgrid.
    + apply (Hdone2 offp' offx' offy' offz'); assumption.
Qed.

(** After the six checks of a record every neighbour of its voxel is
    visited. *)
Lemma expand_expands i qe s :
  Inv g (length ths) (Expanding i qe, s) ->
  grows i s (expand g i qe s) /\ expanded g (expand g i qe s) (qe_p qe).
Proof.
  intros HI. rewrite expand_fold.
  destruct (checks_grow i qe (six g) s ltac:(auto) HI) as (_ & Hgr & Hdone).
  split; [exact Hgr|].
  destruct HI as (_ & _ & _ & _ & [Hin Hp] & _). cbn [fst snd] in Hin, Hp.
  intros p' (x & y & z & offp & offx & offy & offz & Hxyz & Ho & Hxyz' & E & ->).
  rewrite Hp in E.
  destruct (flat_inj g Hg _ _ _ _ _ _ Hin Hxyz E) as (<- & <- & <-).
  rewrite (six_flat g Hg _ _ _ _ _ _ _ Ho), <- Hp.
  apply (Hdone offp offx offy offz Ho Hxyz').
Qed.

Lemma expanded_mono s s' p :
  (forall p, flag s p = true -> flag s' p = true) ->
  expanded g s p -> expanded g s' p.
Proof. intros Hm He p' Hp'. apply Hm, He, Hp'. Qed.

(** One iteration of the [while] loop keeps the frontier. *)
Lemma process_frontier i s qe q s2 :
  Inv g (length ths) (Loop i, s) -> (i < length ths)%nat ->
  frontier g (length ths) i s ->
  Pop junk_entry (queues s i) = Some (qe, q) ->
  process g ths i qe (set_queue i q s) = Some s2 ->
  frontier g (length ths) i s2.
Proof.
  intros HI Hi Hfr HP. pose proof HI as (He & Hwf & _). cbn [snd] in He, Hwf.
  destruct (Pop_Some_inv _ _ _ (Hwf i Hi) HP) as [Hc Hq].
  unfold process. set (s1 := log (Rd Bmag (qe_p qe)) (set_queue i q s)).
  destruct (Qgt_bool (mag s1 (qe_p qe)) (nth i ths 0%Q)) eqn:Hgt.
  - destruct (scan (drop (S i) ths) (mag s1 (qe_p qe)) (S i)) as [j|] eqn:Hscan;
      [|discriminate].
    intros [= <-]. pose proof (scan_target _ _ _ _ Hscan) as Hj.
    assert (Hji : (j =? i)%nat = false) by (apply Nat.eqb_neq; lia).
    destruct (Push_spec junk_entry (queues s1 j) qe) as (_ & _ & Hcj).
    { simpl. rewrite Hji. apply Hwf. lia. }
    simpl in Hcj. rewrite Hji in Hcj.
    intros p Hp Hf. cbn [flag set_queue] in Hf.
    destruct (Hfr p Hp Hf) as [(k & qe0 & Hk & Hin0 & E)|Hex].
    + left. destruct (Nat.eq_dec k i) as [->|Hki].
      * rewrite Hc in Hin0. destruct Hin0 as [<-|Hin0].
        -- exists j, qe. split; [lia|]. split; [|exact E].
           simpl. rewrite Nat.eqb_refl. simpl. rewrite Hji, Hcj.
           apply in_or_app. right. left. reflexivity.
        -- exists i, qe0. split; [lia|]. split; [|exact E].
           simpl. rewrite (proj2 (Nat.eqb_neq i j)) by lia. rewrite Nat.eqb_refl.
           exact Hin0.
      * exists k, qe0. split; [lia|]. split; [|exact E]. simpl.
        destruct (Nat.eqb_spec k j) as [->|].
        -- simpl. rewrite Hji, Hcj. apply in_or_app. left. exact Hin0.
        -- rewrite (proj2 (Nat.eqb_neq k i)) by exact Hki. exact Hin0.
    + right. exact Hex.
  - intros [= <-].
    pose proof (Inv_step g ths Hg _ _ HI (step_accept g ths i s qe q Hi He HP Hgt))
      as HI1. fold s1 in HI1.
    destruct (expand_expands i qe s1 HI1) as [(Hm & Hk & Hn) Hex].
    intros p Hp Hf. destruct (flag s1 p) eqn:Hf1.
    + destruct (Hfr p Hp Hf1) as [(k & qe0 & Hki & Hin0 & E)|Hex0].
      * destruct (Nat.eq_dec k i) as [->|Hne].
        -- rewrite Hc in Hin0. destruct Hin0 as [<-|Hin0].
           ++ right. rewrite <- E. exact Hex.
           ++ left. exists i, qe0. split; [lia|]. split; [|exact E].
              apply Hk. simpl. rewrite Nat.eqb_refl. exact Hin0.
        -- left. exists k, qe0. split; [lia|]. split; [|exact E].
           apply Hk. simpl. rewrite (proj2 (Nat.eqb_neq k i)) by exact Hne.
           exact Hin0.
      * right. apply (expanded_mono s1); [exact Hm|exact Hex0].
    + left. destruct (Hn p Hf1 Hf) as (qe0 & Hin0 & E).
      exists i, qe0. split; [lia|]. auto.
Qed.

(** Leaving a drained bin keeps the frontier. *)
Lemma next_frontier i s :
  Inv g (length ths) (Loop i, s) -> (i < length ths)%nat ->
  frontier g (length ths) i s ->
  Pop junk_entry (queues s i) = None ->
  frontier g (length ths) (S i) (set_queue i (TerminateQueue (queues s i)) s).
Proof.
  intros (_ & Hwf & _) Hi Hfr Hnone. cbn [snd] in Hwf.
  assert (Hempty : contents (queues s i) = []).
  { pose proof (Pop_spec junk_entry (queues s i) (Hwf i Hi)) as H.
    destruct (contents (queues s i)); [reflexivity|].
    destruct H as (q' & H & _). congruence. }
  intros p Hp Hf. cbn [flag set_queue] in Hf.
  destruct (Hfr p Hp Hf) as [(k & qe0 & Hk & Hin0 & E)|Hex]; [left|right; exact Hex].
  destruct (Nat.eq_dec k i) as [->|Hne]; [rewrite Hempty in Hin0; destruct Hin0|].
  exists k, qe0. split; [lia|]. split; [|exact E]. simpl.
  rewrite (proj2 (Nat.eqb_neq k i)) by exact Hne. exact Hin0.
Qed.

End Coverage.

Section CoverageRun.
Import Queue Unwrap.

Lemma effect_keeps_flags g c s' p :
  effect g c s' -> flag (snd c) p = true -> flag s' p = true.
Proof.
  intros Heff.
  destruct Heff as [c s1 (_ & _ & _ & _ & _ & _ & Ef) _
                   |i s2 qe q s1 _ (_ & _ & _ & _ & _ & _ & Ef) _
                   |i qe s2 offp offx offy offz _ _ _
                   |i qe s2 offp offx offy offz _ _ _]; cbn [snd].
  - rewrite Ef. auto.
  - rewrite Ef. auto.
  - auto.
  - destruct (visit_fields g i qe offp offx offy offz s2) as (_ & _ & _ & Ef & _).
    rewrite Ef. unfold upd. destruct (p =? qe_p qe + offp); auto.
Qed.

Lemma steps_keep_flags g ths c c' p :
  rtc (step g ths) c c' -> flag (snd c) p = true -> flag (snd c') p = true.
Proof.
  induction 1 as [|c1 c2 c3 H12 _ IH]; [auto|]. intros Hf. apply IH.
  eapply effect_keeps_flags; [eapply step_effect; exact H12|exact Hf].
Qed.

(** A finished run of [unwrap] from a seed of the grid has visited every
    voxel of the grid. *)
Lemma unwrap_covers fuel g seedx seedy seedz B s s' :
  wf_globals g -> in_grid g seedx seedy seedz ->
  unwrap fuel g seedx seedy seedz B s = Finished s' ->
  forall p, in_buffer g p -> flag s' p = true.
Proof.
  intros Hg Hseed Hfin.
  set (seedp := flat g seedx seedy seedz).
  pose proof (Inv_init g seedx seedy seedz B s Hg Hseed) as HI0.
  destruct (unwrap_init_fields g seedx seedy seedz B s)
    as (mn & mx & _ & _ & _ & _ & _ & _ & _ & _ & _ & _ & _ & _ & Ef & Eq & _).
  fold seedp in Ef, Eq.
  pose proof (length_unwrap_init g seedx seedy seedz B s) as HN.
  unfold unwrap in Hfin.
  destruct (unwrap_init g seedx seedy seedz B s) as [ths s1].
  cbn [fst snd] in HI0, Ef, Eq, HN.
  assert (HNpos : (0 < length ths)%nat)
    by (rewrite HN; destruct (Z.ltb_spec B 2); lia).
  pose (L := fun (i : nat) (s2 : state) =>
               Inv g (length ths) (Loop i, s2) /\
               frontier g (length ths) i s2 /\ flag s2 seedp = true).
  assert (HL : L (length ths) s').
  { apply (bins_loop_invariant g ths L fuel (length ths) 0 s1 s'); [reflexivity| | | | |exact Hfin].
    - intros i s2 (HI & _). apply HI.
    - intros i s2 qe q s3 Hi (HI & Hfr & Hsd) HP Hp.
      pose proof HI as (He & _). cbn [snd] in He.
      pose proof (process_reach g ths i s2 qe q s3 Hi He HP Hp) as Hr.
      split; [|split].
      + revert Hr. apply rtc_ind_r; [exact HI|].
        intros c c' _ Hcc' Hc. eapply Inv_step; eassumption.
      + eapply process_frontier; eassumption.
      + exact (steps_keep_flags g ths _ _ seedp Hr Hsd).
    - intros i s2 Hi (HI & Hfr & Hsd) Hnone. split; [|split].
      + eapply Inv_step; [exact Hg|exact HI|].
        apply step_next; [exact Hi|right; exact Hnone].
      + apply next_frontier; assumption.
      + exact Hsd.
    - split; [exact HI0|]. split.
      + intros p Hp. rewrite Ef.
        destruct (Z.eqb_spec p seedp) as [->|_].
        * intros _. left.
          exists 0%nat, (mkQE seedx seedy seedz seedp (phase s seedp)).
          split; [lia|]. split; [|reflexivity]. rewrite Eq. cbn [Nat.eqb].
          destruct (Push_spec junk_entry (InitQueue sizeof_QUEUEENTRY)
                      (mkQE seedx seedy seedz seedp (phase s seedp))
                      (wf_InitQueue sizeof_QUEUEENTRY eq_refl)) as (_ & _ & ->).
          left. reflexivity.
        * destruct (decide _); [discriminate|contradiction].
      + rewrite Ef, Z.eqb_refl. reflexivity. }
  destruct HL as (_ & Hfr & Hsd).
  apply (grid_connected g Hg (fun p => flag s' p = true) seedx seedy seedz Hseed Hsd).
  intros p p' Hnb Hp.
  assert (Hin : in_buffer g p).
  { destruct Hnb as (x & y & z & _ & _ & _ & _ & Hxyz & _ & _ & -> & _).
    apply flat_in_buffer; assumption. }
  destruct (Hfr p Hin Hp) as [(k & _ & Hk & _)|Hex]; [lia|]. apply Hex, Hnb.
Qed.

(** Every effect keeps the visited voxels a whole number of turns from
    their wrapped phase. *)
Lemma whole_turns_effect g (ph : Z -> Q) c s' :
  (phase (snd c) = ph /\
   forall p, in_buffer g p -> flag (snd c) p = true ->
             turns_apart (unwrapped (snd c) p) (ph p)) ->
  effect g c s' ->
  phase s' = ph /\
  forall p, in_buffer g p -> flag s' p = true -> turns_apart (unwrapped s' p) (ph p).
Proof.
  intros (Hp & Hturn) Heff.
  destruct Heff as [c s1 (_ & _ & Ep & _ & _ & Eu & Ef) _
                   |i s2 qe q s1 _ (_ & _ & Ep & _ & _ & Eu & Ef) _
                   |i qe s2 offp offx offy offz _ _ _
                   |i qe s2 offp offx offy offz _ _ _]; cbn [snd] in Hp, Hturn.
  - split; [congruence|]. rewrite Eu, Ef. exact Hturn.
  - split; [congruence|]. rewrite Eu, Ef. exact Hturn.
  - split; [exact Hp|exact Hturn].
  - destruct (visit_fields g i qe offp offx offy offz s2) as (_ & Ep & _ & Ef & Eu).
    split; [congruence|]. intros p' Hin. rewrite Ef, Eu. unfold upd.
    destruct (Z.eqb_spec p' (qe_p qe + offp)) as [->|_].
    + intros _. rewrite Hp. apply unwrap_value_congruent.
    + apply Hturn, Hin.
Qed.

(** X14.  When a call on a grid with positive dimensions returns, it has
    visited every voxel of the grid, and every output entry of the grid
    holds the wrapped phase of its voxel plus a whole number of turns
    [2 PI]. *)
Theorem finished_run_covers_grid fuel d0 d1 d2 B s s' p :
  0 < d0 -> 0 < d1 -> 0 < d2 ->
  robustUnwrapMain fuel d0 d1 d2 B s = Finished s' ->
  in_buffer (main_globals d0 d1 d2) p ->
  flag s' p = true /\ turns_apart (unwrapped s' p) (phase s p).
Proof.
  intros H0 H1 H2 Hfin Hp.
  pose proof (wf_main_globals d0 d1 d2 H0 H1 H2) as Hg.
  pose proof (default_seed_in_grid d0 d1 d2 H0 H1 H2) as Hseed.
  set (g := main_globals d0 d1 d2) in *.
  rewrite robustUnwrapMain_unwrap in Hfin. fold g in Hfin.
  set (s0 := prepared d0 d1 d2 s) in *.
  pose proof (unwrap_covers fuel g _ _ _ B s0 s' Hg Hseed Hfin p Hp) as Hf.
  split; [exact Hf|].
  destruct (prepared_fields d0 d1 d2 s) as (_ & Hph & _). fold s0 in Hph.
  assert (HJ : phase (state_of (unwrap fuel g (default_seed d0) (default_seed d1)
                                  (default_seed d2) B s0)) = phase s /\
               forall p, in_buffer g p ->
                 flag (state_of (unwrap fuel g (default_seed d0) (default_seed d1)
                                   (default_seed d2) B s0)) p = true ->
                 turns_apart
                   (unwrapped (state_of (unwrap fuel g (default_seed d0)
                                 (default_seed d1) (default_seed d2) B s0)) p)
                   (phase s p)).
  { apply (unwrap_effect_invariant
             (fun s1 => phase s1 = phase s /\
                        forall p, in_buffer g p -> flag s1 p = true ->
                                  turns_apart (unwrapped s1 p) (phase s p))).
    - intros c s1 HJ Heff. exact (whole_turns_effect g (phase s) c s1 HJ Heff).
    - destruct (unwrap_init_fields g (default_seed d0) (default_seed d1)
                  (default_seed d2) B s0)
        as (mn & mx & _ & _ & _ & _ & _ & _ & _ & _ & Ep & _ & _ & Eu & Ef & _).
      split; [congruence|]. intros p' Hin. rewrite Ef, Eu.
      destruct (Z.eqb_spec p' (flat g (default_seed d0) (default_seed d1)
                  (default_seed d2))) as [->|_].
      + intros _. unfold upd at 1. rewrite Z.eqb_refl, Hph.
        exists 0. change (inject_Z 0) with 0%Q. ring.
      + destruct (decide _); [discriminate|contradiction]. }
  rewrite Hfin in HJ. cbn [state_of] in HJ. apply HJ; assumption.
Qed.

End CoverageRun.

Section Bound.
Import Queue Unwrap.

Lemma total_zero h n : (forall k, (k < n)%nat -> h k = 0) -> total h n = 0.
Proof.
  induction n as [|n IH]; intros H; simpl; [reflexivity|].
  rewrite IH by (intros; apply H; lia). rewrite H by lia. reflexivity.
Qed.

(** The measure of the state in which the bin loop is entered: all
    voxels but the seed are unvisited and the seed waits in bin 0. *)
Lemma potential_init g seedx seedy seedz B s :
  wf_globals g -> in_grid g seedx seedy seedz ->
  let init := unwrap_init g seedx seedy seedz B s in
  potential g (length (fst init)) (snd init)
  = (Z.max B 2 + 1) * sze g - 1.
Proof.
  intros Hg Hseed init. subst init.
  pose proof (length_unwrap_init g seedx seedy seedz B s) as HN.
  destruct (unwrap_init_fields g seedx seedy seedz B s)
    as (mn & mx & _ & _ & _ & _ & _ & _ & _ & _ & _ & _ & _ & _ & Ef & Eq & _).
  set (seedp := flat g seedx seedy seedz) in *.
  set (s1 := snd (unwrap_init g seedx seedy seedz B s)) in *.
  set (N := length (fst (unwrap_init g seedx seedy seedz B s))) in *.
  assert (HNB : Z.of_nat N = Z.max B 2)
    by (rewrite HN; destruct (Z.ltb_spec B 2); lia).
  pose proof (flat_in_buffer g Hg _ _ _ Hseed) as Hsp. fold seedp in Hsp.
  assert (Hs0 : 0 <= sze g) by (unfold in_buffer in Hsp; lia).
  assert (Hun : unvisited g s1 = sze g - 1)
    by (apply unvisited_init; assumption).
  assert (Hw : waiting N s1 = Z.of_nat N).
  { unfold waiting.
    rewrite (total_change (fun _ => 0)
               (fun k => (Z.of_nat N - Z.of_nat k)
                         * Z.of_nat (length (contents (queues s1 k)))) N 0%nat).
    - rewrite total_zero by reflexivity. rewrite Eq. cbn [Nat.eqb].
      destruct (Push_spec junk_entry (InitQueue sizeof_QUEUEENTRY)
                  (mkQE seedx seedy seedz seedp (phase s seedp))
                  (wf_InitQueue sizeof_QUEUEENTRY eq_refl)) as (_ & _ & ->).
      simpl length. lia.
    - lia.
    - intros k Hk Hk0. rewrite Eq.
      destruct (Nat.eqb_spec k 0); [contradiction|].
      destruct (decide _); [|lia]. simpl. lia. }
  unfold potential. rewrite Hun, Hw, HNB. lia.
Qed.

(** X15.  On a grid with positive dimensions, with at most [NUMQUEUES]
    bins (the length of the arrays of queues and of thresholds, lines
    188-189), the call returns: no [while] loop of a bin needs
    [(N + 1) * sze] iterations, [N] being the number of bins and [sze]
    the number of voxels; with that much fuel for the loop of each bin
    the run finishes. *)
Theorem robustUnwrapMain_returns_within fuel d0 d1 d2 B s :
  0 < d0 -> 0 < d1 -> 0 < d2 ->
  Z.max B 2 <= NUMQUEUES ->
  (Z.max B 2 + 1) * (d0 * d1 * d2) <= Z.of_nat fuel ->
  exists s', robustUnwrapMain fuel d0 d1 d2 B s = Finished s'.
Proof.
  intros H0 H1 H2 _ Hfuel.
  apply robustUnwrapMain_terminates; [assumption..|].
  rewrite potential_init;
    [|apply wf_main_globals; assumption|apply default_seed_in_grid; assumption].
  simpl sze. lia.
Qed.

End Bound.

Section Agreement.
Import Queue Unwrap.
Variable g : globals.
Hypothesis Hg : wf_globals g.

Lemma agree_log N a b s t : agree g N s t -> agree g N (log a s) (log b t).
Proof. intros H. exact H. Qed.

Lemma Check_agree N i qe offp offx offy offz s t :
  entry_geom g qe -> (i < N)%nat -> In (offp, offx, offy, offz) (six g) ->
  agree g N s t ->
  agree g N (Check g i qe offp offx offy offz s) (Check g i qe offp offx offy offz t).
Proof.
  intros [Hin0 Hp0] Hi Ho Hag. pose proof Hag as (He & Hm & Hq).
  set (np := qe_p qe + offp).
  assert (Hnp : in_grid g (qe_x qe + offx) (qe_y qe + offy) (qe_z qe + offz) ->
                in_buffer g np).
  { intros Hin. unfold np. rewrite Hp0, <- (six_flat g Hg _ _ _ _ _ _ _ Ho).
    apply flat_in_buffer; assumption. }
  apply (Check_at_cases g
           (fun s' => agree g N s' (Check g i qe offp offx offy offz t))
           i qe offp offx offy offz s).
  - intros Hout. rewrite (Check_outside g i qe offp offx offy offz t Hout). exact Hag.
  - intros Hin Hf. destruct (Hm np (Hnp Hin)) as (_ & _ & Ef & _).
    rewrite (Check_seen g i qe offp offx offy offz t Hin) by (fold np; rewrite <- Ef; exact Hf).
    apply agree_log, Hag.
  - intros Hin Hf. destruct (Hm np (Hnp Hin)) as (Ep & _ & Ef & _).
    rewrite (Check_stores g i qe offp offx offy offz t Hin) by (fold np; rewrite <- Ef; exact Hf).
    destruct (visit_fields g i qe offp offx offy offz s) as (Es1 & Es2 & Es3 & Es4 & Es5).
    destruct (visit_fields g i qe offp offx offy offz t) as (Et1 & Et2 & Et3 & Et4 & Et5).
    fold np in Es4, Es5, Et4, Et5.
    split; [congruence|]. split.
    + intros p Hp. destruct (Hm p Hp) as (Hph & Hmg & Hfl & Hun).
      rewrite Es2, Es3, Es4, Es5, Et2, Et3, Et4, Et5. unfold upd.
      split; [exact Hph|]. split; [exact Hmg|].
      destruct (p =? np); [|auto]. split; [reflexivity|]. intros _. congruence.
    + intros k Hk. unfold visit. cbn [queues set_queue wr_flag wr_unwrapped log].
      fold np. rewrite Ep, (Hq i Hi).
      destruct (k =? i)%nat; [reflexivity|apply Hq, Hk].
Qed.

Lemma expand_agree N i qe s t :
  entry_geom g qe -> (i < N)%nat -> agree g N s t ->
  agree g N (expand g i qe s) (expand g i qe t).
Proof.
  intros Hgeo Hi Hag. unfold expand.
  repeat (apply Check_agree; [exact Hgeo|exact Hi|unfold six; simpl; auto 10|]).
  exact Hag.
Qed.

Lemma agree_push N j qe s t :
  (j < N)%nat -> agree g N s t ->
  agree g N (set_queue j (snd (Push junk_entry (queues s j) qe)) s)
            (set_queue j (snd (Push junk_entry (queues t j) qe)) t).
Proof.
  intros Hj (He & Hm & Hq). split; [exact He|]. split; [exact Hm|].
  intros k Hk. simpl. rewrite (Hq j Hj). destruct (k =? j)%nat; [reflexivity|auto].
Qed.

Lemma agree_set_queue N i q s t :
  agree g N s t -> agree g N (set_queue i q s) (set_queue i q t).
Proof.
  intros (He & Hm & Hq). split; [exact He|]. split; [exact Hm|].
  intros k Hk. simpl. destruct (k =? i)%nat; [reflexivity|auto].
Qed.

(** The two runs take the same branch of the loop body. *)
Lemma process_agree ths i qe s t :
  entry_geom g qe -> (i < length ths)%nat -> agree g (length ths) s t ->
  match process g ths i qe s, process g ths i qe t with
  | Some s2, Some t2 => agree g (length ths) s2 t2
  | None, None => True
  | _, _ => False
  end.
Proof.
  intros Hgeo Hi Hag. unfold process.
  pose proof Hag as (_ & Hm & _).
  destruct (Hm (qe_p qe) (entry_in_buffer g Hg qe Hgeo)) as (_ & Emag & _).
  cbn [mag log]. rewrite <- Emag.
  destruct (Qgt_bool (mag s (qe_p qe)) (nth i ths 0%Q)).
  - destruct (scan (drop (S i) ths) (mag s (qe_p qe)) (S i)) as [j|] eqn:Hscan;
      [|exact I].
    pose proof (scan_target _ _ _ _ Hscan) as Hj.
    apply (agree_push (length ths) j qe (log _ s) (log _ t)); [lia|].
    apply agree_log, Hag.
  - apply expand_agree; [exact Hgeo|exact Hi|apply agree_log, Hag].
Qed.

Lemma drain_agree ths fuel i s t :
  (i < length ths)%nat -> Inv g (length ths) (Loop i, s) ->
  agree g (length ths) s t ->
  match drain fuel g ths i s, drain fuel g ths i t with
  | Finished s', Finished t' => agree g (length ths) s' t'
  | OutOfFuel s', OutOfFuel t' => agree g (length ths) s' t'
  | PastThresholds s', PastThresholds t' => agree g (length ths) s' t'
  | _, _ => False
  end.
Proof.
  intros Hi. revert s t. induction fuel as [|fuel IH]; intros s t HI Hag; simpl.
  - exact Hag.
  - pose proof Hag as (He & _ & Hq). pose proof HI as (He0 & _). cbn [snd] in He0.
    rewrite <- He, <- (Hq i Hi), He0. simpl.
    destruct (Pop junk_entry (queues s i)) as [[qe q]|] eqn:HP; [|exact Hag].
    destruct (popped_entry_ok g _ i s qe q HI Hi HP) as [Hgeo _].
    pose proof (process_agree ths i qe (set_queue i q s) (set_queue i q t) Hgeo Hi
                  (agree_set_queue _ i q s t Hag)) as Hp.
    destruct (process g ths i qe (set_queue i q s)) as [s2|] eqn:Hps,
             (process g ths i qe (set_queue i q t)) as [t2|] eqn:Hpt;
      try contradiction.
    + apply IH; [|exact Hp].
      pose proof (process_reach g ths i s qe q s2 Hi He0 HP Hps) as Hr.
      revert Hr. apply rtc_ind_r; [exact HI|].
      intros c c' _ Hcc' Hc. eapply Inv_step; eassumption.
    + apply agree_log, agree_set_queue, Hag.
Qed.

Lemma bins_agree ths fuel n i s t :
  (i + n = length ths)%nat -> Inv g (length ths) (Loop i, s) ->
  agree g (length ths) s t ->
  match bins fuel g ths n i s, bins fuel g ths n i t with
  | Finished s', Finished t' => agree g (length ths) s' t'
  | OutOfFuel s', OutOfFuel t' => agree g (length ths) s' t'
  | PastThresholds s', PastThresholds t' => agree g (length ths) s' t'
  | _, _ => False
  end.
Proof.
  revert i s t. induction n as [|n IH]; intros i s t Hn HI Hag; simpl.
  - exact Hag.
  - pose proof (drain_agree ths fuel i s t ltac:(lia) HI Hag) as Hd.
    destruct (drain_reach g ths fuel i s ltac:(lia)) as ([pc1 s1'] & Hr & Hs & Hend).
    cbn [snd fst] in Hs, Hend.
    destruct (drain fuel g ths i s) as [s1|s1|s1],
             (drain fuel g ths i t) as [t1|t1|t1]; try contradiction; try exact Hd.
    cbn [state_of] in Hs. subst s1'. destruct Hend as [-> Hfin].
    assert (HI1 : Inv g (length ths) (Loop i, s1)).
    { revert Hr. apply rtc_ind_r; [exact HI|].
      intros c c' _ Hcc' Hc. eapply Inv_step; eassumption. }
    pose proof Hd as (He & _ & Hq). pose proof HI1 as (He1 & _). cbn [snd] in He1.
    cbn [errcode set_queue]. rewrite <- He, He1. simpl.
    apply IH; [lia| |].
    + eapply Inv_step; [exact Hg|exact HI1|]. apply step_next; [lia|exact Hfin].
    + rewrite <- (Hq i ltac:(lia)). apply agree_set_queue, Hd.
Qed.

End Agreement.

Section AgreementRun.
Import Queue Unwrap.

Lemma find_min_max_agree (l : list Z) (mn0 mx0 : Q) (s t : state) :
  (forall i, In i l -> mag s i = mag t i) ->
  fst (foldl (fun '(mn, mx, s) i =>
                let s := log (Rd Bmag i) s in
                let m := mag s i in
                (if Qgt_bool mn m then m else mn,
                 if Qgt_bool m mx then m else mx, s))
             (mn0, mx0, s) l)
  = fst (foldl (fun '(mn, mx, s) i =>
                  let s := log (Rd Bmag i) s in
                  let m := mag s i in
                  (if Qgt_bool mn m then m else mn,
                   if Qgt_bool m mx then m else mx, s))
               (mn0, mx0, t) l).
Proof.
  revert mn0 mx0 s t. induction l as [|i l IH]; intros mn0 mx0 s t H; simpl.
  - reflexivity.
  - rewrite (H i (or_introl eq_refl)). apply IH.
    intros k Hk. simpl. apply H. right. exact Hk.
Qed.

(** The thresholds depend on the risk values of the grid only. *)
Lemma thresholds_agree g seedx seedy seedz B s t :
  (forall p, in_buffer g p -> mag s p = mag t p) ->
  fst (unwrap_init g seedx seedy seedz B s)
  = fst (unwrap_init g seedx seedy seedz B t).
Proof.
  intros H.
  assert (E : fst (find_min_max g (set_errcode 0 s))
              = fst (find_min_max g (set_errcode 0 t))).
  { unfold find_min_max. apply find_min_max_agree. intros i Hi.
    apply In_seqZ in Hi. simpl. apply H. unfold in_buffer. lia. }
  unfold unwrap_init.
  destruct (find_min_max g (set_errcode 0 s)) as [[mn mx] s1],
           (find_min_max g (set_errcode 0 t)) as [[mn' mx'] t1].
  simpl in E. injection E as -> ->. reflexivity.
Qed.

Lemma unwrap_init_agree g seedx seedy seedz B s t :
  wf_globals g -> in_grid g seedx seedy seedz ->
  (forall p, in_buffer g p -> phase s p = phase t p /\ mag s p = mag t p) ->
  agree g (length (fst (unwrap_init g seedx seedy seedz B s)))
        (snd (unwrap_init g seedx seedy seedz B s))
        (snd (unwrap_init g seedx seedy seedz B t)).
Proof.
  intros Hg Hseed H. rewrite length_unwrap_init.
  pose proof (flat_in_buffer g Hg _ _ _ Hseed) as Hsp.
  destruct (unwrap_init_fields g seedx seedy seedz B s)
    as (? & ? & _ & _ & _ & _ & _ & _ & Hes & _ & Eps & _ & Ems & Eus & Efs & Eqs & _).
  destruct (unwrap_init_fields g seedx seedy seedz B t)
    as (? & ? & _ & _ & _ & _ & _ & _ & Het & _ & Ept & _ & Emt & Eut & Eft & Eqt & _).
  set (seedp := flat g seedx seedy seedz) in *.
  destruct (H seedp Hsp) as [Esp _].
  split; [congruence|]. split.
  - intros p Hp. destruct (H p Hp) as [Hph Hmg].
    rewrite Eps, Ept, Ems, Emt, Efs, Eft, Eus, Eut.
    split; [exact Hph|]. split; [exact Hmg|]. unfold upd at 1 3.
    destruct (Z.eqb_spec p seedp) as [->|_].
    + split; [reflexivity|]. intros _. exact Esp.
    + destruct (decide (in_buffer g p)); [|contradiction].
      split; [reflexivity|discriminate].
  - intros k Hk. rewrite Eqs, Eqt, Esp.
    destruct (k =? 0)%nat; [reflexivity|].
    destruct (decide _); [reflexivity|lia].
Qed.

(** X16.  The output of a call on the grid depends only on the
    dimensions, the number of bins and the phase and magnitude of the
    grid: a call started with other content in the output buffer, in the
    blocks [new] returns, in the queue arrays or in [errcode] returns as
    well and leaves the same output values on the grid. *)
Theorem output_independent_of_stale_memory fuel d0 d1 d2 B s t s' :
  0 < d0 -> 0 < d1 -> 0 < d2 ->
  (forall p, in_buffer (main_globals d0 d1 d2) p ->
     phase t p = phase s p /\ maginput t p = maginput s p) ->
  robustUnwrapMain fuel d0 d1 d2 B s = Finished s' ->
  exists t', robustUnwrapMain fuel d0 d1 d2 B t = Finished t' /\
             forall p, in_buffer (main_globals d0 d1 d2) p ->
                       unwrapped t' p = unwrapped s' p.
Proof.
  intros H0 H1 H2 Hsame Hfin.
  pose proof (wf_main_globals d0 d1 d2 H0 H1 H2) as Hg.
  pose proof (default_seed_in_grid d0 d1 d2 H0 H1 H2) as Hseed.
  set (g := main_globals d0 d1 d2) in *.
  rewrite robustUnwrapMain_unwrap in Hfin |- *. fold g in Hfin |- *.
  set (s0 := prepared d0 d1 d2 s) in *. set (t0 := prepared d0 d1 d2 t).
  pose proof (unwrap_covers fuel g _ _ _ B s0 s' Hg Hseed Hfin) as Hcov.
  destruct (prepared_fields d0 d1 d2 s) as (_ & Hphs & _ & _ & _ & _ & Hmgs & _).
  destruct (prepared_fields d0 d1 d2 t) as (_ & Hpht & _ & _ & _ & _ & Hmgt & _).
  fold g s0 in Hphs, Hmgs. fold g t0 in Hpht, Hmgt.
  assert (H00 : forall p, in_buffer g p ->
                  phase s0 p = phase t0 p /\ mag s0 p = mag t0 p).
  { intros p Hp. destruct (Hsame p Hp) as [E1 E2].
    rewrite Hphs, Hpht, (Hmgs p Hp), (Hmgt p Hp), E1, E2. auto. }
  pose proof (thresholds_agree g (default_seed d0) (default_seed d1) (default_seed d2)
                B s0 t0 (fun p Hp => proj2 (H00 p Hp))) as Eths.
  pose proof (unwrap_init_agree g (default_seed d0) (default_seed d1) (default_seed d2)
                B s0 t0 Hg Hseed H00) as Hag.
  pose proof (Inv_init g (default_seed d0) (default_seed d1) (default_seed d2)
                B s0 Hg Hseed) as HI.
  unfold unwrap in Hfin |- *.
  destruct (unwrap_init g (default_seed d0) (default_seed d1) (default_seed d2) B s0)
    as [ths s1],
    (unwrap_init g (default_seed d0) (default_seed d1) (default_seed d2) B t0)
    as [ths' t1].
  cbn [fst snd] in Eths, Hag, HI. subst ths'.
  pose proof (bins_agree g Hg ths fuel (length ths) 0 s1 t1 eq_refl HI Hag) as Hb.
  rewrite Hfin in Hb.
  destruct (bins fuel g ths (length ths) 0 t1) as [t'|t'|t']; try contradiction.
  exists t'. split; [reflexivity|]. intros p Hp.
  destruct Hb as (_ & Hm & _). destruct (Hm p Hp) as (_ & _ & _ & Hu).
  symmetry. apply Hu, Hcov, Hp.
Qed.

End AgreementRun.

Section Seed.
Import Unwrap.

(** X19.  The seed of lines 291-293 is the centre of the axis: for a
    dimension [d >= 0] it is [(d + 1) / 2 - 1], the integer quotient
    rounding down; it lies on the axis when [d] is positive and is [-1]
    when [d] is 0. *)
Theorem default_seed_is_centre d :
  0 <= d ->
  default_seed d = (d + 1) / 2 - 1 /\
  (0 < d -> 0 <= default_seed d < d) /\
  (d = 0 -> default_seed d = -1).
Proof.
  intros Hd. split; [apply default_seed_eq, Hd|]. split.
  - apply default_seed_in.
  - intros ->. reflexivity.
Qed.

End Seed.


(** ** Instances of the further properties *)

(** Two pushes into a fresh queue of 4-byte records. *)
Lemma Push_appends_record_witness :
  let q := snd (Queue.Push 0%nat (Queue.InitQueue 4) 7%nat) in
  Queue.wf q /\ Queue.contents (snd (Queue.Push 0%nat q 9%nat)) = [7; 9]%nat.
Proof.
  intros q.
  assert (Hwf : Queue.wf q)
    by (unfold q, Queue.wf; vm_compute; repeat split; first [reflexivity|discriminate]).
  split; [exact Hwf|].
  exact (proj1 (proj2 (proj2 (Push_appends_record 0%nat q 9%nat Hwf)))).
Defined.

(** A queue holding one record is not reported empty. *)
Lemma Pop_takes_oldest_witness :
  let q := snd (Queue.Push 0%nat (Queue.InitQueue 4) 7%nat) in
  Queue.wf q /\ (Queue.Pop 0%nat q = None <-> Queue.contents q = []).
Proof.
  intros q.
  assert (Hwf : Queue.wf q)
    by (unfold q, Queue.wf; vm_compute; repeat split; first [reflexivity|discriminate]).
  split; [exact Hwf|]. exact (proj1 (Pop_takes_oldest 0%nat q Hwf)).
Defined.

(** The hundredth push into a fresh queue enlarges it to 600 slots. *)
Lemma Push_grows_when_full_witness :
  let q := snd (Queue.run_ops 0%nat (map Queue.OpPush (seq 0 99))
                  (Queue.InitQueue 4)) in
  Queue.wf q /\ Queue.m_size (snd (Queue.Push 0%nat q 7%nat)) = 600.
Proof.
  intros q.
  assert (Hwf : Queue.wf q)
    by (unfold q, Queue.wf; vm_compute; repeat split; first [reflexivity|discriminate]).
  split; [exact Hwf|]. exact (proj2 (Push_grows_when_full 0%nat q 7%nat Hwf)).
Defined.

(** A queue emptied by a pop, terminated, then used again. *)
Lemma drained_queue_reusable_witness :
  let q := match Queue.Pop 0%nat (snd (Queue.Push 0%nat (Queue.InitQueue 4) 7%nat)) with
           | Some (_, q') => q'
           | None => Queue.InitQueue 4
           end in
  (Queue.wf q /\ Queue.contents q = []) /\
  fst (Queue.run_ops 0%nat [Queue.OpPush 1%nat; Queue.OpPop; Queue.OpPop]
         (Queue.TerminateQueue q))
  = [Some 1%nat; None].
Proof.
  intros q.
  assert (Hwf : Queue.wf q)
    by (unfold q, Queue.wf; vm_compute; repeat split; first [reflexivity|discriminate]).
  assert (Hc : Queue.contents q = []) by reflexivity.
  split; [split; [exact Hwf|exact Hc]|].
  exact (proj2 (drained_queue_reusable 0%nat q
                  [Queue.OpPush 1%nat; Queue.OpPop; Queue.OpPop] Hwf Hc)).
Defined.

(** The +z neighbour of the last voxel of a line of five lies outside. *)
Lemma Check_outside_or_seen_witness :
  let g := Unwrap.main_globals 1 1 5 in
  let s := Unwrap.start (fun _ => 0%Q) (fun _ => 0%Q) (fun _ => 0%Q) in
  let qe := Unwrap.mkQE 0 0 4 4 0 in
  ~ Unwrap.in_grid g (0 + 0) (0 + 0) (4 + 1) /\
  Unwrap.Check g 0 qe 1 0 0 1 s = s.
Proof.
  intros g s qe.
  assert (Hout : ~ Unwrap.in_grid g (Unwrap.qe_x qe + 0) (Unwrap.qe_y qe + 0)
                                   (Unwrap.qe_z qe + 1))
    by (unfold Unwrap.in_grid; simpl; lia).
  split; [exact Hout|].
  exact (proj1 (Check_outside_or_seen g 0 qe 1 0 0 1 s) Hout).
Defined.

(** The check of the +z neighbour of the seed of the line [0, 0, 3, -3, 0],
    the seed being resolved to 3. *)
Lemma Check_visit_within_PI_witness :
  let g := Unwrap.main_globals 1 1 5 in
  let s := Unwrap.mkState 0 [] (fun i => nth (Z.to_nat i) [0; 0; 3; -3; 0]%Q 0%Q)
             (fun _ => 0%Q) (fun _ => 0%Q) (fun _ => 0%Q) (fun _ => false)
             (fun _ => Queue.InitQueue Unwrap.sizeof_QUEUEENTRY) [] in
  let qe := Unwrap.mkQE 0 0 2 2 3 in
  Unwrap.fits_int ((Unwrap.phase s 3 - 3) / Unwrap.PI)%Q /\
  (Qabs (Unwrap.unwrapped (Unwrap.Check g 0 qe 1 0 0 1 s) 3 - 3) <= Unwrap.PI)%Q.
Proof.
  intros g s qe.
  assert (Hwf : Queue.wf (Unwrap.queues s 0))
    by (unfold s, Queue.wf; vm_compute; repeat split; first [reflexivity|discriminate]).
  assert (Hin : Unwrap.in_grid g (Unwrap.qe_x qe + 0) (Unwrap.qe_y qe + 0)
                               (Unwrap.qe_z qe + 1))
    by (unfold Unwrap.in_grid; simpl; lia).
  assert (Hq : Unwrap.fits_int ((Unwrap.phase s 3 - 3) / Unwrap.PI)%Q)
    by (vm_compute; reflexivity).
  split; [exact Hq|].
  exact (proj1 (proj2 (Check_visit_within_PI g 0 qe 1 0 0 1 s Hwf Hin eq_refl Hq))).
Defined.

(** The line [0, 0, 3, -3, 0] run to its end. *)
Lemma finished_run_frees_queues_witness :
  let s := Unwrap.start (Unwrap.buffer_of [0; 0; 3; -3; 0]%Q) (fun _ => 0%Q)
                        (fun _ => 0%Q) in
  let s' := Unwrap.state_of (Unwrap.robustUnwrapMain 20 1 1 5 2 s) in
  Queue.m_q (Unwrap.queues s' 1) = None /\
  Queue.Pop Unwrap.junk_entry (Unwrap.queues s' 1) = None.
Proof.
  intros s s'.
  apply (finished_run_frees_queues 20 1 1 5 2 s s' 1); try lia.
  vm_compute. reflexivity.
Defined.

(** Entry 85 of the output of a line of five voxels. *)
Lemma output_outside_grid_but_85_witness :
  let s := Unwrap.start (fun i => inject_Z i) (fun _ => 0%Q) (fun _ => 0%Q) in
  Unwrap.unwrapped (Unwrap.state_of (Unwrap.robustUnwrapMain 20 1 1 5 2 s)) 85
  = Unwrap.phase s 85.
Proof.
  intros s.
  apply (output_outside_grid_but_85 20 1 1 5 2 s 85); try lia.
  unfold Unwrap.in_buffer. simpl. lia.
Defined.

(** A 4 x 4 grid of no slice. *)
Lemma seed_message_iff_empty_grid_witness :
  let s := Unwrap.start (fun _ => 0%Q) (fun _ => 0%Q) (fun _ => 0%Q) in
  let s' := Unwrap.state_of (Unwrap.robustUnwrapMain 20 4 4 0 2 s) in
  Unwrap.errcode s' = 0 /\ Unwrap.gerror s' = [Unwrap.seed_message].
Proof.
  intros s s'.
  apply (seed_message_iff_empty_grid 20 4 4 0 2 s); lia.
Defined.

(** No bin requested. *)
Lemma fewer_than_two_bins_witness :
  let s := Unwrap.start (Unwrap.buffer_of [0; 0; 3; -3; 0]%Q) (fun _ => 0%Q)
                        (fun _ => 0%Q) in
  Unwrap.robustUnwrapMain 20 1 1 5 0 s = Unwrap.robustUnwrapMain 20 1 1 5 2 s.
Proof.
  intros s. apply (fewer_than_two_bins 20 1 1 5 0 s). lia.
Defined.

(** Voxel 3 of the line [0, 0, 3, -3, 0], reached across a jump; the
    wrapped phase is at most 3 in absolute value. *)
Lemma visited_voxel_near_a_neighbour_witness :
  let s := Unwrap.start (Unwrap.buffer_of [0; 0; 3; -3; 0]%Q) (fun _ => 0%Q)
                        (fun _ => 0%Q) in
  (2 * 3 + Unwrap.PI * inject_Z (1 * 1 * 5) <= Unwrap.PI * 2147483647)%Q /\
  Unwrap.near_a_neighbour (Unwrap.main_globals 1 1 5)
    (Unwrap.state_of (Unwrap.robustUnwrapMain 20 1 1 5 2 s)) 3.
Proof.
  intros s.
  assert (HM : forall q, Unwrap.in_buffer (Unwrap.main_globals 1 1 5) q ->
                         (Qabs (Unwrap.phase s q) <= 3)%Q).
  { intros q Hq. unfold Unwrap.in_buffer in Hq. simpl in Hq.
    assert (Hc : q = 0 \/ q = 1 \/ q = 2 \/ q = 3 \/ q = 4) by lia.
    destruct Hc as [->|[->|[->|[->| ->]]]]; vm_compute; discriminate. }
  assert (Hr : (2 * 3 + Unwrap.PI * inject_Z (1 * 1 * 5)
                <= Unwrap.PI * 2147483647)%Q)
    by (vm_compute; discriminate).
  split; [exact Hr|].
  apply (visited_voxel_near_a_neighbour 20 1 1 5 2 3 s 3);
    [lia|lia|lia|unfold Queue.NUMQUEUES; lia|exact HM|exact Hr| | |].
  - unfold Unwrap.in_buffer. simpl. lia.
  - vm_compute. reflexivity.
  - vm_compute. discriminate.
Defined.

(** The last voxel of the line [0, 0, 3, -3, 0]. *)
Lemma finished_run_covers_grid_witness :
  let s := Unwrap.start (Unwrap.buffer_of [0; 0; 3; -3; 0]%Q) (fun _ => 0%Q)
                        (fun _ => 0%Q) in
  let s' := Unwrap.state_of (Unwrap.robustUnwrapMain 20 1 1 5 2 s) in
  Unwrap.flag s' 4 = true /\
  Unwrap.turns_apart (Unwrap.unwrapped s' 4) (Unwrap.phase s 4).
Proof.
  intros s s'.
  apply (finished_run_covers_grid 20 1 1 5 2 s s' 4); try lia.
  - vm_compute. reflexivity.
  - unfold Unwrap.in_buffer. simpl. lia.
Defined.

(** A line of five voxels with two bins: fifteen iterations suffice. *)
Lemma robustUnwrapMain_returns_within_witness :
  exists s', Unwrap.robustUnwrapMain 15 1 1 5 2
               (Unwrap.start (Unwrap.buffer_of [0; 0; 3; -3; 0]%Q) (fun _ => 0%Q)
                             (fun _ => 0%Q))
             = Unwrap.Finished s'.
Proof.
  apply (robustUnwrapMain_returns_within 15 1 1 5 2);
    unfold Queue.NUMQUEUES; lia.
Defined.

(** The accesses of the run on the line [0, 0, 3, -3, 0]. *)
Lemma accesses_in_buffers_but_line_227_witness :
  let s := Unwrap.start (Unwrap.buffer_of [0; 0; 3; -3; 0]%Q) (fun _ => 0%Q)
                        (fun _ => 0%Q) in
  Unwrap.extends (Unwrap.in_buffer_or_line_227 (Unwrap.main_globals 1 1 5)) s
    (Unwrap.state_of (Unwrap.robustUnwrapMain 20 1 1 5 2 s)).
Proof.
  intros s. apply (accesses_in_buffers_but_line_227 20 1 1 5 2 s); lia.
Defined.

(** The line [0, 0, 3, -3, 0] started from a clean state and from a
    state holding stale values everywhere but in the inputs. *)
Lemma output_independent_of_stale_memory_witness :
  let ph := Unwrap.buffer_of [0; 0; 3; -3; 0]%Q in
  let s := Unwrap.start ph (fun _ => 0%Q) (fun _ => 0%Q) in
  let t := Unwrap.mkState 7 ["stale"%string] ph (fun _ => 0%Q)
             (fun i => inject_Z i) (fun _ => 9%Q) (fun _ => true)
             (fun _ => Queue.InitQueue 1) [Unwrap.Rd Unwrap.Bmag 3] in
  exists t', Unwrap.robustUnwrapMain 20 1 1 5 2 t = Unwrap.Finished t' /\
             forall p, Unwrap.in_buffer (Unwrap.main_globals 1 1 5) p ->
               Unwrap.unwrapped t' p
               = Unwrap.unwrapped
                   (Unwrap.state_of (Unwrap.robustUnwrapMain 20 1 1 5 2 s)) p.
Proof.
  intros ph s t.
  apply (output_independent_of_stale_memory 20 1 1 5 2 s t
           (Unwrap.state_of (Unwrap.robustUnwrapMain 20 1 1 5 2 s))); try lia.
  - intros p _. split; reflexivity.
  - vm_compute. reflexivity.
Defined.

(** An axis of five voxels: the seed is voxel 2. *)
Lemma default_seed_is_centre_witness :
  0 <= 5 /\ Unwrap.default_seed 5 = 2.
Proof.
  split; [lia|]. exact (proj1 (default_seed_is_centre 5 ltac:(lia))).
Defined.
